(** * BSON extension: binary-layout engine, path language and JSON-to-BSON encoder

    A shallow embedding of [extension/bson/bson_common.cpp],
    [extension/bson/include/bson_common.hpp], of the scalar functions under
    [extension/bson/bson_functions/] and of the encoder
    ([JSONToBSONDocument] and [CastJSONToBSON]), together with the
    properties of the validator, the element locator, the path parser, the
    path navigator and the encoder.

    Conventions of the embedding.
    - [uint8_t] is [Byte.byte]; a buffer is a [list byte].
    - A pointer into a buffer is the suffix of the buffer that starts at the
      pointed byte: [data + pos] is [ptr_add data pos], [data[pos]] is
      [byte_at data pos].
    - [idx_t] (an unsigned 64-bit integer), [int32_t] and [int64_t] are [Z];
      every place where the source narrows or may wrap applies [to_idx],
      [to_int32] or [to_int64].
    - [BSONElement &result] is an in/out parameter: the functions that write
      it take the element and return it next to their [bool]. *)

From Stdlib Require Import ZArith List Lia Bool.
From Stdlib Require Import Strings.Byte Strings.Ascii Strings.String.
From Stdlib Require Import DecimalString.
From Stdlib Require Import DecimalN DecimalPos.
Import ListNotations.

Local Open Scope Z_scope.

(** ** Machine integers *)

Module MachineInt.

Definition INT32_MIN : Z := -2147483648.
Definition INT32_MAX : Z := 2147483647.
Definition UINT64_MAX : Z := 18446744073709551615.

(** [(int32_t)z]: two's complement narrowing. *)
Definition to_int32 (z : Z) : Z := (z + 2147483648) mod 4294967296 - 2147483648.

(** [(int64_t)z]. *)
Definition to_int64 (z : Z) : Z :=
  (z + 9223372036854775808) mod 18446744073709551616 - 9223372036854775808.

(** [(idx_t)z]: unsigned 64-bit wrap-around. *)
Definition to_idx (z : Z) : Z := z mod 18446744073709551616.

End MachineInt.
Export MachineInt.

(** ** Bytes and pointers *)

Definition byte_val (b : byte) : Z := Z.of_N (Byte.to_N b).

Definition byte_of_Z (z : Z) : byte :=
  match Byte.of_N (Z.to_N (z mod 256)) with
  | Some b => b
  | None => x00
  end.

Definition ptr := list byte.

Definition ptr_add (p : ptr) (n : Z) : ptr := skipn (Z.to_nat n) p.

Definition byte_at (p : ptr) (i : Z) : byte := nth (Z.to_nat i) p x00.

Definition len {A} (l : list A) : Z := Z.of_nat (List.length l).

(** The little-endian unsigned value of the first [n] bytes at [p]. *)
Fixpoint le_unsigned (n : nat) (p : ptr) : Z :=
  match n with
  | O => 0
  | S n' => byte_val (hd x00 p) + 256 * le_unsigned n' (tl p)
  end.

(** The [n] little-endian bytes of [z] ([memcpy] of an [n]-byte integer). *)
Fixpoint le_bytes (n : nat) (z : Z) : list byte :=
  match n with
  | O => []
  | S n' => byte_of_Z z :: le_bytes n' (z / 256)
  end.

(** ** bson_common.hpp *)

(** [enum class BSONType : uint8_t].  A tag read from a buffer is any byte
    ([static_cast<BSONType>(data[pos++])]), so the type is [byte] and the
    enumerators are its named values. *)
Abbreviation BSONType := byte.

Module BSONTypes.
Definition DOUBLE : BSONType := x01.
Definition STRING : BSONType := x02.
Definition DOCUMENT : BSONType := x03.
Definition ARRAY : BSONType := x04.
Definition BINARY : BSONType := x05.
Definition UNDEFINED : BSONType := x06.
Definition OBJECT_ID : BSONType := x07.
Definition BOOLEAN : BSONType := x08.
Definition DATE_TIME : BSONType := x09.
Definition NULL_VALUE : BSONType := x0a.
Definition REGEX : BSONType := x0b.
Definition DB_POINTER : BSONType := x0c.
Definition JAVASCRIPT : BSONType := x0d.
Definition SYMBOL : BSONType := x0e.
Definition JAVASCRIPT_WITH_SCOPE : BSONType := x0f.
Definition INT32 : BSONType := x10.
Definition TIMESTAMP : BSONType := x11.
Definition INT64 : BSONType := x12.
Definition DECIMAL128 : BSONType := x13.
Definition MIN_KEY : BSONType := xff.
Definition MAX_KEY : BSONType := x7f.
End BSONTypes.
Export BSONTypes.

(** [struct BSONElement]. *)
Module BSONElement.
Record t : Type := mk {
  type : BSONType;
  key : ptr;
  key_len : Z;
  value : ptr;
  value_len : Z
}.
Definition set_type (r : t) (x : BSONType) : t := mk x (key r) (key_len r) (value r) (value_len r).
Definition set_key (r : t) (x : ptr) : t := mk (type r) x (key_len r) (value r) (value_len r).
Definition set_key_len (r : t) (x : Z) : t := mk (type r) (key r) x (value r) (value_len r).
Definition set_value (r : t) (x : ptr) : t := mk (type r) (key r) (key_len r) x (value_len r).
Definition set_value_len (r : t) (x : Z) : t := mk (type r) (key r) (key_len r) (value r) x.
End BSONElement.
Abbreviation BSONElement := BSONElement.t.

(** [BSONCommon::TypeToString]; [None] is the [InternalException] of the
    [default] branch. *)
Definition TypeToString (type : BSONType) : option string :=
  match type with
  | x01 => Some "double"%string
  | x02 => Some "string"%string
  | x03 => Some "document"%string
  | x04 => Some "array"%string
  | x05 => Some "binary"%string
  | x06 => Some "undefined"%string
  | x07 => Some "objectid"%string
  | x08 => Some "boolean"%string
  | x09 => Some "datetime"%string
  | x0a => Some "null"%string
  | x0b => Some "regex"%string
  | x0c => Some "dbpointer"%string
  | x0d => Some "javascript"%string
  | x0e => Some "symbol"%string
  | x0f => Some "javascriptwithscope"%string
  | x10 => Some "int32"%string
  | x11 => Some "timestamp"%string
  | x12 => Some "int64"%string
  | x13 => Some "decimal128"%string
  | xff => Some "minkey"%string
  | x7f => Some "maxkey"%string
  | _ => None
  end.

(** [BSONCommon::ReadInt32] and [BSONCommon::ReadInt64]. *)
Definition ReadInt32 (data : ptr) : Z := to_int32 (le_unsigned 4 data).
Definition ReadInt64 (data : ptr) : Z := to_int64 (le_unsigned 8 data).

(** [BSONCommon::ReadDouble]: a [double] is carried as its 64-bit pattern. *)
Definition ReadDouble (data : ptr) : Z := le_unsigned 8 data.

(** ** bson_common.cpp *)

(** [while (pos < limit && data[pos] != 0x00) pos++;] -- the loop that skips
    a cstring.  The fuel is the distance to [limit], which the loop cannot
    exceed. *)
Fixpoint skip_cstring_from (fuel : nat) (data : ptr) (limit pos : Z) : Z :=
  match fuel with
  | O => pos
  | S fuel' =>
      if (pos <? limit) && negb (Byte.eqb (byte_at data pos) x00)
      then skip_cstring_from fuel' data limit (pos + 1)
      else pos
  end.

Definition skip_cstring (data : ptr) (limit pos : Z) : Z :=
  skip_cstring_from (Z.to_nat (limit - pos)) data limit pos.

(** [BSONCommon::GetValueSize].  The source compares and adds in [int]:
    [(int32_t)remaining - 4], [4 + str_len] and the like are 32-bit
    operations, written here with the wrap-around the compiled code has
    ([to_int32]), and the [int] a branch returns is converted to the
    [idx_t] of the result ([to_idx]).  For a [remaining] of at most
    [INT32_MAX], which is all that [ValidateDocument] and [FindElement]
    pass, nothing wraps ([GetValueSize_in_range] below). *)
Definition GetValueSize (type : BSONType) (value : ptr) (remaining : Z) : Z :=
  if remaining <? 1 then 0 else
  match type with
  | x01 (* DOUBLE *) => 8
  | x02 (* STRING *) =>
      if remaining <? 4 then 0 else
      let str_len := ReadInt32 value in
      if (str_len <? 1) || (to_int32 (to_int32 remaining - 4) <? str_len) then 0
      else to_idx (to_int32 (4 + str_len))
  | x03 (* DOCUMENT *) | x04 (* ARRAY *) =>
      if remaining <? 4 then 0 else
      let doc_len := ReadInt32 value in
      if (doc_len <? 5) || (to_int32 remaining <? doc_len) then 0
      else to_idx doc_len
  | x05 (* BINARY *) =>
      if remaining <? 5 then 0 else
      let bin_len := ReadInt32 value in
      if (bin_len <? 0) || (to_int32 (to_int32 remaining - 5) <? bin_len) then 0
      else to_idx (to_int32 (5 + bin_len))
  | x06 (* UNDEFINED *) => 0
  | x07 (* OBJECT_ID *) => 12
  | x08 (* BOOLEAN *) => 1
  | x09 (* DATE_TIME *) => 8
  | x0a (* NULL_VALUE *) => 0
  | x0b (* REGEX *) =>
      let pos := skip_cstring value remaining 0 in
      if remaining <=? pos then 0 else
      let pos := pos + 1 in
      let pos := skip_cstring value remaining pos in
      if remaining <=? pos then 0 else
      pos + 1
  | x0c (* DB_POINTER *) =>
      if remaining <? 4 then 0 else
      let str_len := ReadInt32 value in
      if (str_len <? 1) || (to_int32 (to_int32 remaining - 16) <? str_len) then 0
      else to_idx (to_int32 (to_int32 (4 + str_len) + 12))
  | x0d (* JAVASCRIPT *) =>
      if remaining <? 4 then 0 else
      let str_len := ReadInt32 value in
      if (str_len <? 1) || (to_int32 (to_int32 remaining - 4) <? str_len) then 0
      else to_idx (to_int32 (4 + str_len))
  | x0e (* SYMBOL *) =>
      if remaining <? 4 then 0 else
      let str_len := ReadInt32 value in
      if (str_len <? 1) || (to_int32 (to_int32 remaining - 4) <? str_len) then 0
      else to_idx (to_int32 (4 + str_len))
  | x0f (* JAVASCRIPT_WITH_SCOPE *) =>
      if remaining <? 4 then 0 else
      let total_len := ReadInt32 value in
      if (total_len <? 14) || (to_int32 remaining <? total_len) then 0
      else to_idx total_len
  | x10 (* INT32 *) => 4
  | x11 (* TIMESTAMP *) => 8
  | x12 (* INT64 *) => 8
  | x13 (* DECIMAL128 *) => 16
  | xff (* MIN_KEY *) | x7f (* MAX_KEY *) => 0
  | _ => 0
  end.

(** The element loop of [BSONCommon::ValidateDocument].  Every iteration
    moves [pos] forward, so [doc_len] iterations are enough; [None] stands
    for an exhausted fuel and is shown below never to be returned. *)
Fixpoint validate_elements (fuel : nat) (data : ptr) (size doc_len pos : Z)
  : option bool :=
  match fuel with
  | O => None
  | S fuel' =>
      if pos <? doc_len - 1 then
        if size <=? pos then Some false else
        let type := byte_at data pos in
        let pos := pos + 1 in
        let pos := skip_cstring data doc_len pos in
        if doc_len <=? pos then Some false else
        let pos := pos + 1 in
        let remaining := doc_len - pos in
        let value_size := GetValueSize type (ptr_add data pos) remaining in
        if (value_size =? 0) || (remaining <? value_size) then Some false
        else validate_elements fuel' data size doc_len (pos + value_size)
      else Some (pos =? doc_len - 1)
  end.

(** [BSONCommon::ValidateDocument]. *)
Definition ValidateDocument (data : ptr) (size : Z) : bool :=
  if size <? 5 then false else
  let doc_len := ReadInt32 data in
  if (doc_len <? 5) || (size <? doc_len) then false else
  if negb (Byte.eqb (byte_at data (doc_len - 1)) x00) then false else
  match validate_elements (Z.to_nat doc_len) data size doc_len 4 with
  | Some b => b
  | None => false
  end.

(** [memcmp(a, b, n) == 0]. *)
Fixpoint memcmp_eq (a b : ptr) (n : nat) : bool :=
  match n with
  | O => true
  | S n' => Byte.eqb (hd x00 a) (hd x00 b) && memcmp_eq (tl a) (tl b) n'
  end.

(** The scan loop of [BSONCommon::FindElement].  [elem_key_len], which the
    source counts next to [pos], is the distance the cstring loop moved. *)
Fixpoint find_elements (fuel : nat) (doc_data : ptr) (doc_len pos : Z)
    (key : ptr) (key_len : Z) (result : BSONElement)
  : option (bool * BSONElement) :=
  match fuel with
  | O => None
  | S fuel' =>
      if pos <? doc_len - 1 then
        let result := BSONElement.set_type result (byte_at doc_data pos) in
        let pos := pos + 1 in
        let result := BSONElement.set_key result (ptr_add doc_data pos) in
        let key_start := pos in
        let pos := skip_cstring doc_data doc_len pos in
        let elem_key_len := pos - key_start in
        if doc_len <=? pos then Some (false, result) else
        let pos := pos + 1 in
        let result := BSONElement.set_key_len result elem_key_len in
        let result := BSONElement.set_value result (ptr_add doc_data pos) in
        let remaining := doc_len - pos in
        let result :=
          BSONElement.set_value_len result
            (GetValueSize (BSONElement.type result) (BSONElement.value result)
               remaining) in
        if (BSONElement.value_len result =? 0)
           || (remaining <? BSONElement.value_len result)
        then Some (false, result) else
        if (elem_key_len =? key_len)
           && memcmp_eq (BSONElement.key result) key (Z.to_nat key_len)
        then Some (true, result)
        else find_elements fuel' doc_data doc_len
               (pos + BSONElement.value_len result) key key_len result
      else Some (false, result)
  end.

(** [BSONCommon::FindElement]. *)
Definition FindElement (doc_data : ptr) (doc_size : Z) (key : ptr) (key_len : Z)
    (result : BSONElement) : bool * BSONElement :=
  if doc_size <? 5 then (false, result) else
  let doc_len := ReadInt32 doc_data in
  if (doc_len <? 5) || (doc_size <? doc_len) then (false, result) else
  match find_elements (Z.to_nat doc_len) doc_data doc_len 4 key key_len result with
  | Some r => r
  | None => (false, result)
  end.

(** [std::to_string(index)] for an [idx_t]. *)
Definition to_string (index : Z) : string :=
  NilZero.string_of_uint (N.to_uint (Z.to_N index)).

(** [BSONCommon::GetArrayElement]. *)
Definition GetArrayElement (array_data : ptr) (array_size : Z) (index : Z)
    (result : BSONElement) : bool * BSONElement :=
  let index_str := to_string index in
  FindElement array_data array_size (list_byte_of_string index_str)
    (Z.of_nat (String.length index_str)) result.

(** [BSONCommon::PathType]. *)
Inductive PathType : Type := REGULAR | WILDCARD.

(** [BSONCommon::PathSegment]: the tag [is_array_index] with the union of
    [key] and [index]. *)
Inductive PathSegment : Type :=
  | KeySegment (key : string)
  | IndexSegment (index : Z).

Definition is_array_index (seg : PathSegment) : bool :=
  match seg with
  | KeySegment _ => false
  | IndexSegment _ => true
  end.

(** The exceptions [ParsePath] throws: one [InvalidInputException] per
    message, and the [std::out_of_range] of [std::stoull]. *)
Inductive PathError : Type :=
  | MustStartWithDollar
  | EndsWithDot
  | EmptyKey
  | UnclosedQuotedKey
  | EndsWithBracket
  | InvalidArrayIndex
  | UnexpectedCharacter
  | StoullOutOfRange.

Definition what (e : PathError) : string :=
  match e with
  | MustStartWithDollar => "BSON path must start with '$'"
  | EndsWithDot => "BSON path ends with '.'"
  | EmptyKey => "Empty key in BSON path"
  | UnclosedQuotedKey => "Unclosed quoted key in BSON path"
  | EndsWithBracket => "BSON path ends with '['"
  | InvalidArrayIndex => "Invalid array index in BSON path"
  | UnexpectedCharacter => "Unexpected character in BSON path"
  | StoullOutOfRange => "stoull"
  end%string.

Inductive result (E A : Type) : Type :=
  | Return (a : A)
  | Raise (e : E).
Arguments Return {E A} a.
Arguments Raise {E A} e.

(** The double-quote character (code 34). *)
Definition dquote : ascii := ascii_of_N 34.

Definition char_at (path : string) (pos : Z) : ascii :=
  match String.get (Z.to_nat pos) path with
  | Some c => c
  | None => Ascii.zero
  end.

(** The key loop of [ParsePath]: stops at the closing quote of a quoted key,
    at ['.'] or ['['] for a bare key, or at [len]. *)
Fixpoint scan_key (fuel : nat) (path : string) (len : Z) (quoted : bool)
    (pos : Z) : Z :=
  match fuel with
  | O => pos
  | S fuel' =>
      if pos <? len then
        if quoted then
          if Ascii.eqb (char_at path pos) dquote then pos
          else scan_key fuel' path len quoted (pos + 1)
        else
          if Ascii.eqb (char_at path pos) "." || Ascii.eqb (char_at path pos) "["
          then pos
          else scan_key fuel' path len quoted (pos + 1)
      else pos
  end.

Definition is_digit (c : ascii) : bool :=
  (48 <=? Z.of_N (N_of_ascii c)) && (Z.of_N (N_of_ascii c) <=? 57).

(** [while (pos < len && path[pos] >= '0' && path[pos] <= '9') pos++;] *)
Fixpoint scan_digits (fuel : nat) (path : string) (len pos : Z) : Z :=
  match fuel with
  | O => pos
  | S fuel' =>
      if (pos <? len) && is_digit (char_at path pos)
      then scan_digits fuel' path len (pos + 1)
      else pos
  end.

(** The value [std::stoull] reads from a run of decimal digits. *)
Fixpoint digits_value (acc : Z) (s : string) : Z :=
  match s with
  | EmptyString => acc
  | String c s' => digits_value (10 * acc + (Z.of_N (N_of_ascii c) - 48)) s'
  end.

Definition stoull (s : string) : result PathError Z :=
  let v := digits_value 0 s in
  if UINT64_MAX <? v then Raise StoullOutOfRange else Return v.

Definition substr (path : string) (start n : Z) : string :=
  String.substring (Z.to_nat start) (Z.to_nat n) path.

(** The [while (pos < len)] loop of [ParsePath].  Every iteration consumes
    at least one character; [None] stands for an exhausted fuel. *)
Fixpoint parse_steps (fuel : nat) (path : string) (len pos : Z)
    (segments : list PathSegment)
  : option (result PathError (list PathSegment)) :=
  match fuel with
  | O => None
  | S fuel' =>
      if pos <? len then
        let c := char_at path pos in
        if Ascii.eqb c "." then
          let pos := pos + 1 in
          if len <=? pos then Some (Raise EndsWithDot) else
          let quoted := Ascii.eqb (char_at path pos) dquote in
          let pos := if quoted then pos + 1 else pos in
          let key_start := pos in
          let pos := scan_key (Z.to_nat (len - pos)) path len quoted pos in
          if pos =? key_start then Some (Raise EmptyKey) else
          let seg := KeySegment (substr path key_start (pos - key_start)) in
          let segments := segments ++ [seg] in
          if quoted then
            if (len <=? pos) || negb (Ascii.eqb (char_at path pos) dquote)
            then Some (Raise UnclosedQuotedKey)
            else parse_steps fuel' path len (pos + 1) segments
          else parse_steps fuel' path len pos segments
        else if Ascii.eqb c "[" then
          let pos := pos + 1 in
          if len <=? pos then Some (Raise EndsWithBracket) else
          let index_start := pos in
          let pos := scan_digits (Z.to_nat (len - pos)) path len pos in
          if (pos =? index_start) || (len <=? pos)
             || negb (Ascii.eqb (char_at path pos) "]")
          then Some (Raise InvalidArrayIndex) else
          match stoull (substr path index_start (pos - index_start)) with
          | Raise e => Some (Raise e)
          | Return index =>
              parse_steps fuel' path len (pos + 1)
                (segments ++ [IndexSegment index])
          end
        else Some (Raise UnexpectedCharacter)
      else Some (Return segments)
  end.

(** [BSONCommon::ParsePath]: the returned path type and the [segments]
    vector after the call, or the exception thrown. *)
Definition ParsePath (path : string) (len : Z) (segments : list PathSegment)
  : result PathError (PathType * list PathSegment) :=
  if len =? 0 then Return (REGULAR, segments) else
  if negb (Ascii.eqb (char_at path 0) "$") then Raise MustStartWithDollar else
  match parse_steps (S (Z.to_nat len)) path len 1 segments with
  | Some (Return segments) => Return (REGULAR, segments)
  | Some (Raise e) => Raise e
  | None => Return (REGULAR, segments)
  end.

(** [BSONCommon::TraversePath].  [&segment != &segments.back()] holds when
    segments remain after the current one. *)
Fixpoint TraversePath_from (current_data : ptr) (current_size : Z)
    (segments : list PathSegment) (result : BSONElement)
  : bool * BSONElement :=
  match segments with
  | [] => (true, result)
  | segment :: rest =>
      let (found, result) :=
        match segment with
        | IndexSegment index =>
            GetArrayElement current_data current_size index result
        | KeySegment key =>
            FindElement current_data current_size (list_byte_of_string key)
              (Z.of_nat (String.length key)) result
        end in
      if negb found then (false, result) else
      match rest with
      | [] => (true, result)
      | _ :: _ =>
          if negb (Byte.eqb (BSONElement.type result) DOCUMENT)
             && negb (Byte.eqb (BSONElement.type result) ARRAY)
          then (false, result)
          else TraversePath_from (BSONElement.value result)
                 (BSONElement.value_len result) rest result
      end
  end.

Definition TraversePath (doc_data : ptr) (doc_size : Z)
    (segments : list PathSegment) (result : BSONElement)
  : bool * BSONElement :=
  TraversePath_from doc_data doc_size segments result.

(** ** The scalar functions (one row of each) *)

(** What a row of a scalar function produces: a value, SQL NULL
    ([mask.SetInvalid(idx)]), or an exception with its message. *)
Inductive row (A : Type) : Type :=
  | RowValue (a : A)
  | RowNull
  | RowThrow (msg : string).
Arguments RowValue {A} a.
Arguments RowNull {A}.
Arguments RowThrow {A} msg.

(** A [string_t] made of the first [n] bytes at [p]. *)
Definition string_t (p : ptr) (n : Z) : list byte := firstn (Z.to_nat n) p.

(** The row lambda of [BSONExistsFunction].  [elem] is the content of the
    uninitialised local [BSONElement elem]. *)
Definition BSONExistsFunction (bson : list byte) (path : string)
    (elem : BSONElement) : row bool :=
  let data := bson in
  let size := len bson in
  match ParsePath path (Z.of_nat (String.length path)) [] with
  | Raise e => RowThrow (what e)
  | Return (_, segments) =>
      match segments with
      | [] => RowValue (ValidateDocument data size)
      | _ :: _ => RowValue (fst (TraversePath data size segments elem))
      end
  end.

(** The row lambda of [BSONTypeFunction]. *)
Definition BSONTypeFunction (bson : list byte) (path : string)
    (elem : BSONElement) : row string :=
  let data := bson in
  let size := len bson in
  match ParsePath path (Z.of_nat (String.length path)) [] with
  | Raise e => RowThrow (what e)
  | Return (_, segments) =>
      match segments with
      | [] => RowValue "document"%string
      | _ :: _ =>
          let (found, elem) := TraversePath data size segments elem in
          if negb found then RowNull else
          match TypeToString (BSONElement.type elem) with
          | Some name => RowValue name
          | None => RowThrow "Unknown BSON type"
          end
      end
  end.

(** The row lambda of [BSONExtractFunction]. *)
Definition BSONExtractFunction (bson : list byte) (path : string)
    (elem : BSONElement) : row (list byte) :=
  let data := bson in
  let size := len bson in
  match ParsePath path (Z.of_nat (String.length path)) [] with
  | Raise e => RowThrow (what e)
  | Return (_, segments) =>
      match segments with
      | [] => RowValue bson
      | _ :: _ =>
          let (found, elem) := TraversePath data size segments elem in
          if negb found then RowNull else
          if Byte.eqb (BSONElement.type elem) DOCUMENT
             || Byte.eqb (BSONElement.type elem) ARRAY
          then RowValue (string_t (BSONElement.value elem)
                           (BSONElement.value_len elem))
          else RowNull
      end
  end.

(** The row lambda of [BSONExtractStringFunction].  It calls [TraversePath]
    without looking at [segments.empty()] first. *)
Definition BSONExtractStringFunction (bson : list byte) (path : string)
    (elem : BSONElement) : row (list byte) :=
  let data := bson in
  let size := len bson in
  match ParsePath path (Z.of_nat (String.length path)) [] with
  | Raise e => RowThrow (what e)
  | Return (_, segments) =>
      let (found, elem) := TraversePath data size segments elem in
      if negb found then RowNull else
      if negb (Byte.eqb (BSONElement.type elem) STRING) then RowNull else
      let str_len := ReadInt32 (BSONElement.value elem) in
      if str_len <? 1 then RowNull else
      RowValue (string_t (ptr_add (BSONElement.value elem) 4) (str_len - 1))
  end.

(** The row lambda of [BSONValidFunction]. *)
Definition BSONValidFunction (bson : list byte) : bool :=
  ValidateDocument bson (len bson).

(** ** The JSON tree the encoder reads *)

(** A [yyjson_val] of an immutable yyjson document.  A number carries its
    subtype: [JUint] (a [uint64_t]), [JSint] (an [int64_t]) or [JReal] (a
    [double], carried as its 64-bit pattern).  The keys of an object are
    string values; a field is the bytes of its key and its value.  [JRaw] is
    a value of type [YYJSON_TYPE_RAW], the one type of a value that the
    encoder's [switch] sends to [default]. *)
#[warnings="-register-all"]
Inductive yyjson_val : Type :=
  | JRaw (raw : list byte)
  | JNull
  | JBool (b : bool)
  | JUint (num : Z)
  | JSint (num : Z)
  | JReal (bits : Z)
  | JStr (str : list byte)
  | JArr (elems : list yyjson_val)
  | JObj (fields : list (list byte * yyjson_val)).

Inductive yyjson_type : Type :=
  | YYJSON_TYPE_RAW
  | YYJSON_TYPE_NULL
  | YYJSON_TYPE_BOOL
  | YYJSON_TYPE_NUM
  | YYJSON_TYPE_STR
  | YYJSON_TYPE_ARR
  | YYJSON_TYPE_OBJ.

Inductive yyjson_subtype : Type :=
  | YYJSON_SUBTYPE_NONE
  | YYJSON_SUBTYPE_FALSE
  | YYJSON_SUBTYPE_TRUE
  | YYJSON_SUBTYPE_UINT
  | YYJSON_SUBTYPE_SINT
  | YYJSON_SUBTYPE_REAL.

Definition yyjson_get_type (val : yyjson_val) : yyjson_type :=
  match val with
  | JRaw _ => YYJSON_TYPE_RAW
  | JNull => YYJSON_TYPE_NULL
  | JBool _ => YYJSON_TYPE_BOOL
  | JUint _ | JSint _ | JReal _ => YYJSON_TYPE_NUM
  | JStr _ => YYJSON_TYPE_STR
  | JArr _ => YYJSON_TYPE_ARR
  | JObj _ => YYJSON_TYPE_OBJ
  end.

Definition yyjson_get_subtype (val : yyjson_val) : yyjson_subtype :=
  match val with
  | JBool false => YYJSON_SUBTYPE_FALSE
  | JBool true => YYJSON_SUBTYPE_TRUE
  | JUint _ => YYJSON_SUBTYPE_UINT
  | JSint _ => YYJSON_SUBTYPE_SINT
  | JReal _ => YYJSON_SUBTYPE_REAL
  | _ => YYJSON_SUBTYPE_NONE
  end.

Definition yyjson_get_bool (val : yyjson_val) : bool :=
  match val with JBool b => b | _ => false end.

Definition yyjson_get_real (val : yyjson_val) : Z :=
  match val with JReal bits => bits | _ => 0 end.

Definition yyjson_get_sint (val : yyjson_val) : Z :=
  match val with JSint num => num | JUint num => to_int64 num | _ => 0 end.

Definition yyjson_get_uint (val : yyjson_val) : Z :=
  match val with JUint num => num | JSint num => to_idx num | _ => 0 end.

Definition yyjson_get_str (val : yyjson_val) : list byte :=
  match val with JStr str => str | _ => [] end.

Definition yyjson_is_obj (val : yyjson_val) : bool :=
  match val with JObj _ => true | _ => false end.

Definition yyjson_is_arr (val : yyjson_val) : bool :=
  match val with JArr _ => true | _ => false end.

(** Modelled from the spec: the JSON tree library (yyjson) is an external
    collaborator whose sources are not part of the extension; the spec fixes
    that a mapping is iterated in its own order, duplicate keys included.
    What [yyjson_obj_iter_init] followed by [yyjson_obj_iter_next] yields is
    the fields of an object in order; initialised on a value that is not an
    object, the iterator of yyjson is zeroed and yields no field. *)
Definition yyjson_obj_iter (obj : yyjson_val) : list (list byte * yyjson_val) :=
  match obj with
  | JObj fields => fields
  | _ => []
  end.

(** ** The encoder *)

(** The exceptions of [JSONToBSONDocument]. *)
Inductive EncodeError : Type :=
  | BufferTooSmallForDocument
  | BufferTooSmallForElement
  | BufferTooSmallForTerminator
  | UnsupportedJSONType.

Definition encode_what (e : EncodeError) : string :=
  match e with
  | BufferTooSmallForDocument => "Buffer too small for BSON document"
  | BufferTooSmallForElement => "Buffer too small for BSON element"
  | BufferTooSmallForTerminator => "Buffer too small for BSON terminator"
  | UnsupportedJSONType => "Unsupported JSON type in conversion to BSON"
  end%string.

(** What a run of the encoder comes to: it returns, it throws, or it leaves
    the embedding.  [Undefined] is a write past the end of the destination
    allocation (undefined behaviour in the source, which checks its writes
    against [remaining] only), or a document of more than [INT32_MAX] bytes,
    whose length does not fit the [int32_t] the source narrows it to. *)
Inductive outcome (A : Type) : Type :=
  | Done (a : A)
  | Throw (e : EncodeError)
  | Undefined.
Arguments Done {A} a.
Arguments Throw {A} e.
Arguments Undefined {A}.

Definition bind {A B} (m : outcome A) (k : A -> outcome B) : outcome B :=
  match m with
  | Done a => k a
  | Throw e => Throw e
  | Undefined => Undefined
  end.

Notation "x <- m ;; k" := (bind m (fun x => k))
  (at level 61, m at next level, right associativity).
Notation "' p <- m ;; k" := (bind m (fun x => let 'p := x in k))
  (at level 61, p pattern, m at next level, right associativity).

(** [WriteBSONString], [WriteBSONInt32], [WriteBSONInt64], [WriteBSONDouble]
    and [WriteBSONBool]: the bytes stored at [dest]; the value each returns
    is their number. *)
Definition WriteBSONString (str : list byte) (slen : Z) : list byte :=
  le_bytes 4 (to_int32 (slen + 1)) ++ str ++ [x00].
Definition WriteBSONInt32 (value : Z) : list byte := le_bytes 4 value.
Definition WriteBSONInt64 (value : Z) : list byte := le_bytes 8 value.
Definition WriteBSONDouble (bits : Z) : list byte := le_bytes 8 bits.
Definition WriteBSONBool (value : bool) : list byte :=
  [if value then x01 else x00].

(** Stores [bytes] at [current]; [body] is what lies between [dest + 4] and
    [current], and [cap] the number of bytes of the allocation from [dest]
    on. *)
Definition store (cap : Z) (body bytes : list byte) : outcome (list byte) :=
  if 4 + len body + len bytes <=? cap then Done (body ++ bytes) else Undefined.

(** The [while ((key_val = yyjson_obj_iter_next(&iter)))] loop of
    [JSONToBSONDocument]: [iter] is what the iterator still yields, [body]
    the bytes between [dest + 4] and [current]; the loop returns [body] and
    [remaining] as they are once the iterator is exhausted.
    [JSONToBSONDocument] is the routine the loop calls for a nested array
    or object. *)
Section Elements.

Variable JSONToBSONDocument : yyjson_val -> Z -> Z -> outcome (Z * list byte).
Variable cap : Z.

Fixpoint elements (iter : list (list byte * yyjson_val)) (body : list byte)
    (remaining : Z) {struct iter} : outcome (list byte * Z) :=
  match iter with
  | [] => Done (body, remaining)
  | (key, val) :: iter =>
      let key_len := len key in
      if remaining <? key_len + 3 then Throw BufferTooSmallForElement else
      match yyjson_get_type val with
      | YYJSON_TYPE_NULL =>
          body <- store cap body (x0a :: key ++ [x00]) ;;
          elements iter body (to_idx (remaining - (key_len + 2)))
      | YYJSON_TYPE_BOOL =>
          body <- store cap body (x08 :: key ++ [x00]) ;;
          body <- store cap body (WriteBSONBool (yyjson_get_bool val)) ;;
          elements iter body (to_idx (remaining - (key_len + 3)))
      | YYJSON_TYPE_NUM =>
          match yyjson_get_subtype val with
          | YYJSON_SUBTYPE_REAL =>
              body <- store cap body (x01 :: key ++ [x00]) ;;
              body <- store cap body (WriteBSONDouble (yyjson_get_real val)) ;;
              elements iter body (to_idx (remaining - (key_len + 10)))
          | YYJSON_SUBTYPE_SINT =>
              let num := yyjson_get_sint val in
              if (INT32_MIN <=? num) && (num <=? INT32_MAX) then
                body <- store cap body (x10 :: key ++ [x00]) ;;
                body <- store cap body (WriteBSONInt32 (to_int32 num)) ;;
                elements iter body (to_idx (remaining - (key_len + 6)))
              else
                body <- store cap body (x12 :: key ++ [x00]) ;;
                body <- store cap body (WriteBSONInt64 num) ;;
                elements iter body (to_idx (remaining - (key_len + 10)))
          | _ (* UINT *) =>
              body <- store cap body (x12 :: key ++ [x00]) ;;
              body <- store cap body
                        (WriteBSONInt64 (to_int64 (yyjson_get_uint val))) ;;
              elements iter body (to_idx (remaining - (key_len + 10)))
          end
      | YYJSON_TYPE_STR =>
          body <- store cap body (x02 :: key ++ [x00]) ;;
          let str := yyjson_get_str val in
          let str_len := len str in
          body <- store cap body (WriteBSONString str str_len) ;;
          elements iter body (to_idx (remaining - (key_len + str_len + 7)))
      | YYJSON_TYPE_ARR =>
          body <- store cap body (x04 :: key ++ [x00]) ;;
          '(written, doc) <-
            JSONToBSONDocument val (cap - (4 + len body)) remaining ;;
          elements iter (body ++ doc)
            (to_idx (remaining - (key_len + written + 2)))
      | YYJSON_TYPE_OBJ =>
          body <- store cap body (x03 :: key ++ [x00]) ;;
          '(written, doc) <-
            JSONToBSONDocument val (cap - (4 + len body)) remaining ;;
          elements iter (body ++ doc)
            (to_idx (remaining - (key_len + written + 2)))
      | YYJSON_TYPE_RAW => Throw UnsupportedJSONType
      end
  end.

(** What follows the loop: the terminator, then the length prefix. *)
Definition terminate (loop : outcome (list byte * Z)) : outcome (Z * list byte) :=
  '(body, remaining) <- loop ;;
  if remaining <? 1 then Throw BufferTooSmallForTerminator else
  body <- store cap body [x00] ;;
  let doc_len := 4 + len body in
  if INT32_MAX <? doc_len then Undefined else
  Done (doc_len, le_bytes 4 doc_len ++ body).

End Elements.

(** [JSONToBSONDocument(obj, dest, max_size)]: the value returned and the
    bytes from [dest] to [dest + doc_len].  [cap] is the part of the
    allocation that starts at [dest]: the caller of the outermost call
    passes [max_size] for it, a nested call gets what is left of it after
    [current], whereas its [max_size] is the [remaining] of its caller.
    The fields are taken from [obj] by a [match] so that the recursion is
    structural; [JSONToBSONDocument_eq] states the function with
    [yyjson_obj_iter]. *)
Fixpoint JSONToBSONDocument (obj : yyjson_val) (cap max_size : Z) {struct obj}
  : outcome (Z * list byte) :=
  if max_size <? 5 then Throw BufferTooSmallForDocument else
  terminate cap
    match obj with
    | JObj fields =>
        elements JSONToBSONDocument cap fields [] (to_idx (max_size - 4))
    | _ => Done ([], to_idx (max_size - 4))
    end.

(** What the cast leaves in a row: the blob, or an invalid row with the
    error it assigns. *)
Inductive CastError : Type :=
  | InvalidJSON
  | RootNotObjectOrArray
  | FailedToConvert (e : EncodeError).

Inductive cast_row : Type :=
  | CastBlob (blob : list byte)
  | CastInvalid (error : CastError)
  | CastUndefined.

(** The row lambda of [CastJSONToBSON].  [json_size] is [json_str.GetSize()]
    and [doc] what [yyjson_read] made of the text ([None] when it is not
    JSON). *)
Definition CastJSONToBSON (json_size : Z) (doc : option yyjson_val) : cast_row :=
  match doc with
  | None => CastInvalid InvalidJSON
  | Some root =>
      if negb (yyjson_is_obj root) && negb (yyjson_is_arr root)
      then CastInvalid RootNotObjectOrArray else
      let bson_size := to_idx (json_size * 2 + 1024) in
      match JSONToBSONDocument root bson_size bson_size with
      | Throw e => CastInvalid (FailedToConvert e)
      | Undefined => CastUndefined
      | Done (written, bson_data) => CastBlob (string_t bson_data written)
      end
  end.

(** ** The bytes of an encoded tree

    A closed form of what the encoder stores, used to state its properties;
    [JSONToBSONDocument_exact] and [JSONToBSONDocument_fits] below relate it
    to [JSONToBSONDocument]. *)

Definition in_int32 (num : Z) : bool := (INT32_MIN <=? num) && (num <=? INT32_MAX).

(** The tag byte the encoder stores in front of the key of a value. *)
Definition bson_tag (val : yyjson_val) : BSONType :=
  match val with
  | JRaw _ => x00
  | JNull => NULL_VALUE
  | JBool _ => BOOLEAN
  | JUint _ => INT64
  | JSint num => if in_int32 num then INT32 else INT64
  | JReal _ => DOUBLE
  | JStr _ => STRING
  | JArr _ => ARRAY
  | JObj _ => DOCUMENT
  end.

(** A document around the bytes of its elements: length prefix, elements,
    terminator. *)
Definition frame (body : list byte) : list byte :=
  le_bytes 4 (4 + len body + 1) ++ body ++ [x00].

(** The bytes the encoder stores after the key of a value. *)
Fixpoint bson_value (val : yyjson_val) : list byte :=
  match val with
  | JRaw _ => []
  | JNull => []
  | JBool b => WriteBSONBool b
  | JUint num => WriteBSONInt64 (to_int64 num)
  | JSint num =>
      if in_int32 num then WriteBSONInt32 (to_int32 num) else WriteBSONInt64 num
  | JReal bits => WriteBSONDouble bits
  | JStr str => WriteBSONString str (len str)
  | JArr _ => frame []
  | JObj fields =>
      frame
        ((fix body (l : list (list byte * yyjson_val)) : list byte :=
            match l with
            | [] => []
            | (key, v) :: l' =>
                (bson_tag v :: key ++ [x00]) ++ bson_value v ++ body l'
            end) fields)
  end.

Definition bson_element (field : list byte * yyjson_val) : list byte :=
  (bson_tag (snd field) :: fst field ++ [x00]) ++ bson_value (snd field).

Definition bson_elements (fields : list (list byte * yyjson_val)) : list byte :=
  flat_map bson_element fields.

Definition bson_document (obj : yyjson_val) : list byte :=
  frame (bson_elements (yyjson_obj_iter obj)).

(** No value of type [YYJSON_TYPE_RAW] among the values the encoder visits:
    the fields of the objects, at any depth.  (The elements of an array are
    not visited.) *)
Fixpoint supported (val : yyjson_val) : bool :=
  match val with
  | JRaw _ => false
  | JObj fields =>
      (fix all (l : list (list byte * yyjson_val)) : bool :=
         match l with
         | [] => true
         | (_, v) :: l' => supported v && all l'
         end) fields
  | _ => true
  end.

Definition supported_fields (fields : list (list byte * yyjson_val)) : bool :=
  forallb (fun field => supported (snd field)) fields.

(** A key without a NUL byte. *)
Definition nul_free (key : list byte) : bool :=
  forallb (fun b => negb (Byte.eqb b x00)) key.

(** A value the encoder gives at least one byte: neither [null] nor raw. *)
Definition sized (val : yyjson_val) : bool :=
  match val with
  | JRaw _ | JNull => false
  | _ => true
  end.

(** ** Predicates and buffers used in the statements *)

(** The fields the validator and the locator walk over: keys without NUL
    and values of at least one byte. *)
Definition walkable (fields : list (list byte * yyjson_val)) : bool :=
  forallb (fun field => nul_free (fst field) && sized (snd field)) fields.

(** The four tags of a value without bytes. *)
Definition empty_valued (tag : BSONType) : bool :=
  Byte.eqb tag NULL_VALUE || Byte.eqb tag UNDEFINED
  || Byte.eqb tag MIN_KEY || Byte.eqb tag MAX_KEY.

(** What the encoder returns is the closed form. *)
Definition exact (val : yyjson_val) : Prop :=
  forall cap max_size n doc,
    JSONToBSONDocument val cap max_size = Done (n, doc) ->
    doc = bson_document val /\ n = len doc /\ n <= INT32_MAX.

(** With [cap] and [max_size] bytes for a document that needs no more, the
    encoder returns the closed form. *)
Definition fits (val : yyjson_val) : Prop :=
  forall cap max_size,
    supported val = true ->
    len (bson_document val) <= cap ->
    len (bson_document val) <= max_size <= UINT64_MAX ->
    len (bson_document val) <= INT32_MAX ->
    JSONToBSONDocument val cap max_size
    = Done (len (bson_document val), bson_document val).


(** The bytes of a text. *)
Definition bytes (s : string) : list byte := list_byte_of_string s.

(** The empty document, and five bytes whose length prefix says 4. *)
Definition empty_document : list byte := [x05; x00; x00; x00; x00].
Definition short_length_document : list byte := [x04; x00; x00; x00; x00].

(** [{"name": "John"}] with [b] for its last byte; [b = 0x00] gives the
    document of the README and of the quick test script. *)
Definition john_document_ending (b : byte) : list byte :=
  [x14; x00; x00; x00; x02; x6e; x61; x6d; x65; x00;
   x05; x00; x00; x00; x4a; x6f; x68; x6e; x00; b].
Definition john_document : list byte := john_document_ending x00.

(** A document with one field [key] of tag [DOCUMENT] whose value is
    [junk] behind a length prefix. *)
Definition document_around (key junk : list byte) : list byte :=
  frame ((DOCUMENT :: key ++ [x00]) ++ le_bytes 4 (4 + len junk) ++ junk).

(** The 8 bytes of [{"a": null}]. *)
Definition null_field_document : list byte :=
  [x08; x00; x00; x00; x0a; x61; x00; x00].

(** The lookup of one segment. *)
Definition lookup (current_data : ptr) (current_size : Z) (segment : PathSegment)
    (result : BSONElement) : bool * BSONElement :=
  match segment with
  | IndexSegment index => GetArrayElement current_data current_size index result
  | KeySegment key =>
      FindElement current_data current_size (list_byte_of_string key)
        (Z.of_nat (String.length key)) result
  end.

(** [type == BSONType::DOCUMENT || type == BSONType::ARRAY]. *)
Definition is_container (type : BSONType) : bool :=
  Byte.eqb type DOCUMENT || Byte.eqb type ARRAY.

(** [{"a": true, "a": "x"}] and [{"a": null}]. *)
Definition twice_a : yyjson_val :=
  JObj [(bytes "a", JBool true); (bytes "a", JStr (bytes "x"))].
Definition null_field : yyjson_val := JObj [(bytes "a", JNull)].

(** The 18 bytes of [{"a": true, "a": "x"}]. *)
Definition twice_a_document : list byte :=
  [x12; x00; x00; x00; x08; x61; x00; x01;
   x02; x61; x00; x02; x00; x00; x00; x78; x00; x00].

(** An element with nothing in it, for the [result] a caller passes. *)
Definition no_element : BSONElement := BSONElement.mk x00 [] 0 [] 0.

(** The tag of the field of the document the cast makes of [{"a": val}]. *)
Definition cast_field_tag (val : yyjson_val) : option BSONType :=
  match CastJSONToBSON 32 (Some (JObj [(bytes "a", val)])) with
  | CastBlob blob => Some (byte_at blob 4)
  | _ => None
  end.

(** Modelled from the spec: the JSON text parser is an external collaborator
    and is not part of the sources; the spec says it yields the tree of a
    JSON text.  [json_text_min val] is a lower bound of the length of a
    JSON text that denotes [val]: 4 characters for [null], [true] or
    [false], one for a number, two quotes around the bytes of a string
    (an escape is never shorter than the bytes it stands for), two brackets
    for an array, and for an object its opening brace and, for each field,
    the quoted key, the colon, the value and the comma or closing brace
    that follows it. *)
Fixpoint json_text_min (val : yyjson_val) : Z :=
  match val with
  | JRaw _ => 1
  | JNull => 4
  | JBool _ => 4
  | JUint _ | JSint _ | JReal _ => 1
  | JStr str => 2 + len str
  | JArr _ => 2
  | JObj fields =>
      1 + (fix sum (l : list (list byte * yyjson_val)) : Z :=
             match l with
             | [] => 0
             | (key, v) :: l' => (len key + 4 + json_text_min v) + sum l'
             end) fields
  end.

(** The part of [json_text_min] that the fields of an object make. *)
Definition json_fields_min (fields : list (list byte * yyjson_val)) : Z :=
  fold_right (fun field acc => len (fst field) + 4 + json_text_min (snd field) + acc)
    0 fields.

(** ** Predicates, texts and trees used in the further statements *)

(** Two buffers with the same first [n] bytes. *)
Definition same_prefix (n : Z) (a b : ptr) : Prop :=
  firstn (Z.to_nat n) a = firstn (Z.to_nat n) b.

(** Two buffers with the same bytes at the offsets from [lo] up to, and
    without, [hi]. *)
Definition agree (lo hi : Z) (a b : ptr) : Prop :=
  forall i, lo <= i < hi -> byte_at a i = byte_at b i.

(** The elements of a document laid end to end from the offset [pos] up to
    the terminator at [doc_len - 1]: an element is a tag byte, a key that
    ends at its first NUL, at [key_end], and a value whose size, given by
    the size table for the tag, is not 0 and fits in what is left of the
    document. *)
Inductive element_chain (data : ptr) (doc_len : Z) : Z -> Prop :=
  | chain_end : element_chain data doc_len (doc_len - 1)
  | chain_element (pos key_end size : Z) :
      pos < doc_len - 1 ->
      pos + 1 <= key_end < doc_len ->
      (forall i, pos + 1 <= i < key_end -> byte_at data i <> x00) ->
      byte_at data key_end = x00 ->
      size = GetValueSize (byte_at data pos) (ptr_add data (key_end + 1))
               (doc_len - (key_end + 1)) ->
      0 < size <= doc_len - (key_end + 1) ->
      element_chain data doc_len (key_end + 1 + size) ->
      element_chain data doc_len pos.

(** The offset behind the element at [pos]: behind its tag, its key, the
    NUL of the key and its value. *)
Definition next_element (data : ptr) (doc_len pos : Z) : Z :=
  let key_end := skip_cstring data doc_len (pos + 1) in
  key_end + 1
  + GetValueSize (byte_at data pos) (ptr_add data (key_end + 1))
      (doc_len - (key_end + 1)).

(** [pos] is the offset of an element of the chain that starts at
    [start]. *)
Inductive element_at (data : ptr) (doc_len : Z) : Z -> Z -> Prop :=
  | element_here (pos : Z) :
      pos < doc_len - 1 -> element_at data doc_len pos pos
  | element_next (start pos : Z) :
      start < doc_len - 1 ->
      element_at data doc_len (next_element data doc_len start) pos ->
      element_at data doc_len start pos.

(** The element at [pos] has the [key_len] bytes at [key] for its key. *)
Definition has_key (data : ptr) (doc_len pos : Z) (key : ptr) (key_len : Z) : bool :=
  (skip_cstring data doc_len (pos + 1) - (pos + 1) =? key_len)
  && memcmp_eq (ptr_add data (pos + 1)) key (Z.to_nat key_len).

(** [elem] is an element of a buffer of [size] bytes at [data]: its value
    starts at an offset of the buffer and ends within it, and its length is
    what the size table gives for its tag on a window of at most
    [INT32_MAX] bytes, and not 0. *)
Definition element_within (data : ptr) (size : Z) (elem : BSONElement) : Prop :=
  exists off remaining,
    4 < off
    /\ 0 < remaining <= INT32_MAX
    /\ BSONElement.value elem = ptr_add data off
    /\ BSONElement.value_len elem
       = GetValueSize (BSONElement.type elem) (BSONElement.value elem) remaining
    /\ 0 < BSONElement.value_len elem
    /\ off + BSONElement.value_len elem <= size.

(** The names [TypeToString] gives to the four tags of a value without
    bytes. *)
Definition empty_valued_names : list string :=
  ["null"; "undefined"; "minkey"; "maxkey"]%string.

(** [blob] is the [n] bytes of [bson] from the offset [off] on. *)
Definition range_of (bson : list byte) (off n : Z) (blob : list byte) : Prop :=
  0 <= off /\ 0 <= n /\ off + n <= len bson
  /\ blob = string_t (ptr_add bson off) n /\ len blob = n.

(** The tags whose value has a size of its own, whatever the bytes of the
    value are, with that size: the branches of [GetValueSize] that return a
    constant other than 0. *)
Definition fixed_size (type : BSONType) : option Z :=
  match type with
  | x01 (* DOUBLE *) => Some 8
  | x07 (* OBJECT_ID *) => Some 12
  | x08 (* BOOLEAN *) => Some 1
  | x09 (* DATE_TIME *) => Some 8
  | x10 (* INT32 *) => Some 4
  | x11 (* TIMESTAMP *) => Some 8
  | x12 (* INT64 *) => Some 8
  | x13 (* DECIMAL128 *) => Some 16
  | _ => None
  end.

(** Two results of a lookup that a caller cannot tell apart: the same
    [bool] and, when it is [true], the same element. *)
Definition same_answer (a b : bool * BSONElement) : Prop :=
  fst a = fst b /\ (fst a = true -> snd a = snd b).

(** An element other than [no_element], for the content of a local that
    was not initialised. *)
Definition stale_element : BSONElement :=
  BSONElement.mk STRING [x41] 1 [x02; x00; x00; x00; x42; x00] 6.

(** The value of the first field of [fields] whose key is [key], if the
    fields in front of it and the field itself are ones the locator walks
    over: keys without NUL, values of at least one byte. *)
Fixpoint first_field (key : list byte) (fields : list (list byte * yyjson_val))
  : option yyjson_val :=
  match fields with
  | [] => None
  | (k, v) :: fields' =>
      if nul_free k && sized v then
        if list_eq_dec Byte.byte_eq_dec k key then Some v
        else first_field key fields'
      else None
  end.

(** The value a list of keys leads to in a tree: each key is looked up in
    the fields of the object the keys before it led to. *)
Fixpoint json_get (val : yyjson_val) (keys : list (list byte)) : option yyjson_val :=
  match keys with
  | [] => Some val
  | key :: keys' =>
      match val with
      | JObj fields =>
          match first_field key fields with
          | Some v => json_get v keys'
          | None => None
          end
      | _ => None
      end
  end.

(** The path segment of a key given by its bytes. *)
Definition key_segment (key : list byte) : PathSegment :=
  KeySegment (string_of_list_byte key).

(** [{"a": {"b": "x"}}]. *)
Definition nested_b : yyjson_val :=
  JObj [(bytes "a", JObj [(bytes "b", JStr (bytes "x"))])].

(** [{"tags": ["a", "b"]}]. *)
Definition tagged : yyjson_val :=
  JObj [(bytes "tags", JArr [JStr (bytes "a"); JStr (bytes "b")])].

(** The number of characters of a text, as an [idx_t]. *)
Definition slen (s : string) : Z := Z.of_nat (String.length s).

(** No character of [s] satisfies [p]. *)
Fixpoint no_char (p : ascii -> bool) (s : string) : bool :=
  match s with
  | EmptyString => true
  | String c s' => negb (p c) && no_char p s'
  end.

(** The characters that end a key without quotes. *)
Definition is_stop (c : ascii) : bool := Ascii.eqb c "." || Ascii.eqb c "[".

Definition is_dquote (c : ascii) : bool := Ascii.eqb c dquote.

(** A key that can be written without quotes: not empty, no quote in front,
    neither a dot nor an opening bracket in it. *)
Definition bare_key (key : string) : bool :=
  match key with
  | EmptyString => false
  | String c _ => negb (is_dquote c) && no_char is_stop key
  end.

(** A key that can be written between quotes: not empty, no quote in it. *)
Definition quotable_key (key : string) : bool :=
  match key with
  | EmptyString => false
  | String _ _ => no_char is_dquote key
  end.

(** The text of a segment: a dot and the key, between quotes when it cannot
    go without, or the index between brackets. *)
Definition segment_text (seg : PathSegment) : string :=
  match seg with
  | KeySegment key =>
      if bare_key key then String "." key
      else String "." (String dquote (key ++ String dquote EmptyString))
  | IndexSegment index => String "[" (to_string index ++ String "]" EmptyString)
  end.

(** The segments that have a text: a key that can be written with or
    without quotes, an index that is a [uint64_t]. *)
Definition printable (seg : PathSegment) : bool :=
  match seg with
  | KeySegment key => bare_key key || quotable_key key
  | IndexSegment index => (0 <=? index) && (index <=? UINT64_MAX)
  end.

Definition segments_text (segments : list PathSegment) : string :=
  fold_right (fun seg s => (segment_text seg ++ s)%string) EmptyString segments.

(** The text of a path: the dollar sign and the texts of the segments. *)
Definition path_text (segments : list PathSegment) : string :=
  String "$" (segments_text segments).

(** The value of a decimal numeral, most significant digit first. *)
Fixpoint uint_value (acc : Z) (d : Decimal.uint) : Z :=
  match d with
  | Decimal.Nil => acc
  | Decimal.D0 d => uint_value (10 * acc) d
  | Decimal.D1 d => uint_value (10 * acc + 1) d
  | Decimal.D2 d => uint_value (10 * acc + 2) d
  | Decimal.D3 d => uint_value (10 * acc + 3) d
  | Decimal.D4 d => uint_value (10 * acc + 4) d
  | Decimal.D5 d => uint_value (10 * acc + 5) d
  | Decimal.D6 d => uint_value (10 * acc + 6) d
  | Decimal.D7 d => uint_value (10 * acc + 7) d
  | Decimal.D8 d => uint_value (10 * acc + 8) d
  | Decimal.D9 d => uint_value (10 * acc + 9) d
  end.

(** A segment as [ParsePath] makes them: a key that is not empty, an index
    that is a [uint64_t]. *)
Definition well_formed (seg : PathSegment) : Prop :=
  match seg with
  | KeySegment key => key <> EmptyString
  | IndexSegment index => 0 <= index <= UINT64_MAX
  end.

(** [ParsePath] on the whole of a text, with an empty vector. *)
Definition parse (path : string) : result PathError (PathType * list PathSegment) :=
  ParsePath path (Z.of_nat (String.length path)) [].

(** The elements of a BSON array: the values under the decimal keys
    [start], [start + 1], ... *)
Fixpoint array_fields (start : nat) (vals : list yyjson_val)
  : list (list byte * yyjson_val) :=
  match vals with
  | [] => []
  | v :: vals' =>
      (bytes (to_string (Z.of_nat start)), v) :: array_fields (S start) vals'
  end.

(** A BSON array as a producer of BSON writes it: the document of its
    values under the keys [0], [1], ... *)
Definition bson_array (vals : list yyjson_val) : list byte :=
  frame (bson_elements (array_fields 0 vals)).

(** What [bson_extract_string] and [bson_extract] are to return for a value
    of the tree: the bytes of a string, the encoding of an object or of an
    array, NULL for any other value. *)
Definition string_of_value (val : yyjson_val) : row (list byte) :=
  match val with
  | JStr str => RowValue str
  | _ => RowNull
  end.

Definition document_of_value (val : yyjson_val) : row (list byte) :=
  if is_container (bson_tag val) then RowValue (bson_value val) else RowNull.

(** [{"user": {"name": "John", "tags": []}}]. *)
Definition user_john : yyjson_val :=
  JObj [(bytes "user",
         JObj [(bytes "name", JStr (bytes "John")); (bytes "tags", JArr [])])].

(** A number the encoder stores in 8 bytes whatever its value: an unsigned
    integer or a real. *)
Definition eight_bytes (val : yyjson_val) : bool :=
  match val with
  | JUint _ | JReal _ => true
  | _ => false
  end.

(** The element with the tag and the lengths of [elem], laid out at the
    offset [p] of [data]: the tag at [p], the key behind it, the value
    behind the NUL of the key. *)
Definition element_in (data : ptr) (p : Z) (elem : BSONElement) : BSONElement :=
  BSONElement.mk (BSONElement.type elem) (ptr_add data (p + 1))
    (BSONElement.key_len elem)
    (ptr_add data (p + 1 + BSONElement.key_len elem + 1))
    (BSONElement.value_len elem).

(** The offset behind the value of an element laid out at [p]. *)
Definition element_end (p : Z) (elem : BSONElement) : Z :=
  p + 1 + BSONElement.key_len elem + 1 + BSONElement.value_len elem.

(** The row lambda of [BSONExtractStringFunction] with the pointer and the
    size of the input apart: [data] is the memory at [input.GetData()],
    which goes on behind the [size = input.GetSize()] bytes of the input.
    [BSONExtractStringFunction bson] is [BSONExtractStringRow bson (len bson)]. *)
Definition BSONExtractStringRow (data : ptr) (size : Z) (path : string)
    (elem : BSONElement) : row (list byte) :=
  match ParsePath path (Z.of_nat (String.length path)) [] with
  | Raise e => RowThrow (what e)
  | Return (_, segments) =>
      let (found, elem) := TraversePath data size segments elem in
      if negb found then RowNull else
      if negb (Byte.eqb (BSONElement.type elem) STRING) then RowNull else
      let str_len := ReadInt32 (BSONElement.value elem) in
      if str_len <? 1 then RowNull else
      RowValue (string_t (ptr_add (BSONElement.value elem) 4) (str_len - 1))
  end.

(** Ten bytes with a declared length of 10: one field [k], a regular
    expression with the pattern [a] and, for its options, what is left of
    the document, which is the byte [last] at the offset 9. *)
Definition regex_document (last : byte) : list byte :=
  [x0a; x00; x00; x00; x0b; x6b; x00; x61; x00; last].

(** ** The round trip, as the specification words it *)

Definition INT64_MIN : Z := -9223372036854775808.
Definition INT64_MAX : Z := 9223372036854775807.

(** The element [elem], as the read path sees it, matches the node [val]
    of the tree: it has the tag the specification gives to the kind of the
    node (for an integer, signed or unsigned: [int32] if the number is in
    the signed 32-bit range, [int64] if not), and its value, decoded by the
    readers of the read path, is the value of the node.  The value of an
    object is decoded by looking up the key of each of its fields with
    [FindElement], the value of an array by looking up each index with
    [GetArrayElement]; what is found has to match the node of the field or
    of the item.  Written after the wording of the specification, not
    after the encoder. *)
Fixpoint node_matches (val : yyjson_val) (elem : BSONElement) {struct val} : Prop :=
  let type := BSONElement.type elem in
  let value := BSONElement.value elem in
  let value_len := BSONElement.value_len elem in
  match val with
  | JRaw _ => False
  | JNull => type = NULL_VALUE
  | JBool b => type = BOOLEAN /\ byte_at value 0 = (if b then x01 else x00)
  | JReal bits => type = DOUBLE /\ ReadDouble value = bits
  | JSint num | JUint num =>
      if in_int32 num
      then type = INT32 /\ ReadInt32 value = num
      else type = INT64 /\ ReadInt64 value = num
  | JStr str =>
      type = STRING
      /\ ReadInt32 value = len str + 1
      /\ string_t (ptr_add value 4) (ReadInt32 value - 1) = str
  | JArr elems =>
      type = ARRAY
      /\ (fix items (index : Z) (l : list yyjson_val) : Prop :=
            match l with
            | [] => True
            | v :: l' =>
                (forall result,
                    exists item,
                      GetArrayElement value value_len index result = (true, item)
                      /\ node_matches v item)
                /\ items (index + 1) l'
            end) 0 elems
  | JObj fields =>
      type = DOCUMENT
      /\ (fix members (l : list (list byte * yyjson_val)) : Prop :=
            match l with
            | [] => True
            | (key, v) :: l' =>
                (forall result,
                    exists member,
                      FindElement value value_len key (len key) result
                      = (true, member)
                      /\ node_matches v member)
                /\ members l'
            end) fields
  end.

(** The nodes the encoder and the read path carry through by design: a
    boolean, a real (a 64-bit pattern), a signed integer (an [int64_t]), an
    unsigned integer above the signed 32-bit range and within the signed
    64-bit one, a string, an array without items, and an object whose keys
    are without NUL and all different and whose values are such nodes.
    Left out are a null, an array with items and the other unsigned
    integers. *)
Fixpoint faithful (val : yyjson_val) : Prop :=
  match val with
  | JRaw _ | JNull => False
  | JBool _ | JStr _ => True
  | JReal bits => 0 <= bits <= UINT64_MAX
  | JSint num => INT64_MIN <= num <= INT64_MAX
  | JUint num => INT32_MAX < num <= INT64_MAX
  | JArr elems => elems = []
  | JObj fields =>
      NoDup (map fst fields)
      /\ (fix all (l : list (list byte * yyjson_val)) : Prop :=
            match l with
            | [] => True
            | (key, v) :: l' => nul_free key = true /\ faithful v /\ all l'
            end) fields
  end.

(** [{"a\u0000b": true}], whose key holds a NUL byte, and the 11 bytes of
    its document. *)
Definition nul_key : yyjson_val := JObj [([x61; x00; x62], JBool true)].
Definition nul_key_document : list byte :=
  [x0b; x00; x00; x00; x08; x61; x00; x62; x00; x01; x00].

(** [{"a": [1]}] and the 13 bytes of its document; [{"n": 5}] and
    [{"n": 18446744073709551615}], whose numbers yyjson reads as unsigned
    integers. *)
Definition array_field : yyjson_val := JObj [(bytes "a", JArr [JUint 1])].
Definition array_field_document : list byte :=
  [x0d; x00; x00; x00; x04; x61; x00; x05; x00; x00; x00; x00; x00].
Definition small_unsigned : yyjson_val := JObj [(bytes "n", JUint 5)].
Definition largest_unsigned : yyjson_val :=
  JObj [(bytes "n", JUint 18446744073709551615)].


(** * Bytes and little-endian integers *)

Lemma byte_val_range (b : byte) : 0 <= byte_val b < 256.
Proof.
  unfold byte_val. pose proof (Byte.to_N_bounded b). lia.
Qed.

Lemma byte_val_of_Z (z : Z) : byte_val (byte_of_Z z) = z mod 256.
Proof.
  unfold byte_val, byte_of_Z.
  pose proof (Z.mod_pos_bound z 256 ltac:(lia)) as Hr.
  destruct (Byte.of_N (Z.to_N (z mod 256))) as [b|] eqn:E.
  - apply Byte.to_of_N in E. rewrite E. lia.
  - apply Byte.of_N_None_iff in E. lia.
Qed.

Lemma byte_val_inj (a b : byte) : byte_val a = byte_val b -> a = b.
Proof.
  unfold byte_val. intros H.
  assert (Byte.to_N a = Byte.to_N b) as E by lia.
  pose proof (Byte.of_to_N a) as Ha. rewrite E, Byte.of_to_N in Ha.
  congruence.
Qed.

Lemma byte_of_Z_nonzero (z : Z) : z mod 256 <> 0 -> byte_of_Z z <> x00.
Proof.
  intros H E. apply H. rewrite <- byte_val_of_Z, E. reflexivity.
Qed.

Lemma len_app {A} (l1 l2 : list A) : len (l1 ++ l2) = len l1 + len l2.
Proof. unfold len. rewrite length_app. lia. Qed.

Lemma len_cons {A} (a : A) (l : list A) : len (a :: l) = 1 + len l.
Proof. unfold len. simpl List.length. lia. Qed.

Lemma len_nil {A} : len (@nil A) = 0.
Proof. reflexivity. Qed.

Lemma len_nonneg {A} (l : list A) : 0 <= len l.
Proof. unfold len. lia. Qed.

Lemma length_le_bytes (n : nat) (z : Z) : List.length (le_bytes n z) = n.
Proof. revert z. induction n; intros; simpl; auto. Qed.

Lemma len_le_bytes (n : nat) (z : Z) : len (le_bytes n z) = Z.of_nat n.
Proof. unfold len. now rewrite length_le_bytes. Qed.

Lemma le_unsigned_le_bytes (n : nat) (z : Z) (rest : list byte) :
  le_unsigned n (le_bytes n z ++ rest) = z mod 256 ^ Z.of_nat n.
Proof.
  revert z. induction n as [|n IH]; intros z.
  - simpl. now rewrite Z.mod_1_r.
  - cbn [le_bytes le_unsigned app hd tl]. rewrite IH, byte_val_of_Z.
    replace (Z.of_nat (S n)) with (1 + Z.of_nat n) by lia.
    rewrite Z.pow_add_r, Z.pow_1_r by lia.
    assert (0 < 256 ^ Z.of_nat n) by (apply Z.pow_pos_nonneg; lia).
    rewrite (Z.rem_mul_r z 256 (256 ^ Z.of_nat n)) by lia. reflexivity.
Qed.

Lemma to_int32_id (z : Z) : INT32_MIN <= z <= INT32_MAX -> to_int32 z = z.
Proof.
  unfold to_int32, INT32_MIN, INT32_MAX. intros H.
  rewrite Z.mod_small; lia.
Qed.

Lemma to_int32_mod (z : Z) : to_int32 (z mod 4294967296) = to_int32 z.
Proof.
  unfold to_int32. f_equal.
  rewrite Zplus_mod_idemp_l. reflexivity.
Qed.

Lemma to_int64_mod (z : Z) : to_int64 (z mod 18446744073709551616) = to_int64 z.
Proof.
  unfold to_int64. f_equal.
  rewrite Zplus_mod_idemp_l. reflexivity.
Qed.

Lemma to_int64_idem (z : Z) : to_int64 (to_int64 z) = to_int64 z.
Proof.
  unfold to_int64.
  pose proof (Z.mod_pos_bound (z + 9223372036854775808) 18446744073709551616 ltac:(lia)).
  replace ((z + 9223372036854775808) mod 18446744073709551616 - 9223372036854775808 + 9223372036854775808)
    with ((z + 9223372036854775808) mod 18446744073709551616) by lia.
  rewrite Z.mod_mod by lia. reflexivity.
Qed.

Lemma ReadInt32_le_bytes (z : Z) (rest : list byte) :
  ReadInt32 (le_bytes 4 z ++ rest) = to_int32 z.
Proof.
  unfold ReadInt32. rewrite le_unsigned_le_bytes.
  change (256 ^ Z.of_nat 4) with 4294967296. apply to_int32_mod.
Qed.

Lemma ReadInt64_le_bytes (z : Z) (rest : list byte) :
  ReadInt64 (le_bytes 8 z ++ rest) = to_int64 z.
Proof.
  unfold ReadInt64. rewrite le_unsigned_le_bytes.
  change (256 ^ Z.of_nat 8) with 18446744073709551616. apply to_int64_mod.
Qed.

Lemma ReadDouble_le_bytes (z : Z) (rest : list byte) :
  ReadDouble (le_bytes 8 z ++ rest) = to_idx z.
Proof.
  unfold ReadDouble, to_idx. now rewrite le_unsigned_le_bytes.
Qed.

(** * Pointers into a buffer *)

Lemma ptr_add_app (pre rest : list byte) :
  ptr_add (pre ++ rest) (len pre) = rest.
Proof.
  unfold ptr_add, len. rewrite Nat2Z.id.
  rewrite skipn_app, skipn_all, Nat.sub_diag. reflexivity.
Qed.

Lemma byte_at_app (pre rest : list byte) (i : Z) :
  0 <= i -> byte_at (pre ++ rest) (len pre + i) = byte_at rest i.
Proof.
  intros Hi. unfold byte_at, len.
  rewrite Z2Nat.inj_add, Nat2Z.id by lia.
  rewrite app_nth2 by lia. f_equal. lia.
Qed.

Lemma byte_at_here (pre : list byte) (b : byte) (rest : list byte) :
  byte_at (pre ++ b :: rest) (len pre) = b.
Proof.
  replace (len pre) with (len pre + 0) by lia.
  rewrite byte_at_app by lia. reflexivity.
Qed.

Lemma string_t_app (bytes rest : list byte) :
  string_t (bytes ++ rest) (len bytes) = bytes.
Proof.
  unfold string_t, len. rewrite Nat2Z.id.
  rewrite firstn_app, firstn_all, Nat.sub_diag. simpl. apply app_nil_r.
Qed.

(** Lengths of concatenations, pushed down to the leaves. *)
Ltac norm_len :=
  repeat (rewrite len_app || rewrite len_cons || rewrite len_le_bytes);
  change (len (@nil byte)) with 0.

Ltac norm_len_in H :=
  repeat (rewrite len_app in H || rewrite len_cons in H || rewrite len_le_bytes in H);
  change (len (@nil byte)) with 0 in H.

(** * The cstring loop *)

Lemma skip_cstring_from_ge (fuel : nat) (data : ptr) (limit pos : Z) :
  pos <= skip_cstring_from fuel data limit pos.
Proof.
  revert pos. induction fuel as [|fuel IH]; intros pos; simpl; [lia|].
  destruct ((pos <? limit) && negb (Byte.eqb (byte_at data pos) x00)); [|lia].
  specialize (IH (pos + 1)). lia.
Qed.

Lemma skip_cstring_ge (data : ptr) (limit pos : Z) :
  pos <= skip_cstring data limit pos.
Proof. apply skip_cstring_from_ge. Qed.

Lemma nul_free_cons (b : byte) (key : list byte) :
  nul_free (b :: key) = true <-> b <> x00 /\ nul_free key = true.
Proof.
  unfold nul_free. simpl. rewrite andb_true_iff, negb_true_iff. split.
  - intros [H1 H2]. split; [|exact H2]. now apply Byte.eqb_false.
  - intros [H1 H2]. split; [|exact H2].
    destruct (Byte.eqb b x00) eqn:E; [|reflexivity].
    apply Byte.byte_dec_bl in E. contradiction.
Qed.

Lemma skip_cstring_from_key (key pre rest : list byte) (limit : Z) (fuel : nat) :
  nul_free key = true ->
  len pre + len key < limit ->
  (List.length key < fuel)%nat ->
  skip_cstring_from fuel (pre ++ key ++ x00 :: rest) limit (len pre)
  = len pre + len key.
Proof.
  revert pre fuel. induction key as [|b key IH]; intros pre fuel Hnul Hlim Hfuel.
  - destruct fuel as [|fuel]; [simpl in Hfuel; lia|].
    simpl. rewrite byte_at_here. simpl.
    rewrite andb_false_r. change (len (@nil byte)) with 0. lia.
  - destruct fuel as [|fuel]; [simpl in Hfuel; lia|].
    apply nul_free_cons in Hnul. destruct Hnul as [Hb Hnul].
    rewrite len_cons in *.
    cbn [skip_cstring_from].
    change (pre ++ (b :: key) ++ x00 :: rest) with (pre ++ b :: (key ++ x00 :: rest)).
    rewrite byte_at_here.
    assert (Byte.eqb b x00 = false) as Eb.
    { destruct (Byte.eqb b x00) eqn:E; [|reflexivity].
      apply Byte.byte_dec_bl in E. contradiction. }
    rewrite Eb. simpl negb. rewrite andb_true_r.
    assert ((len pre <? limit) = true) as El by (apply Z.ltb_lt; pose proof (len_nonneg key); lia).
    rewrite El.
    replace (pre ++ b :: key ++ x00 :: rest) with ((pre ++ [b]) ++ key ++ x00 :: rest)
      by (rewrite <- app_assoc; reflexivity).
    replace (len pre + 1) with (len (pre ++ [b])) by (norm_len; lia).
    rewrite IH; try assumption.
    + norm_len. lia.
    + norm_len. lia.
    + simpl in Hfuel. lia.
Qed.

Lemma skip_cstring_key (key pre rest : list byte) (limit : Z) :
  nul_free key = true ->
  len pre + len key < limit ->
  skip_cstring (pre ++ key ++ x00 :: rest) limit (len pre) = len pre + len key.
Proof.
  intros Hnul Hlim. unfold skip_cstring.
  apply skip_cstring_from_key; try assumption.
  unfold len in *. lia.
Qed.

(** * [memcmp] *)

Lemma memcmp_eq_refl (a rest : list byte) :
  memcmp_eq (a ++ rest) a (List.length a) = true.
Proof.
  induction a as [|x a IH]; simpl; [reflexivity|].
  rewrite IH, andb_true_r. now apply Byte.byte_dec_lb.
Qed.

Lemma memcmp_eq_true (a b rest : list byte) :
  List.length a = List.length b ->
  memcmp_eq (a ++ rest) b (List.length b) = true -> a = b.
Proof.
  revert b. induction a as [|x a IH]; intros [|y b] Hlen H; simpl in *;
    try reflexivity; try discriminate.
  apply andb_true_iff in H. destruct H as [H1 H2].
  apply Byte.byte_dec_bl in H1. subst y. f_equal. apply IH; [lia|assumption].
Qed.

(** * [GetValueSize] never returns a negative size *)

Lemma to_int32_range (z : Z) : INT32_MIN <= to_int32 z <= INT32_MAX.
Proof.
  unfold to_int32, INT32_MIN, INT32_MAX.
  pose proof (Z.mod_pos_bound (z + 2147483648) 4294967296 ltac:(lia)). lia.
Qed.

(** For a window of at most [INT32_MAX] bytes no operation of the size
    table wraps around: the table is the one written with plain integers. *)
Lemma GetValueSize_in_range (type : BSONType) (value : ptr) (remaining : Z) :
  remaining <= INT32_MAX ->
  GetValueSize type value remaining
  = if remaining <? 1 then 0 else
    match type with
    | x01 => 8
    | x02 | x0d | x0e =>
        if remaining <? 4 then 0 else
        if (ReadInt32 value <? 1) || (remaining - 4 <? ReadInt32 value) then 0
        else 4 + ReadInt32 value
    | x03 | x04 =>
        if remaining <? 4 then 0 else
        if (ReadInt32 value <? 5) || (remaining <? ReadInt32 value) then 0
        else ReadInt32 value
    | x05 =>
        if remaining <? 5 then 0 else
        if (ReadInt32 value <? 0) || (remaining - 5 <? ReadInt32 value) then 0
        else 5 + ReadInt32 value
    | x07 => 12
    | x08 => 1
    | x09 => 8
    | x0b =>
        let pos := skip_cstring value remaining 0 in
        if remaining <=? pos then 0 else
        let pos := skip_cstring value remaining (pos + 1) in
        if remaining <=? pos then 0 else pos + 1
    | x0c =>
        if remaining <? 4 then 0 else
        if (ReadInt32 value <? 1) || (remaining - 16 <? ReadInt32 value) then 0
        else 4 + ReadInt32 value + 12
    | x0f =>
        if remaining <? 4 then 0 else
        if (ReadInt32 value <? 14) || (remaining <? ReadInt32 value) then 0
        else ReadInt32 value
    | x10 => 4
    | x11 => 8
    | x12 => 8
    | x13 => 16
    | _ => 0
    end.
Proof.
  intros Hmax. unfold GetValueSize. cbv zeta.
  destruct (Z.ltb_spec remaining 1) as [|H1]; [reflexivity|].
  assert (to_int32 remaining = remaining) as ->
    by (apply to_int32_id; unfold INT32_MIN, INT32_MAX in *; lia).
  assert (forall k, 0 <= k <= 16 -> to_int32 (remaining - k) = remaining - k) as Hsub
    by (intros k Hk; apply to_int32_id; unfold INT32_MIN, INT32_MAX in *; lia).
  rewrite !Hsub by lia.
  assert (forall z, 0 <= z <= INT32_MAX -> to_idx (to_int32 z) = z) as Hback.
  { intros z Hz. rewrite to_int32_id by (unfold INT32_MIN, INT32_MAX in *; lia).
    unfold to_idx. apply Z.mod_small. unfold INT32_MAX in *. lia. }
  assert (forall z, 0 <= z <= INT32_MAX -> to_idx z = z) as Hidx
    by (intros z Hz; unfold to_idx; apply Z.mod_small; unfold INT32_MAX in *; lia).
  set (n := ReadInt32 value).
  destruct type; try reflexivity;
    repeat match goal with
    | |- (if ?a <? ?b then _ else _) = _ =>
        destruct (Z.ltb_spec a b); [reflexivity|]
    end;
    match goal with
    | |- (if (?a <? ?b) || (?c <? ?d) then _ else _) = _ =>
        destruct (Z.ltb_spec a b); [reflexivity|];
        destruct (Z.ltb_spec c d); [reflexivity|]; cbn [orb]
    end;
    try (rewrite Hback by lia; reflexivity);
    try (rewrite Hidx by lia; reflexivity).
  rewrite (to_int32_id (4 + n)) by (unfold INT32_MIN, INT32_MAX in *; lia).
  rewrite Hback by lia. reflexivity.
Qed.

Lemma GetValueSize_nonneg (type : BSONType) (value : ptr) (remaining : Z) :
  0 <= GetValueSize type value remaining.
Proof.
  unfold GetValueSize.
  destruct (remaining <? 1); [lia|].
  pose proof (skip_cstring_ge value remaining 0) as H0.
  pose proof (skip_cstring_ge value remaining (skip_cstring value remaining 0 + 1)) as H1.
  assert (forall z, 0 <= to_idx z) as Hidx
    by (intros z; unfold to_idx; apply Z.mod_pos_bound; lia).
  cbv zeta.
  destruct type; try lia;
    repeat match goal with
    | |- context [if ?c then _ else _] => destruct c eqn:?
    end; try lia; try apply Hidx;
    repeat match goal with
    | H : (_ <=? _) = false |- _ => apply Z.leb_gt in H
    end; lia.
Qed.

(** * The loops return: the fuel they are given is never exhausted *)

Lemma validate_elements_total (fuel : nat) (data : ptr) (size doc_len pos : Z) :
  Z.max 0 (doc_len - 1 - pos) < Z.of_nat fuel ->
  exists b, validate_elements fuel data size doc_len pos = Some b.
Proof.
  revert pos. induction fuel as [|fuel IH]; intros pos Hfuel.
  - lia.
  - cbn [validate_elements].
    destruct (pos <? doc_len - 1) eqn:E1; [|eauto].
    destruct (size <=? pos); [eauto|].
    set (p := skip_cstring data doc_len (pos + 1)).
    destruct (doc_len <=? p); [eauto|].
    set (vs := GetValueSize (byte_at data pos) (ptr_add data (p + 1)) (doc_len - (p + 1))).
    destruct (vs =? 0) eqn:E2; [simpl; eauto|].
    destruct (doc_len - (p + 1) <? vs); [simpl; eauto|]. simpl.
    apply IH.
    pose proof (skip_cstring_ge data doc_len (pos + 1)). fold p in H.
    pose proof (GetValueSize_nonneg (byte_at data pos) (ptr_add data (p + 1)) (doc_len - (p + 1))).
    fold vs in H0. apply Z.eqb_neq in E2. apply Z.ltb_lt in E1. lia.
Qed.

Lemma find_elements_total (fuel : nat) (doc_data : ptr) (doc_len pos : Z)
    (key : ptr) (key_len : Z) (result : BSONElement) :
  Z.max 0 (doc_len - 1 - pos) < Z.of_nat fuel ->
  exists r, find_elements fuel doc_data doc_len pos key key_len result = Some r.
Proof.
  revert pos result. induction fuel as [|fuel IH]; intros pos result Hfuel.
  - lia.
  - cbn [find_elements].
    destruct (pos <? doc_len - 1) eqn:E1; [|eauto].
    set (p := skip_cstring doc_data doc_len (pos + 1)).
    destruct (doc_len <=? p); [eauto|].
    cbn [BSONElement.set_type BSONElement.set_key BSONElement.set_key_len
         BSONElement.set_value BSONElement.set_value_len BSONElement.type
         BSONElement.key BSONElement.key_len BSONElement.value
         BSONElement.value_len].
    set (vs := GetValueSize (byte_at doc_data pos) (ptr_add doc_data (p + 1)) (doc_len - (p + 1))).
    destruct (vs =? 0) eqn:E2; [simpl; eauto|].
    destruct (doc_len - (p + 1) <? vs); [simpl; eauto|]. simpl.
    match goal with |- context [if ?c then _ else _] => destruct c end; [eauto|].
    apply IH.
    pose proof (skip_cstring_ge doc_data doc_len (pos + 1)). fold p in H.
    pose proof (GetValueSize_nonneg (byte_at doc_data pos) (ptr_add doc_data (p + 1)) (doc_len - (p + 1))).
    fold vs in H0. apply Z.eqb_neq in E2. apply Z.ltb_lt in E1. lia.
Qed.

Lemma scan_key_ge (fuel : nat) (path : string) (len : Z) (quoted : bool) (pos : Z) :
  pos <= scan_key fuel path len quoted pos.
Proof.
  revert pos. induction fuel as [|fuel IH]; intros pos; simpl; [lia|].
  specialize (IH (pos + 1)).
  repeat match goal with |- context [if ?c then _ else _] => destruct c end; lia.
Qed.

Lemma scan_digits_ge (fuel : nat) (path : string) (len pos : Z) :
  pos <= scan_digits fuel path len pos.
Proof.
  revert pos. induction fuel as [|fuel IH]; intros pos; simpl; [lia|].
  specialize (IH (pos + 1)).
  repeat match goal with |- context [if ?c then _ else _] => destruct c end; lia.
Qed.

Lemma parse_steps_total (fuel : nat) (path : string) (len pos : Z)
    (segments : list PathSegment) :
  Z.max 0 (len - pos) < Z.of_nat fuel ->
  exists r, parse_steps fuel path len pos segments = Some r.
Proof.
  revert pos segments. induction fuel as [|fuel IH]; intros pos segments Hfuel.
  - lia.
  - cbn [parse_steps].
    destruct (pos <? len) eqn:E1; [|eauto].
    destruct (Ascii.eqb (char_at path pos) "."); [|destruct (Ascii.eqb (char_at path pos) "[")].
    + destruct (len <=? pos + 1); [eauto|].
      set (q := Ascii.eqb (char_at path (pos + 1)) dquote).
      set (start := if q then pos + 1 + 1 else pos + 1).
      set (p := scan_key (Z.to_nat (len - start)) path len q start).
      pose proof (scan_key_ge (Z.to_nat (len - start)) path len q start) as Hp. fold p in Hp.
      destruct (p =? start); [eauto|].
      assert (pos + 1 <= start) by (unfold start; destruct q; lia).
      destruct q.
      * match goal with |- context [if ?c then _ else _] => destruct c end; [eauto|].
        apply IH. apply Z.ltb_lt in E1. lia.
      * apply IH. apply Z.ltb_lt in E1. lia.
    + destruct (len <=? pos + 1); [eauto|].
      set (p := scan_digits (Z.to_nat (len - (pos + 1))) path len (pos + 1)).
      pose proof (scan_digits_ge (Z.to_nat (len - (pos + 1))) path len (pos + 1)) as Hp. fold p in Hp.
      match goal with |- context [if ?c then _ else _] => destruct c end; [eauto|].
      destruct (stoull _); [|eauto].
      apply IH. apply Z.ltb_lt in E1. lia.
    + eauto.
Qed.

(** The loops of [ValidateDocument], [FindElement] and [ParsePath] return
    with the fuel these functions give them. *)
Lemma ValidateDocument_loop_returns (data : ptr) (size : Z) :
  5 <= ReadInt32 data ->
  exists b,
    validate_elements (Z.to_nat (ReadInt32 data)) data size (ReadInt32 data) 4
    = Some b.
Proof. intros H. apply validate_elements_total. lia. Qed.

Lemma FindElement_loop_returns (doc_data : ptr) (key : ptr) (key_len : Z)
    (result : BSONElement) :
  5 <= ReadInt32 doc_data ->
  exists r,
    find_elements (Z.to_nat (ReadInt32 doc_data)) doc_data (ReadInt32 doc_data) 4
      key key_len result = Some r.
Proof. intros H. apply find_elements_total. lia. Qed.

Lemma ParsePath_loop_returns (path : string) (len : Z)
    (segments : list PathSegment) :
  exists r, parse_steps (S (Z.to_nat len)) path len 1 segments = Some r.
Proof. apply parse_steps_total. lia. Qed.

(** What [ValidateDocument] has checked when it returns [true]. *)
Lemma ValidateDocument_returns (data : ptr) (size : Z) :
  ValidateDocument data size = true ->
  5 <= ReadInt32 data <= size /\ byte_at data (ReadInt32 data - 1) = x00
  /\ validate_elements (Z.to_nat (ReadInt32 data)) data size (ReadInt32 data) 4
     = Some true.
Proof.
  unfold ValidateDocument.
  destruct (size <? 5); [discriminate|].
  destruct ((ReadInt32 data <? 5) || (size <? ReadInt32 data)) eqn:E; [discriminate|].
  apply orb_false_iff in E. destruct E as [E1 E2].
  apply Z.ltb_ge in E1, E2.
  destruct (Byte.eqb (byte_at data (ReadInt32 data - 1)) x00) eqn:E3; [|discriminate].
  simpl. apply Byte.byte_dec_bl in E3.
  destruct (validate_elements _ _ _ _ _) as [[|]|]; try discriminate.
  intros _. repeat split; auto; lia.
Qed.

(** * The closed form of the encoding *)

Lemma bson_value_obj (fields : list (list byte * yyjson_val)) :
  bson_value (JObj fields) = frame (bson_elements fields).
Proof.
  cbn [bson_value]. f_equal.
  induction fields as [|[key v] fields IH]; [reflexivity|].
  rewrite IH. unfold bson_elements. cbn [flat_map].
  unfold bson_element at 2. cbn [fst snd]. now rewrite <- app_assoc.
Qed.

Lemma bson_elements_cons (key : list byte) (val : yyjson_val)
    (fields : list (list byte * yyjson_val)) :
  bson_elements ((key, val) :: fields)
  = (bson_tag val :: key ++ [x00]) ++ bson_value val ++ bson_elements fields.
Proof.
  unfold bson_elements. cbn [flat_map]. unfold bson_element at 1.
  cbn [fst snd]. now rewrite <- app_assoc.
Qed.

Lemma bson_elements_app (l1 l2 : list (list byte * yyjson_val)) :
  bson_elements (l1 ++ l2) = bson_elements l1 ++ bson_elements l2.
Proof. unfold bson_elements. apply flat_map_app. Qed.

Lemma len_frame (body : list byte) : len (frame body) = 4 + len body + 1.
Proof.
  unfold frame. norm_len. lia.
Qed.

Lemma ReadInt32_frame (body rest : list byte) :
  4 + len body + 1 <= INT32_MAX ->
  ReadInt32 (frame body ++ rest) = 4 + len body + 1.
Proof.
  intros H. unfold frame. rewrite <- app_assoc, ReadInt32_le_bytes.
  apply to_int32_id. pose proof (len_nonneg body). unfold INT32_MIN. lia.
Qed.

Lemma in_int32_spec (num : Z) :
  in_int32 num = true <-> INT32_MIN <= num <= INT32_MAX.
Proof.
  unfold in_int32. rewrite andb_true_iff, !Z.leb_le. tauto.
Qed.

Lemma len_bson_value_pos (val : yyjson_val) :
  sized val = true -> 0 < len (bson_value val).
Proof.
  destruct val; intros H; try discriminate.
  - reflexivity.
  - reflexivity.
  - cbn [bson_value]. destruct (in_int32 num); reflexivity.
  - reflexivity.
  - cbn [bson_value]. unfold WriteBSONString.
    norm_len. pose proof (len_nonneg str). lia.
  - cbn [bson_value]. rewrite len_frame. norm_len. lia.
  - rewrite bson_value_obj, len_frame.
    pose proof (len_nonneg (bson_elements fields)). lia.
Qed.

(** The size table gives an encoded value its length. *)
Lemma GetValueSize_bson_value (val : yyjson_val) (rest : list byte) (remaining : Z) :
  sized val = true ->
  len (bson_value val) <= remaining <= INT32_MAX ->
  GetValueSize (bson_tag val) (bson_value val ++ rest) remaining
  = len (bson_value val).
Proof.
  intros Hs Hr. pose proof (len_bson_value_pos val Hs) as Hpos.
  rewrite GetValueSize_in_range by lia.
  assert ((remaining <? 1) = false) as -> by (apply Z.ltb_ge; lia).
  destruct val; try discriminate.
  - reflexivity.
  - reflexivity.
  - cbn [bson_tag bson_value]. destruct (in_int32 num); reflexivity.
  - reflexivity.
  - cbn [bson_tag bson_value] in *. unfold STRING.
    unfold WriteBSONString in *.
    norm_len_in Hr. norm_len.
    rewrite <- app_assoc, ReadInt32_le_bytes.
    pose proof (len_nonneg str).
    assert (to_int32 (len str + 1) = len str + 1) as E1
      by (apply to_int32_id; unfold INT32_MIN, INT32_MAX in *; lia).
    rewrite !E1.
    assert ((remaining <? 4) = false) as -> by (apply Z.ltb_ge; lia).
    assert ((len str + 1 <? 1) = false) as -> by (apply Z.ltb_ge; lia).
    assert ((remaining - 4 <? len str + 1) = false) as -> by (apply Z.ltb_ge; lia).
    simpl. lia.
  - cbn [bson_tag bson_value] in *. unfold ARRAY.
    rewrite len_frame in *. norm_len_in Hr. norm_len.
    rewrite ReadInt32_frame by (norm_len; unfold INT32_MAX; lia).
    norm_len.
    assert ((remaining <? 4) = false) as -> by (apply Z.ltb_ge; lia).
    assert ((remaining <? 4 + 0 + 1) = false) as -> by (apply Z.ltb_ge; lia).
    reflexivity.
  - rewrite bson_value_obj in *. cbn [bson_tag]. unfold DOCUMENT.
    rewrite len_frame in *.
    pose proof (len_nonneg (bson_elements fields)).
    rewrite ReadInt32_frame by lia.
    assert ((remaining <? 4) = false) as -> by (apply Z.ltb_ge; lia).
    assert ((4 + len (bson_elements fields) + 1 <? 5) = false) as -> by (apply Z.ltb_ge; lia).
    assert ((remaining <? 4 + len (bson_elements fields) + 1) = false) as -> by (apply Z.ltb_ge; lia).
    reflexivity.
Qed.

(** A [null] (or raw) value has no byte, and the size table gives its tag
    the size 0. *)
Lemma GetValueSize_null (value : ptr) (remaining : Z) :
  GetValueSize NULL_VALUE value remaining = 0.
Proof. unfold GetValueSize. destruct (remaining <? 1); reflexivity. Qed.

(** * The scan of the read path over encoded elements *)

(** Where the parts of an element lie in a buffer. *)
Lemma element_layout (pre key value rest : list byte) (tag : byte) (doc_len : Z) :
  nul_free key = true ->
  len pre + 1 + len key < doc_len ->
  let data := pre ++ (tag :: key ++ [x00]) ++ value ++ rest in
  byte_at data (len pre) = tag
  /\ skip_cstring data doc_len (len pre + 1) = len pre + 1 + len key
  /\ ptr_add data (len pre + 1) = key ++ x00 :: value ++ rest
  /\ ptr_add data (len pre + 1 + len key + 1) = value ++ rest.
Proof.
  intros Hnul Hlen data. subst data. repeat split.
  - cbn [app]. apply byte_at_here.
  - replace (pre ++ (tag :: key ++ [x00]) ++ value ++ rest)
      with ((pre ++ [tag]) ++ key ++ x00 :: value ++ rest)
      by (cbn [app]; rewrite <- !app_assoc; reflexivity).
    replace (len pre + 1) with (len (pre ++ [tag])) by (norm_len; lia).
    rewrite skip_cstring_key; [norm_len; lia|assumption|norm_len; lia].
  - replace (pre ++ (tag :: key ++ [x00]) ++ value ++ rest)
      with ((pre ++ [tag]) ++ key ++ x00 :: value ++ rest)
      by (cbn [app]; rewrite <- !app_assoc; reflexivity).
    replace (len pre + 1) with (len (pre ++ [tag])) by (norm_len; lia).
    apply ptr_add_app.
  - rewrite app_assoc.
    replace (len pre + 1 + len key + 1) with (len (pre ++ tag :: key ++ [x00]))
      by (norm_len; lia).
    apply ptr_add_app.
Qed.

Lemma walkable_cons (key : list byte) (val : yyjson_val)
    (fields : list (list byte * yyjson_val)) :
  walkable ((key, val) :: fields) = true
  <-> nul_free key = true /\ sized val = true /\ walkable fields = true.
Proof.
  unfold walkable. cbn [forallb fst snd]. rewrite !andb_true_iff. tauto.
Qed.

Lemma walkable_app (l1 l2 : list (list byte * yyjson_val)) :
  walkable (l1 ++ l2) = true <-> walkable l1 = true /\ walkable l2 = true.
Proof. unfold walkable. rewrite forallb_app, andb_true_iff. tauto. Qed.

Ltac element_step pre key val rest doc_len Hnul :=
  let Etag := fresh "Etag" in
  let Eskip := fresh "Eskip" in
  let Ekey := fresh "Ekey" in
  let Eval := fresh "Eval" in
  destruct (element_layout pre key (bson_value val) rest (bson_tag val) doc_len Hnul
              ltac:(lia)) as (Etag & Eskip & Ekey & Eval);
  rewrite ?Etag, ?Eskip, ?Ekey;
  cbn [BSONElement.set_type BSONElement.set_key BSONElement.set_key_len
       BSONElement.set_value BSONElement.set_value_len BSONElement.type
       BSONElement.key BSONElement.key_len BSONElement.value
       BSONElement.value_len];
  rewrite ?Eval.

(** The validator walks over walkable elements that end before [doc_len]. *)
Lemma validate_elements_skip (before : list (list byte * yyjson_val)) :
  forall (pre rest : list byte) (size doc_len : Z) (fuel : nat),
  walkable before = true ->
  len pre + len (bson_elements before) < doc_len ->
  doc_len <= INT32_MAX ->
  doc_len <= size ->
  validate_elements (List.length before + fuel)
    (pre ++ bson_elements before ++ rest) size doc_len (len pre)
  = validate_elements fuel
      (pre ++ bson_elements before ++ rest) size doc_len
      (len pre + len (bson_elements before)).
Proof.
  induction before as [|[key val] before IH];
    intros pre rest size doc_len fuel Hw Hlen Hmax Hsize.
  - change (bson_elements []) with (@nil byte). norm_len.
    cbn [List.length Nat.add]. f_equal. lia.
  - apply walkable_cons in Hw. destruct Hw as (Hnul & Hsized & Hw).
    pose proof (len_bson_value_pos val Hsized) as Hvpos.
    pose proof (len_nonneg key) as Hk.
    pose proof (len_nonneg pre) as Hp.
    pose proof (len_nonneg (bson_elements before)) as Hf.
    rewrite bson_elements_cons in *.
    assert (len ((bson_tag val :: key ++ [x00]) ++ bson_value val ++ bson_elements before)
            = 1 + len key + 1 + len (bson_value val) + len (bson_elements before)) as Elen
      by (norm_len; lia).
    rewrite Elen in *.
    rewrite <- !app_assoc.
    set (data := pre ++ (bson_tag val :: key ++ [x00]) ++ bson_value val ++ bson_elements before ++ rest).
    cbn [List.length Nat.add validate_elements].
    assert ((len pre <? doc_len - 1) = true) as -> by (apply Z.ltb_lt; lia).
    assert ((size <=? len pre) = false) as -> by (apply Z.leb_gt; lia).
    subst data.
    element_step pre key val (bson_elements before ++ rest) doc_len Hnul.
    assert ((doc_len <=? len pre + 1 + len key) = false) as -> by (apply Z.leb_gt; lia).
    rewrite GetValueSize_bson_value by (try assumption; lia).
    assert ((len (bson_value val) =? 0) = false) as -> by (apply Z.eqb_neq; lia).
    assert ((doc_len - (len pre + 1 + len key + 1) <? len (bson_value val)) = false) as ->
      by (apply Z.ltb_ge; lia).
    cbn [orb].
    replace (pre ++ (bson_tag val :: key ++ [x00]) ++ bson_value val ++ bson_elements before ++ rest)
      with ((pre ++ (bson_tag val :: key ++ [x00]) ++ bson_value val) ++ bson_elements before ++ rest)
      by (rewrite <- !app_assoc; reflexivity).
    set (pre' := pre ++ (bson_tag val :: key ++ [x00]) ++ bson_value val).
    assert (len pre' = len pre + 1 + len key + 1 + len (bson_value val)) as Epre'
      by (subst pre'; norm_len; lia).
    replace (len pre + 1 + len key + 1 + len (bson_value val)) with (len pre') by lia.
    replace (len pre + (1 + len key + 1 + len (bson_value val) + len (bson_elements before)))
      with (len pre' + len (bson_elements before)) by lia.
    apply IH; try assumption; lia.
Qed.

(** An encoded document of walkable fields passes the element loop. *)
Lemma validate_elements_encoded (fields : list (list byte * yyjson_val))
    (pre tail : list byte) (size : Z) (fuel : nat) :
  walkable fields = true ->
  len pre + len (bson_elements fields) + 1 <= INT32_MAX ->
  len pre + len (bson_elements fields) + 1 <= size ->
  (List.length fields < fuel)%nat ->
  validate_elements fuel (pre ++ bson_elements fields ++ x00 :: tail) size
    (len pre + len (bson_elements fields) + 1) (len pre) = Some true.
Proof.
  intros Hw Hmax Hsize Hfuel.
  replace fuel with (List.length fields + (fuel - List.length fields))%nat by lia.
  rewrite validate_elements_skip by (try assumption; lia).
  destruct (fuel - List.length fields)%nat as [|fuel'] eqn:E; [lia|].
  cbn [validate_elements].
  set (pos := len pre + len (bson_elements fields)).
  assert ((pos <? pos + 1 - 1) = false) as -> by (apply Z.ltb_ge; lia).
  f_equal. apply Z.eqb_eq. lia.
Qed.

Lemma empty_valued_cases (tag : BSONType) :
  empty_valued tag = true ->
  tag = NULL_VALUE \/ tag = UNDEFINED \/ tag = MIN_KEY \/ tag = MAX_KEY.
Proof.
  unfold empty_valued. rewrite !orb_true_iff.
  intros [[[H|H]|H]|H]; apply Byte.byte_dec_bl in H; tauto.
Qed.

Lemma GetValueSize_empty_valued (tag : BSONType) (value : ptr) (remaining : Z) :
  empty_valued tag = true -> GetValueSize tag value remaining = 0.
Proof.
  intros H. apply empty_valued_cases in H.
  unfold GetValueSize. destruct (remaining <? 1); [reflexivity|].
  destruct H as [->|[->|[->| ->]]]; reflexivity.
Qed.

(** The element loop rejects at the first element of a tag without value
    bytes, whatever follows it. *)
Lemma validate_elements_empty_valued (before : list (list byte * yyjson_val))
    (pre key rest : list byte) (tag : BSONType) (size doc_len : Z) (fuel : nat) :
  walkable before = true ->
  nul_free key = true ->
  empty_valued tag = true ->
  len pre + len (bson_elements before) + 1 + len key + 1 < doc_len ->
  doc_len <= INT32_MAX ->
  doc_len <= size ->
  (List.length before < fuel)%nat ->
  validate_elements fuel
    (pre ++ bson_elements before ++ (tag :: key ++ [x00]) ++ rest)
    size doc_len (len pre) = Some false.
Proof.
  intros Hw Hnul Htag Hlen Hmax Hsize Hfuel.
  pose proof (len_nonneg key) as Hk.
  replace fuel with (List.length before + (fuel - List.length before))%nat by lia.
  rewrite validate_elements_skip by (try assumption; lia).
  destruct (fuel - List.length before)%nat as [|fuel'] eqn:E; [lia|].
  rewrite app_assoc.
  set (pre' := pre ++ bson_elements before).
  replace (len pre + len (bson_elements before)) with (len pre')
    by (subst pre'; norm_len; lia).
  assert (len pre' = len pre + len (bson_elements before)) as Epre'
    by (subst pre'; norm_len; lia).
  cbn [validate_elements].
  assert ((len pre' <? doc_len - 1) = true) as -> by (apply Z.ltb_lt; lia).
  assert ((size <=? len pre') = false) as -> by (apply Z.leb_gt; lia).
  destruct (element_layout pre' key [] rest tag doc_len Hnul ltac:(lia))
    as (Etag & Eskip & _ & _).
  cbn [app] in Etag, Eskip. cbn [app].
  rewrite Etag, Eskip.
  assert ((doc_len <=? len pre' + 1 + len key) = false) as -> by (apply Z.leb_gt; lia).
  rewrite GetValueSize_empty_valued by assumption. reflexivity.
Qed.

(** * The locator over encoded elements *)

Lemma key_test_false (k key rest : list byte) :
  k <> key ->
  (len k =? len key) && memcmp_eq (k ++ rest) key (Z.to_nat (len key)) = false.
Proof.
  intros Hne. destruct (len k =? len key) eqn:E; [|reflexivity].
  apply Z.eqb_eq in E. unfold len in *. rewrite Nat2Z.id. cbn [andb].
  destruct (memcmp_eq (k ++ rest) key (List.length key)) eqn:M; [|reflexivity].
  apply memcmp_eq_true in M; [contradiction|lia].
Qed.

Lemma key_test_true (key rest : list byte) :
  (len key =? len key) && memcmp_eq (key ++ rest) key (Z.to_nat (len key)) = true.
Proof.
  rewrite Z.eqb_refl. unfold len. rewrite Nat2Z.id. apply memcmp_eq_refl.
Qed.

(** The locator walks over walkable elements of other keys. *)
Lemma find_elements_skip (before : list (list byte * yyjson_val)) :
  forall (pre rest key : list byte) (doc_len : Z) (fuel : nat)
         (result : BSONElement),
  walkable before = true ->
  ~ In key (map fst before) ->
  len pre + len (bson_elements before) < doc_len ->
  doc_len <= INT32_MAX ->
  exists result',
    find_elements (List.length before + fuel)
      (pre ++ bson_elements before ++ rest) doc_len (len pre) key (len key)
      result
    = find_elements fuel
        (pre ++ bson_elements before ++ rest) doc_len
        (len pre + len (bson_elements before)) key (len key) result'.
Proof.
  induction before as [|[k v] before IH];
    intros pre rest key doc_len fuel result Hw Hnotin Hlen Hmax.
  - exists result. change (bson_elements []) with (@nil byte). norm_len.
    cbn [List.length Nat.add]. f_equal. lia.
  - apply walkable_cons in Hw. destruct Hw as (Hnul & Hsized & Hw).
    cbn [map fst In] in Hnotin.
    assert (k <> key) as Hne by tauto.
    assert (~ In key (map fst before)) as Hnotin' by tauto.
    pose proof (len_bson_value_pos v Hsized) as Hvpos.
    pose proof (len_nonneg k) as Hk.
    pose proof (len_nonneg pre) as Hp.
    pose proof (len_nonneg (bson_elements before)) as Hf.
    rewrite bson_elements_cons in *.
    assert (len ((bson_tag v :: k ++ [x00]) ++ bson_value v ++ bson_elements before)
            = 1 + len k + 1 + len (bson_value v) + len (bson_elements before)) as Elen
      by (norm_len; lia).
    rewrite Elen in *.
    rewrite <- !app_assoc.
    cbn [List.length Nat.add find_elements].
    assert ((len pre <? doc_len - 1) = true) as -> by (apply Z.ltb_lt; lia).
    element_step pre k v (bson_elements before ++ rest) doc_len Hnul.
    assert ((doc_len <=? len pre + 1 + len k) = false) as -> by (apply Z.leb_gt; lia).
    rewrite GetValueSize_bson_value by (try assumption; lia).
    assert ((len (bson_value v) =? 0) = false) as -> by (apply Z.eqb_neq; lia).
    assert ((doc_len - (len pre + 1 + len k + 1) <? len (bson_value v)) = false) as ->
      by (apply Z.ltb_ge; lia).
    cbn [orb].
    replace (len pre + 1 + len k - (len pre + 1)) with (len k) by lia.
    rewrite key_test_false by assumption.
    replace (pre ++ (bson_tag v :: k ++ [x00]) ++ bson_value v ++ bson_elements before ++ rest)
      with ((pre ++ (bson_tag v :: k ++ [x00]) ++ bson_value v) ++ bson_elements before ++ rest)
      by (rewrite <- !app_assoc; reflexivity).
    set (pre' := pre ++ (bson_tag v :: k ++ [x00]) ++ bson_value v).
    assert (len pre' = len pre + 1 + len k + 1 + len (bson_value v)) as Epre'
      by (subst pre'; norm_len; lia).
    replace (len pre + 1 + len k + 1 + len (bson_value v)) with (len pre') by lia.
    replace (len pre + (1 + len k + 1 + len (bson_value v) + len (bson_elements before)))
      with (len pre' + len (bson_elements before)) by lia.
    apply IH; try assumption; lia.
Qed.

(** The locator finds the first field of a key, past walkable fields of
    other keys, and describes it by its tag, its key and its value; what
    follows the value in the buffer is not looked at. *)
Lemma find_elements_found (before : list (list byte * yyjson_val))
    (pre : list byte) (key : list byte) (val : yyjson_val)
    (rest : list byte) (doc_len : Z) (fuel : nat) (result : BSONElement) :
  walkable before = true ->
  ~ In key (map fst before) ->
  nul_free key = true ->
  sized val = true ->
  len pre + len (bson_elements before) + 1 + len key + 1 + len (bson_value val)
    <= doc_len ->
  doc_len <= INT32_MAX ->
  (List.length before < fuel)%nat ->
  find_elements fuel
    (pre ++ bson_elements before
         ++ (bson_tag val :: key ++ [x00]) ++ bson_value val ++ rest)
    doc_len (len pre) key (len key) result
  = Some (true,
          BSONElement.mk (bson_tag val)
            (key ++ x00 :: bson_value val ++ rest)
            (len key)
            (bson_value val ++ rest)
            (len (bson_value val))).
Proof.
  intros Hw Hnotin Hnul Hsized Hlen Hmax Hfuel.
  pose proof (len_bson_value_pos val Hsized) as Hvpos.
  pose proof (len_nonneg key) as Hk.
  pose proof (len_nonneg pre) as Hp.
  pose proof (len_nonneg (bson_elements before)) as Hb.
  replace fuel with (List.length before + (fuel - List.length before))%nat by lia.
  destruct (find_elements_skip before pre
              ((bson_tag val :: key ++ [x00]) ++ bson_value val ++ rest)
              key doc_len (fuel - List.length before)%nat result Hw Hnotin
              ltac:(lia) ltac:(lia)) as [result' ->].
  destruct (fuel - List.length before)%nat as [|fuel'] eqn:E; [lia|].
  rewrite app_assoc.
  set (pre' := pre ++ bson_elements before).
  assert (len pre' = len pre + len (bson_elements before)) as Epre'
    by (subst pre'; norm_len; lia).
  replace (len pre + len (bson_elements before)) with (len pre') by lia.
  cbn [find_elements].
  assert ((len pre' <? doc_len - 1) = true) as -> by (apply Z.ltb_lt; lia).
  element_step pre' key val rest doc_len Hnul.
  assert ((doc_len <=? len pre' + 1 + len key) = false) as -> by (apply Z.leb_gt; lia).
  rewrite GetValueSize_bson_value by (try assumption; lia).
  assert ((len (bson_value val) =? 0) = false) as -> by (apply Z.eqb_neq; lia).
  assert ((doc_len - (len pre' + 1 + len key + 1) <? len (bson_value val)) = false) as ->
    by (apply Z.ltb_ge; lia).
  cbn [orb].
  replace (len pre' + 1 + len key - (len pre' + 1)) with (len key) by lia.
  rewrite key_test_true. reflexivity.
Qed.

(** [FindElement] on a buffer made of a length prefix, encoded fields and
    one last byte [b], which need not be the terminator. *)
Lemma FindElement_encoded (before : list (list byte * yyjson_val))
    (key : list byte) (val : yyjson_val)
    (after : list (list byte * yyjson_val)) (b : byte) (result : BSONElement) :
  walkable before = true ->
  ~ In key (map fst before) ->
  nul_free key = true ->
  sized val = true ->
  let body := bson_elements (before ++ (key, val) :: after) in
  let doc_len := 4 + len body + 1 in
  doc_len <= INT32_MAX ->
  FindElement (le_bytes 4 doc_len ++ body ++ [b]) doc_len key (len key) result
  = (true,
     BSONElement.mk (bson_tag val)
       (key ++ x00 :: bson_value val ++ bson_elements after ++ [b])
       (len key)
       (bson_value val ++ bson_elements after ++ [b])
       (len (bson_value val))).
Proof.
  intros Hw Hnotin Hnul Hsized body doc_len Hmax.
  pose proof (len_nonneg body) as Hbody.
  pose proof (len_nonneg (bson_elements before)) as Hb.
  pose proof (len_nonneg (bson_elements after)) as Ha.
  pose proof (len_nonneg key) as Hk.
  pose proof (len_bson_value_pos val Hsized) as Hvpos.
  assert (len body = len (bson_elements before) + 1 + len key + 1
                     + len (bson_value val) + len (bson_elements after)) as Ebody
    by (subst body; rewrite bson_elements_app, bson_elements_cons; norm_len; lia).
  unfold FindElement. cbv zeta.
  assert ((doc_len <? 5) = false) as -> by (apply Z.ltb_ge; lia).
  rewrite ReadInt32_le_bytes, to_int32_id by (unfold INT32_MIN; lia).
  assert ((doc_len <? 5) = false) as -> by (apply Z.ltb_ge; lia).
  assert ((doc_len <? doc_len) = false) as -> by (apply Z.ltb_irrefl).
  cbn [orb].
  subst body. rewrite bson_elements_app, bson_elements_cons. rewrite <- !app_assoc.
  pose proof (find_elements_found before (le_bytes 4 doc_len) key val
                (bson_elements after ++ [b]) doc_len (Z.to_nat doc_len) result
                Hw Hnotin Hnul Hsized) as Hfound.
  rewrite len_le_bytes in Hfound. change (Z.of_nat 4) with 4 in Hfound.
  rewrite Hfound; try reflexivity; try lia.
  - assert (List.length before <= List.length (bson_elements before))%nat as Hn.
    { clear - Hw. induction before as [|[k v] before IH]; [simpl; lia|].
      apply walkable_cons in Hw. destruct Hw as (_ & Hs & Hw).
      rewrite bson_elements_cons. rewrite !length_app. cbn [List.length].
      specialize (IH Hw). lia. }
    unfold len in *. lia.
Qed.

(** * The encoder *)

(** Induction over a tree, with the hypothesis for the values of the fields
    of an object. *)
Lemma yyjson_val_fields_ind (P : yyjson_val -> Prop) :
  (forall val, yyjson_is_obj val = false -> P val) ->
  (forall fields, Forall (fun field => P (snd field)) fields -> P (JObj fields)) ->
  forall val, P val.
Proof.
  intros Hleaf Hobj.
  fix IH 1. intros val.
  destruct val as [raw| |b|num|num|bits|str|elems|fields];
    try (apply Hleaf; reflexivity).
  apply Hobj.
  induction fields as [|[key v] fields IHf]; constructor.
  - cbn [snd]. apply IH.
  - exact IHf.
Qed.

Lemma JSONToBSONDocument_eq (obj : yyjson_val) (cap max_size : Z) :
  JSONToBSONDocument obj cap max_size
  = if max_size <? 5 then Throw BufferTooSmallForDocument else
    terminate cap
      (elements JSONToBSONDocument cap (yyjson_obj_iter obj) []
         (to_idx (max_size - 4))).
Proof. destruct obj; reflexivity. Qed.

Lemma supported_obj (fields : list (list byte * yyjson_val)) :
  supported (JObj fields) = supported_fields fields.
Proof.
  cbn [supported]. induction fields as [|[key v] fields IH]; [reflexivity|].
  rewrite IH. reflexivity.
Qed.

Lemma bson_value_container (val : yyjson_val) :
  yyjson_get_type val = YYJSON_TYPE_ARR \/ yyjson_get_type val = YYJSON_TYPE_OBJ ->
  bson_value val = bson_document val.
Proof.
  destruct val; intros [H|H]; try discriminate.
  - reflexivity.
  - apply bson_value_obj.
Qed.

Lemma bind_Done {A B} (m : outcome A) (k : A -> outcome B) (b : B) :
  bind m k = Done b -> exists a, m = Done a /\ k a = Done b.
Proof. destruct m; simpl; intros H; try discriminate. eauto. Qed.

Lemma Done_inj {A} (a b : A) : Done a = Done b -> a = b.
Proof. congruence. Qed.

Lemma store_Done (cap : Z) (body bytes out : list byte) :
  store cap body bytes = Done out ->
  out = body ++ bytes /\ 4 + len body + len bytes <= cap.
Proof.
  unfold store. destruct (Z.leb_spec (4 + len body + len bytes) cap) as [Hle|Hgt];
    intros H; inversion H. auto.
Qed.

Lemma store_fits (cap : Z) (body bytes : list byte) :
  4 + len body + len bytes <= cap ->
  store cap body bytes = Done (body ++ bytes).
Proof.
  intros H. unfold store.
  destruct (Z.leb_spec (4 + len body + len bytes) cap); [reflexivity|lia].
Qed.

Ltac invert_Done :=
  repeat match goal with
  | H : bind _ _ = Done _ |- _ =>
      let a := fresh "a" in
      let H1 := fresh "H" in
      apply bind_Done in H; destruct H as (a & H1 & H)
  | H : store _ _ _ = Done _ |- _ =>
      let H1 := fresh "Hcap" in
      apply store_Done in H; destruct H as (-> & H1)
  | H : (if ?c then _ else _) = Done _ |- _ =>
      let E := fresh "E" in destruct c eqn:E; [try discriminate H|try discriminate H]
  | H : (let '(_, _) := ?p in _) = Done _ |- _ => destruct p
  end.

Lemma terminate_Done (cap : Z) (loop : outcome (list byte * Z)) (n : Z)
    (doc : list byte) :
  terminate cap loop = Done (n, doc) ->
  exists body remaining,
    loop = Done (body, remaining) /\ doc = frame body /\ n = len doc
    /\ n <= INT32_MAX /\ n <= cap /\ 1 <= remaining.
Proof.
  unfold terminate. intros H. invert_Done.
  apply Done_inj, pair_equal_spec in H. destruct H as [<- <-].
  exists l, z.
  apply Z.ltb_ge in E. apply Z.ltb_ge in E0.
  norm_len_in E0. norm_len_in Hcap.
  assert (le_bytes 4 (4 + len (l ++ [x00])) ++ l ++ [x00] = frame l) as ->
    by (unfold frame; f_equal; f_equal; norm_len; lia).
  rewrite len_frame. norm_len.
  repeat split; try lia. assumption.
Qed.

Lemma elements_exact (cap : Z) (iter : list (list byte * yyjson_val)) :
  Forall (fun field => exact (snd field)) iter ->
  forall body remaining body' remaining',
    elements JSONToBSONDocument cap iter body remaining = Done (body', remaining') ->
    body' = body ++ bson_elements iter.
Proof.
  induction 1 as [|[key val] iter Hval _ IH]; intros body remaining body' remaining' H.
  - cbn [elements] in H. apply Done_inj, pair_equal_spec in H. destruct H as [<- _].
    change (bson_elements []) with (@nil byte). now rewrite app_nil_r.
  - cbn [snd] in Hval. rewrite bson_elements_cons.
    cbn [elements] in H.
    destruct (remaining <? len key + 3); [discriminate|].
    destruct val as [raw| |b|num|num|bits|str|elems|fields];
      cbn [yyjson_get_type yyjson_get_subtype yyjson_get_bool yyjson_get_real
           yyjson_get_sint yyjson_get_uint yyjson_get_str] in H;
      try discriminate; invert_Done;
      try (apply IH in H; subst body'; cbn [bson_tag bson_value];
           unfold in_int32; rewrite ?E; rewrite <- ?app_assoc; reflexivity).
    + match goal with Hn : JSONToBSONDocument _ _ _ = Done _ |- _ =>
        apply Hval in Hn; destruct Hn as (-> & _ & _) end.
      apply IH in H. subst body'.
      rewrite (bson_value_container (JArr elems)) by (left; reflexivity).
      cbn [bson_tag]. rewrite <- ?app_assoc. reflexivity.
    + match goal with Hn : JSONToBSONDocument _ _ _ = Done _ |- _ =>
        apply Hval in Hn; destruct Hn as (-> & _ & _) end.
      apply IH in H. subst body'.
      rewrite (bson_value_container (JObj fields)) by (right; reflexivity).
      cbn [bson_tag]. rewrite <- ?app_assoc. reflexivity.
Qed.

Lemma JSONToBSONDocument_exact (val : yyjson_val) : exact val.
Proof.
  induction val as [val Hleaf|fields IH] using yyjson_val_fields_ind;
    intros cap max_size n doc H; rewrite JSONToBSONDocument_eq in H.
  - destruct (max_size <? 5); [discriminate|].
    apply terminate_Done in H.
    destruct H as (body & remaining & Hloop & -> & -> & Hmax & _).
    assert (yyjson_obj_iter val = []) as E by (destruct val; try reflexivity; discriminate).
    rewrite E in *. cbn [elements] in Hloop.
    apply Done_inj, pair_equal_spec in Hloop. destruct Hloop as [<- _].
    unfold bson_document. rewrite E. repeat split; auto.
  - destruct (max_size <? 5); [discriminate|].
    apply terminate_Done in H.
    destruct H as (body & remaining & Hloop & -> & -> & Hmax & _).
    cbn [yyjson_obj_iter] in Hloop.
    apply elements_exact in Hloop; [|exact IH]. subst body.
    unfold bson_document. cbn [yyjson_obj_iter]. repeat split; auto.
Qed.

Lemma to_idx_id (z : Z) : 0 <= z <= UINT64_MAX -> to_idx z = z.
Proof. unfold to_idx, UINT64_MAX. intros H. apply Z.mod_small. lia. Qed.

Lemma terminate_fits (cap : Z) (body : list byte) (remaining : Z) :
  1 <= remaining ->
  len (frame body) <= cap ->
  len (frame body) <= INT32_MAX ->
  terminate cap (Done (body, remaining)) = Done (len (frame body), frame body).
Proof.
  intros Hr Hcap Hmax. rewrite len_frame in *.
  unfold terminate. cbn [bind].
  assert ((remaining <? 1) = false) as -> by (apply Z.ltb_ge; lia).
  rewrite store_fits by (norm_len; lia). cbn [bind].
  assert ((INT32_MAX <? 4 + len (body ++ [x00])) = false) as ->
    by (apply Z.ltb_ge; norm_len; lia).
  unfold frame.
  replace (4 + len (body ++ [x00])) with (4 + len body + 1) by (norm_len; lia).
  reflexivity.
Qed.

Lemma supported_fields_cons (key : list byte) (val : yyjson_val)
    (iter : list (list byte * yyjson_val)) :
  supported_fields ((key, val) :: iter) = true
  <-> supported val = true /\ supported_fields iter = true.
Proof. unfold supported_fields. cbn [forallb snd]. apply andb_true_iff. Qed.

Lemma elements_fits (cap : Z) (iter : list (list byte * yyjson_val)) :
  Forall (fun field => fits (snd field)) iter ->
  supported_fields iter = true ->
  forall body remaining,
    4 + len body + len (bson_elements iter) + 1 <= cap ->
    len (bson_elements iter) + 1 <= remaining <= UINT64_MAX ->
    4 + len body + len (bson_elements iter) + 1 <= INT32_MAX ->
    elements JSONToBSONDocument cap iter body remaining
    = Done (body ++ bson_elements iter, remaining - len (bson_elements iter)).
Proof.
  induction 1 as [|[key val] iter Hval _ IH]; intros Hsup body remaining Hcap Hrem Hmax.
  - cbn [elements]. change (bson_elements []) with (@nil byte). norm_len.
    rewrite app_nil_r. do 2 f_equal. lia.
  - cbn [snd] in Hval.
    apply supported_fields_cons in Hsup. destruct Hsup as [Hsv Hsup].
    specialize (IH Hsup).
    rewrite bson_elements_cons in *.
    pose proof (len_nonneg key) as Hk.
    pose proof (len_nonneg body) as Hb.
    pose proof (len_nonneg (bson_value val)) as Hv.
    pose proof (len_nonneg (bson_elements iter)) as Hi.
    assert (len ((bson_tag val :: key ++ [x00]) ++ bson_value val ++ bson_elements iter)
            = 1 + len key + 1 + len (bson_value val) + len (bson_elements iter)) as Elen
      by (norm_len; lia).
    rewrite Elen in *.
    cbn [elements].
    assert ((remaining <? len key + 3) = false) as -> by (apply Z.ltb_ge; lia).
    destruct val as [raw| |b|num|num|bits|str|elems|fields];
      try discriminate Hsv;
      rewrite ?bson_value_obj in *;
      cbn [yyjson_get_type yyjson_get_subtype yyjson_get_bool yyjson_get_real
           yyjson_get_sint yyjson_get_uint yyjson_get_str bson_tag bson_value] in *;
      unfold in_int32 in *.
    + (* null *)
      norm_len_in Hcap. norm_len_in Hrem. norm_len_in Hmax. norm_len.
      rewrite store_fits by (norm_len; lia). cbn [bind].
      rewrite to_idx_id by lia.
      rewrite IH by (norm_len; lia).
      rewrite <- !app_assoc. cbn [app]. do 2 f_equal. lia.
    + (* bool *)
      unfold WriteBSONBool in *.
      norm_len_in Hcap. norm_len_in Hrem. norm_len_in Hmax. norm_len.
      repeat (rewrite store_fits by (norm_len; lia); cbn [bind]).
      rewrite to_idx_id by lia.
      rewrite IH by (norm_len; lia).
      rewrite <- !app_assoc. cbn [app]. do 2 f_equal. lia.
    + (* uint *)
      unfold WriteBSONInt64 in *.
      norm_len_in Hcap. norm_len_in Hrem. norm_len_in Hmax. norm_len.
      repeat (rewrite store_fits by (norm_len; lia); cbn [bind]).
      rewrite to_idx_id by lia.
      rewrite IH by (norm_len; lia).
      rewrite <- !app_assoc. cbn [app]. do 2 f_equal. lia.
    + (* sint *)
      destruct ((INT32_MIN <=? num) && (num <=? INT32_MAX));
        unfold WriteBSONInt32, WriteBSONInt64 in *;
        norm_len_in Hcap; norm_len_in Hrem; norm_len_in Hmax; norm_len;
        repeat (rewrite store_fits by (norm_len; lia); cbn [bind]);
        rewrite to_idx_id by lia;
        rewrite IH by (norm_len; lia);
        rewrite <- !app_assoc; cbn [app]; do 2 f_equal; lia.
    + (* real *)
      unfold WriteBSONDouble in *.
      norm_len_in Hcap. norm_len_in Hrem. norm_len_in Hmax. norm_len.
      repeat (rewrite store_fits by (norm_len; lia); cbn [bind]).
      rewrite to_idx_id by lia.
      rewrite IH by (norm_len; lia).
      rewrite <- !app_assoc. cbn [app]. do 2 f_equal. lia.
    + (* string *)
      unfold WriteBSONString in *.
      pose proof (len_nonneg str).
      norm_len_in Hcap. norm_len_in Hrem. norm_len_in Hmax. norm_len.
      repeat (rewrite store_fits by (norm_len; lia); cbn [bind]).
      rewrite to_idx_id by lia.
      rewrite IH by (norm_len; lia).
      rewrite <- !app_assoc. cbn [app]. do 2 f_equal. lia.
    + (* array *)
      change (frame []) with (bson_document (JArr elems)) in *.
      rewrite store_fits by (norm_len; lia). cbn [bind].
      rewrite Hval by (try reflexivity; norm_len; lia). cbn [bind].
      rewrite to_idx_id by lia.
      rewrite IH by (norm_len; lia).
      rewrite <- !app_assoc. cbn [app]. do 2 f_equal. norm_len. lia.
    + (* object *)
      change (frame (bson_elements fields)) with (bson_document (JObj fields)) in *.
      rewrite store_fits by (norm_len; lia). cbn [bind].
      rewrite Hval by (try assumption; norm_len; lia). cbn [bind].
      rewrite to_idx_id by lia.
      rewrite IH by (norm_len; lia).
      rewrite <- !app_assoc. cbn [app]. do 2 f_equal. norm_len. lia.
Qed.

Lemma JSONToBSONDocument_fits (val : yyjson_val) : fits val.
Proof.
  induction val as [val Hleaf|fields IH] using yyjson_val_fields_ind;
    intros cap max_size Hsup Hcap Hsize Hmax; rewrite JSONToBSONDocument_eq.
  - assert (yyjson_obj_iter val = []) as E by (destruct val; try reflexivity; discriminate).
    unfold bson_document in *. rewrite E in *.
    change (bson_elements []) with (@nil byte) in *.
    rewrite len_frame in *. norm_len_in Hcap. norm_len_in Hsize. norm_len_in Hmax.
    assert ((max_size <? 5) = false) as -> by (apply Z.ltb_ge; lia).
    cbn [elements]. rewrite terminate_fits; rewrite ?len_frame; norm_len; try lia.
    + reflexivity.
    + rewrite to_idx_id; lia.
  - unfold bson_document in *. cbn [yyjson_obj_iter] in *.
    rewrite supported_obj in Hsup.
    rewrite len_frame in *.
    pose proof (len_nonneg (bson_elements fields)) as Hf.
    assert ((max_size <? 5) = false) as -> by (apply Z.ltb_ge; lia).
    rewrite (elements_fits cap fields IH Hsup) by (norm_len; rewrite ?to_idx_id; lia).
    rewrite app_nil_l, to_idx_id by lia.
    rewrite terminate_fits; rewrite ?len_frame; try lia. reflexivity.
Qed.






(** * Documents *)

Lemma length_le_elements (fields : list (list byte * yyjson_val)) :
  (List.length fields <= List.length (bson_elements fields))%nat.
Proof.
  induction fields as [|[k v] fields IH]; [simpl; lia|].
  rewrite bson_elements_cons. rewrite !length_app. cbn [List.length]. lia.
Qed.

(** An encoded document of walkable fields is valid. *)
Lemma ValidateDocument_encoded (fields : list (list byte * yyjson_val)) :
  walkable fields = true ->
  len (frame (bson_elements fields)) <= INT32_MAX ->
  ValidateDocument (frame (bson_elements fields))
    (len (frame (bson_elements fields))) = true.
Proof.
  intros Hw Hmax. rewrite len_frame in *.
  pose proof (len_nonneg (bson_elements fields)) as Hf.
  set (doc_len := 4 + len (bson_elements fields) + 1) in *.
  unfold ValidateDocument. cbv zeta.
  assert (ReadInt32 (frame (bson_elements fields)) = doc_len) as ->.
  { rewrite <- (app_nil_r (frame _)). apply ReadInt32_frame. fold doc_len. lia. }
  assert ((doc_len <? 5) = false) as -> by (apply Z.ltb_ge; lia).
  assert ((doc_len <? doc_len) = false) as -> by (apply Z.ltb_irrefl).
  cbn [orb].
  assert (byte_at (frame (bson_elements fields)) (doc_len - 1) = x00) as ->.
  { unfold frame. rewrite app_assoc.
    replace (doc_len - 1) with (len (le_bytes 4 doc_len ++ bson_elements fields))
      by (norm_len; lia).
    apply byte_at_here. }
  cbn [Byte.eqb negb].
  unfold frame. fold doc_len.
  pose proof (validate_elements_encoded fields (le_bytes 4 doc_len) [] doc_len
                (Z.to_nat doc_len) Hw) as Hloop.
  rewrite len_le_bytes in Hloop. change (Z.of_nat 4) with 4 in Hloop.
  fold doc_len in Hloop. rewrite Hloop; try reflexivity; try lia.
  pose proof (length_le_elements fields). unfold len in *. lia.
Qed.

(** A buffer made of a length prefix, walkable encoded fields, then an
    element of a tag without value bytes, is not valid, whatever follows. *)
Lemma ValidateDocument_empty_valued (before : list (list byte * yyjson_val))
    (tag : BSONType) (key rest : list byte) (size : Z) :
  walkable before = true ->
  nul_free key = true ->
  empty_valued tag = true ->
  let body := bson_elements before ++ (tag :: key ++ [x00]) ++ rest in
  1 <= len rest ->
  4 + len body <= INT32_MAX ->
  ValidateDocument (le_bytes 4 (4 + len body) ++ body) size = false.
Proof.
  intros Hw Hnul Htag body Hrest Hmax.
  pose proof (len_nonneg (bson_elements before)) as Hb.
  pose proof (len_nonneg key) as Hk.
  assert (len body = len (bson_elements before) + 1 + len key + 1 + len rest) as Ebody
    by (subst body; norm_len; lia).
  set (doc_len := 4 + len body) in *.
  unfold ValidateDocument. cbv zeta.
  destruct (size <? 5); [reflexivity|].
  rewrite ReadInt32_le_bytes, to_int32_id by (unfold INT32_MIN; lia).
  destruct (Z.ltb_spec size doc_len) as [Hsz|Hsz];
    [rewrite orb_true_r; reflexivity|].
  rewrite orb_false_r.
  destruct (doc_len <? 5); [reflexivity|].
  destruct (negb _); [reflexivity|].
  subst body.
  pose proof (validate_elements_empty_valued before (le_bytes 4 doc_len) key rest
                tag size doc_len (Z.to_nat doc_len) Hw Hnul Htag) as Hloop.
  rewrite len_le_bytes in Hloop. change (Z.of_nat 4) with 4 in Hloop.
  rewrite Hloop; try reflexivity; try lia.
  pose proof (length_le_elements before). unfold len in *. lia.
Qed.

(** * The validator, the locator and the path language *)

(** C8. Validator literal vectors: no buffer of fewer than 5 bytes is valid;
    [05 00 00 00 00] is valid and [04 00 00 00 00] is not; the 20-byte
    document of [{"name": "John"}] is valid, locating ["name"] in it gives
    an element of tag string that decodes to ["John"], and locating
    ["missing"] fails; so the row functions extract ["John"], report the
    type ["string"], and give NULL for [$.missing]. *)
Theorem validator_literal_vectors :
  (forall data size, size < 5 -> ValidateDocument data size = false)
  /\ ValidateDocument empty_document 5 = true
  /\ ValidateDocument short_length_document 5 = false
  /\ ValidateDocument john_document 20 = true
  /\ (forall result, exists elem,
        FindElement john_document 20 (bytes "name") 4 result = (true, elem)
        /\ BSONElement.type elem = STRING
        /\ string_t (ptr_add (BSONElement.value elem) 4)
             (ReadInt32 (BSONElement.value elem) - 1) = bytes "John")
  /\ (forall result,
        fst (FindElement john_document 20 (bytes "missing") 7 result) = false)
  /\ (forall elem,
        BSONExtractStringFunction john_document "$.name" elem
        = RowValue (bytes "John")
        /\ BSONTypeFunction john_document "$.name" elem = RowValue "string"%string
        /\ BSONExtractStringFunction john_document "$.missing" elem = RowNull).
Proof.
  split; [|repeat split; try reflexivity].
  - intros data size Hsize. unfold ValidateDocument.
    destruct (Z.ltb_spec size 5); [reflexivity|lia].
  - intros result. eexists. split; [reflexivity|]. split; reflexivity.
Qed.

Lemma validator_literal_vectors_witness :
  ValidateDocument [x05; x00; x00; x00] 4 = false.
Proof.
  apply (proj1 validator_literal_vectors). lia.
Defined.

Lemma GetValueSize_container (type : BSONType) (value : ptr) (remaining : Z) :
  type = DOCUMENT \/ type = ARRAY ->
  0 <= remaining <= INT32_MAX ->
  GetValueSize type value remaining
  = if (5 <=? ReadInt32 value) && (ReadInt32 value <=? remaining)
    then ReadInt32 value else 0.
Proof.
  intros Htype Hr. rewrite GetValueSize_in_range by lia.
  assert ((if remaining <? 1 then 0 else
           match type with
           | x01 => 8
           | x02 | x0d | x0e =>
               if remaining <? 4 then 0 else
               if (ReadInt32 value <? 1) || (remaining - 4 <? ReadInt32 value) then 0
               else 4 + ReadInt32 value
           | x03 | x04 =>
               if remaining <? 4 then 0 else
               if (ReadInt32 value <? 5) || (remaining <? ReadInt32 value) then 0
               else ReadInt32 value
           | x05 =>
               if remaining <? 5 then 0 else
               if (ReadInt32 value <? 0) || (remaining - 5 <? ReadInt32 value) then 0
               else 5 + ReadInt32 value
           | x07 => 12
           | x08 => 1
           | x09 => 8
           | x0b =>
               let pos := skip_cstring value remaining 0 in
               if remaining <=? pos then 0 else
               let pos := skip_cstring value remaining (pos + 1) in
               if remaining <=? pos then 0 else pos + 1
           | x0c =>
               if remaining <? 4 then 0 else
               if (ReadInt32 value <? 1) || (remaining - 16 <? ReadInt32 value) then 0
               else 4 + ReadInt32 value + 12
           | x0f =>
               if remaining <? 4 then 0 else
               if (ReadInt32 value <? 14) || (remaining <? ReadInt32 value) then 0
               else ReadInt32 value
           | x10 => 4
           | x11 => 8
           | x12 => 8
           | x13 => 16
           | _ => 0
           end)
          = if remaining <? 1 then 0 else
            if remaining <? 4 then 0 else
            if (ReadInt32 value <? 5) || (remaining <? ReadInt32 value)
            then 0 else ReadInt32 value) as ->
    by (destruct Htype as [-> | ->]; reflexivity).
  destruct (Z.ltb_spec remaining 1), (Z.ltb_spec remaining 4),
           (Z.ltb_spec (ReadInt32 value) 5), (Z.ltb_spec remaining (ReadInt32 value)),
           (Z.leb_spec 5 (ReadInt32 value)), (Z.leb_spec (ReadInt32 value) remaining);
    cbn [orb andb]; try reflexivity; lia.
Qed.

Lemma ValidateDocument_document_around (key junk : list byte) :
  nul_free key = true ->
  1 <= len junk ->
  len (document_around key junk) <= INT32_MAX ->
  ValidateDocument (document_around key junk) (len (document_around key junk))
  = true.
Proof.
  intros Hnul Hjunk Hmax. unfold document_around in *.
  set (value := le_bytes 4 (4 + len junk) ++ junk) in *.
  rewrite len_frame in *.
  pose proof (len_nonneg key) as Hk.
  assert (len value = 4 + len junk) as Evalue by (subst value; norm_len; lia).
  assert (len ((DOCUMENT :: key ++ [x00]) ++ value) = 1 + len key + 1 + len value) as Ebody
    by (norm_len; lia).
  set (doc_len := 4 + len ((DOCUMENT :: key ++ [x00]) ++ value) + 1) in *.
  unfold ValidateDocument. cbv zeta.
  assert (ReadInt32 (frame ((DOCUMENT :: key ++ [x00]) ++ value)) = doc_len) as ->.
  { rewrite <- (app_nil_r (frame _)). apply ReadInt32_frame. fold doc_len. lia. }
  assert ((doc_len <? 5) = false) as -> by (apply Z.ltb_ge; lia).
  assert ((doc_len <? doc_len) = false) as -> by (apply Z.ltb_irrefl).
  cbn [orb].
  assert (byte_at (frame ((DOCUMENT :: key ++ [x00]) ++ value)) (doc_len - 1) = x00) as ->.
  { unfold frame. rewrite app_assoc.
    replace (doc_len - 1)
      with (len (le_bytes 4 doc_len ++ (DOCUMENT :: key ++ [x00]) ++ value))
      by (norm_len; lia).
    apply byte_at_here. }
  cbn [Byte.eqb negb].
  unfold frame. fold doc_len. rewrite <- !app_assoc.
  destruct (Z.to_nat doc_len) as [|[|fuel]] eqn:Efuel; try lia.
  destruct (element_layout (le_bytes 4 doc_len) key value [x00] DOCUMENT doc_len Hnul
              ltac:(norm_len; lia)) as (Etag & Eskip & _ & Eval).
  rewrite len_le_bytes in Etag, Eskip, Eval. change (Z.of_nat 4) with 4 in *.
  set (data := le_bytes 4 doc_len ++ (DOCUMENT :: key ++ [x00]) ++ value ++ [x00]) in *.
  cbn [validate_elements].
  assert ((4 <? doc_len - 1) = true) as -> by (apply Z.ltb_lt; lia).
  assert ((doc_len <=? 4) = false) as -> by (apply Z.leb_gt; lia).
  rewrite Etag, Eskip, Eval.
  assert ((doc_len <=? 4 + 1 + len key) = false) as -> by (apply Z.leb_gt; lia).
  rewrite GetValueSize_container by (auto; lia).
  assert (ReadInt32 (value ++ [x00]) = 4 + len junk) as ->.
  { subst value. rewrite <- app_assoc, ReadInt32_le_bytes.
    apply to_int32_id. unfold INT32_MIN. lia. }
  assert ((5 <=? 4 + len junk) = true) as -> by (apply Z.leb_le; lia).
  assert ((4 + len junk <=? doc_len - (4 + 1 + len key + 1)) = true) as ->
    by (apply Z.leb_le; lia).
  cbn [andb].
  assert ((4 + len junk =? 0) = false) as -> by (apply Z.eqb_neq; lia).
  assert ((doc_len - (4 + 1 + len key + 1) <? 4 + len junk) = false) as ->
    by (apply Z.ltb_ge; lia).
  cbn [orb].
  assert ((4 + 1 + len key + 1 + (4 + len junk) <? doc_len - 1) = false) as ->
    by (apply Z.ltb_ge; lia).
  f_equal. apply Z.eqb_eq. lia.
Qed.

(** C9. [ValidateDocument] does not look into an embedded document or
    array: the size table reads the embedded length prefix, wants it
    between 5 and the bytes that remain, and gives it for the size; the
    validator then steps over that many bytes.  So a document with one
    embedded document is valid whatever the bytes [junk] after the embedded
    length prefix are, and the bytes [05 00 00 00 ff], not a valid document
    themselves, are embedded in a document that is valid. *)
Theorem validator_does_not_recurse :
  (forall type value remaining,
      type = DOCUMENT \/ type = ARRAY ->
      0 <= remaining <= INT32_MAX ->
      GetValueSize type value remaining
      = if (5 <=? ReadInt32 value) && (ReadInt32 value <=? remaining)
        then ReadInt32 value else 0)
  /\ (forall key junk,
        nul_free key = true ->
        1 <= len junk ->
        len (document_around key junk) <= INT32_MAX ->
        ValidateDocument (document_around key junk)
          (len (document_around key junk)) = true)
  /\ (let data := document_around (bytes "a") [xff] in
      ValidateDocument data (len data) = true
      /\ (forall result, exists elem,
            FindElement data (len data) (bytes "a") 1 result = (true, elem)
            /\ BSONElement.type elem = DOCUMENT
            /\ string_t (BSONElement.value elem) (BSONElement.value_len elem)
               = [x05; x00; x00; x00; xff])
      /\ ValidateDocument [x05; x00; x00; x00; xff] 5 = false).
Proof.
  split; [exact GetValueSize_container|].
  split; [exact ValidateDocument_document_around|].
  cbv zeta. split; [reflexivity|]. split; [|reflexivity].
  intros result. eexists. split; [reflexivity|]. split; reflexivity.
Qed.

Lemma validator_does_not_recurse_witness :
  ValidateDocument (document_around (bytes "a") [xff]) 13 = true
  /\ GetValueSize DOCUMENT [x05; x00; x00; x00; xff; x00] 6 = 5.
Proof.
  split.
  - apply (proj1 (proj2 validator_does_not_recurse) (bytes "a") [xff]);
      [reflexivity | vm_compute; discriminate | vm_compute; discriminate].
  - apply (proj1 validator_does_not_recurse DOCUMENT [x05; x00; x00; x00; xff; x00] 6);
      [left; reflexivity | unfold INT32_MAX; lia].
Defined.

Lemma ValidateDocument_terminator (data : ptr) (size : Z) :
  ValidateDocument data size = true ->
  byte_at data (ReadInt32 data - 1) = x00.
Proof. intros H. apply ValidateDocument_returns in H. tauto. Qed.

Lemma ValidateDocument_bad_terminator (body : list byte) (b : byte) (size : Z) :
  b <> x00 ->
  4 + len body + 1 <= INT32_MAX ->
  ValidateDocument (le_bytes 4 (4 + len body + 1) ++ body ++ [b]) size = false.
Proof.
  intros Hb Hmax. pose proof (len_nonneg body) as Hbody.
  unfold ValidateDocument. cbv zeta.
  rewrite ReadInt32_le_bytes, to_int32_id by (unfold INT32_MIN; lia).
  destruct (size <? 5); [reflexivity|].
  destruct (_ || _); [reflexivity|].
  rewrite app_assoc.
  replace (4 + len body + 1 - 1)
    with (len (le_bytes 4 (4 + len body + 1) ++ body)) by (norm_len; lia).
  rewrite byte_at_here.
  destruct (Byte.eqb b x00) eqn:E; [|reflexivity].
  apply Byte.byte_dec_bl in E. contradiction.
Qed.

(** C7 (amended). [ParsePath] wants the leading ['$'] of every path that is
    not empty: a non-empty path whose first character is not ['$'] raises
    "BSON path must start with '$'"; the path ["$"] parses to no segment;
    and the empty path is accepted without a ['$'], parsing to no segment
    as well. *)
Theorem ParsePath_leading_dollar :
  (forall path len segments,
      len <> 0 ->
      char_at path 0 <> "$"%char ->
      ParsePath path len segments = Raise MustStartWithDollar)
  /\ ParsePath "$" 1 [] = Return (REGULAR, [])
  /\ ParsePath EmptyString 0 [] = Return (REGULAR, []).
Proof.
  split; [|split; reflexivity].
  intros path len segments Hlen Hc. unfold ParsePath.
  destruct (Z.eqb_spec len 0); [contradiction|].
  destruct (Ascii.eqb_spec (char_at path 0) "$"); [contradiction|reflexivity].
Qed.

Lemma ParsePath_leading_dollar_witness :
  ParsePath "a.b" 3 [] = Raise MustStartWithDollar.
Proof.
  apply (proj1 ParsePath_leading_dollar); [lia | vm_compute; discriminate].
Defined.

(** C7, as stated, fails at the empty path: it is parsed without an error. *)
Lemma ParsePath_empty_path_accepted :
  ParsePath EmptyString 0 [] = Return (REGULAR, []).
Proof. reflexivity. Qed.

(** C6. With no segment, the loop of [TraversePath] has nothing to do and
    the function returns [true], leaving [result] as the caller passed it
    (an uninitialised local in [BSONExtractStringFunction], which does not
    look at [segments.empty()] first). *)
Theorem TraversePath_empty_segments :
  forall doc_data doc_size result,
    TraversePath doc_data doc_size [] result = (true, result).
Proof. reflexivity. Qed.

(** On the root path [BSONExtractStringFunction] decodes what the element
    of its caller holds, whatever the document. *)
Lemma BSONExtractStringFunction_root (bson : list byte) (elem : BSONElement) :
  BSONExtractStringFunction bson "$" elem
  = if negb (Byte.eqb (BSONElement.type elem) STRING) then RowNull else
    if ReadInt32 (BSONElement.value elem) <? 1 then RowNull else
    RowValue (string_t (ptr_add (BSONElement.value elem) 4)
                (ReadInt32 (BSONElement.value elem) - 1)).
Proof. reflexivity. Qed.

(** How [TraversePath] goes through a path that is not empty: a segment
    that is not found, or one that is not the last and resolves to an
    element that is neither a document nor an array, ends it with [false];
    the last segment gives the result; otherwise the next segment is looked
    up in the value of the element. *)
Lemma TraversePath_step (doc_data : ptr) (doc_size : Z) (segment : PathSegment)
    (rest : list PathSegment) (result : BSONElement) :
  TraversePath doc_data doc_size (segment :: rest) result
  = let (found, elem) := lookup doc_data doc_size segment result in
    if negb found then (false, elem) else
    match rest with
    | [] => (true, elem)
    | _ :: _ =>
        if negb (is_container (BSONElement.type elem)) then (false, elem)
        else TraversePath (BSONElement.value elem) (BSONElement.value_len elem)
               rest elem
    end.
Proof.
  unfold TraversePath, lookup, is_container. cbn [TraversePath_from].
  destruct segment;
    match goal with |- context [let (_, _) := ?p in _] => destruct p as [found elem] end;
    destruct found; cbn [negb]; try reflexivity;
    destruct rest; try reflexivity;
    rewrite negb_orb; reflexivity.
Qed.

(** C1. The size table gives 0 to a value of tag null, undefined, min-key
    or max-key, and [ValidateDocument] takes a size of 0 for the malformed
    signal: a buffer made of a length prefix, walkable encoded fields and
    then an element of one of the four tags is not valid, whatever follows
    the element.  [{"a": null}], the 8 bytes [08 00 00 00 0a 61 00 00], is
    such a buffer. *)
Theorem ValidateDocument_rejects_empty_valued :
  forall before tag key rest size,
    walkable before = true ->
    nul_free key = true ->
    empty_valued tag = true ->
    1 <= len rest ->
    let body := bson_elements before ++ (tag :: key ++ [x00]) ++ rest in
    4 + len body <= INT32_MAX ->
    (forall value remaining, GetValueSize tag value remaining = 0)
    /\ ValidateDocument (le_bytes 4 (4 + len body) ++ body) size = false.
Proof.
  intros before tag key rest size Hw Hnul Htag Hrest body Hmax. split.
  - intros value remaining. now apply GetValueSize_empty_valued.
  - now apply ValidateDocument_empty_valued.
Qed.

Lemma ValidateDocument_rejects_empty_valued_witness :
  GetValueSize NULL_VALUE [x00] 1 = 0
  /\ ValidateDocument null_field_document 8 = false.
Proof.
  assert (1 <= len [x00]) as Hrest by (unfold len; simpl; lia).
  assert (4 + len (bson_elements [] ++ (NULL_VALUE :: bytes "a" ++ [x00]) ++ [x00])
          <= INT32_MAX) as Hmax by (vm_compute; discriminate).
  destruct (ValidateDocument_rejects_empty_valued [] NULL_VALUE (bytes "a") [x00] 8
              eq_refl eq_refl eq_refl Hrest Hmax) as [Hsize Hvalid].
  split; [apply Hsize | exact Hvalid].
Defined.

(** The locator takes the size 0 for the malformed signal as well: the
    field of [{"a": null}] is not found, and its type is reported as NULL,
    not as "null". *)
Lemma null_field_is_not_found :
  fst (FindElement null_field_document 8 (bytes "a") 1 no_element) = false
  /\ BSONTypeFunction null_field_document "$.a" no_element = RowNull
  /\ BSONExistsFunction null_field_document "$.a" no_element = RowValue false.
Proof. repeat split; reflexivity. Qed.

(** C3. The encoder runs the object iterator over an array as over an
    object; the iterator yields nothing for an array, so every array comes
    out as the empty container [05 00 00 00 00], with no field for its
    elements: the root [[1, 2]] is encoded as the empty document, and in
    [{"a": [1, 2]}] the field ["a"] has the array tag and the empty
    container for its value. *)
Theorem JSONToBSONDocument_array_is_empty :
  (forall elems cap max_size,
      5 <= cap ->
      5 <= max_size <= UINT64_MAX ->
      JSONToBSONDocument (JArr elems) cap max_size = Done (5, empty_document))
  /\ CastJSONToBSON 5 (Some (JArr [JUint 1; JUint 2])) = CastBlob empty_document
  /\ CastJSONToBSON 11 (Some (JObj [(bytes "a", JArr [JUint 1; JUint 2])]))
     = CastBlob [x0d; x00; x00; x00; x04; x61; x00;
                 x05; x00; x00; x00; x00; x00].
Proof.
  split; [|split; reflexivity].
  intros elems cap max_size Hcap Hsize.
  pose proof (JSONToBSONDocument_fits (JArr elems) cap max_size eq_refl) as H.
  change (bson_document (JArr elems)) with empty_document in H.
  change (len empty_document) with 5 in H.
  apply H; [exact Hcap | exact Hsize | unfold INT32_MAX; lia].
Qed.

Lemma JSONToBSONDocument_array_is_empty_witness :
  JSONToBSONDocument (JArr [JStr (bytes "x"); JNull; JBool true]) 1030 1030
  = Done (5, empty_document).
Proof.
  apply (proj1 JSONToBSONDocument_array_is_empty);
    unfold UINT64_MAX; lia.
Defined.

(** C4. An unsigned integer is stored as an [int64] whatever its value: the
    range test of the signed branch is not made in the unsigned one.
    [{"a": 2147483647}], whose number yyjson reads as an unsigned integer,
    is encoded with the tag [0x12] and 8 bytes; its signed siblings take 4
    bytes inside the [int32] range and 8 outside. *)
Theorem encoder_unsigned_is_int64 :
  (forall key num cap max_size,
      len key + 15 <= cap ->
      len key + 15 <= max_size <= UINT64_MAX ->
      len key + 15 <= INT32_MAX ->
      JSONToBSONDocument (JObj [(key, JUint num)]) cap max_size
      = Done (len key + 15,
              frame ((INT64 :: key ++ [x00]) ++ le_bytes 8 (to_int64 num))))
  /\ CastJSONToBSON 16 (Some (JObj [(bytes "a", JUint 2147483647)]))
     = CastBlob [x10; x00; x00; x00; x12; x61; x00;
                 xff; xff; xff; x7f; x00; x00; x00; x00; x00]
  /\ cast_field_tag (JUint 2147483647) = Some INT64
  /\ cast_field_tag (JUint 2147483648) = Some INT64
  /\ cast_field_tag (JSint 2147483647) = Some INT32
  /\ cast_field_tag (JSint 2147483648) = Some INT64
  /\ cast_field_tag (JSint (-2147483648)) = Some INT32
  /\ cast_field_tag (JSint (-2147483649)) = Some INT64.
Proof.
  split; [|repeat split; reflexivity].
  intros key num cap max_size Hcap Hsize Hmax.
  pose proof (len_nonneg key) as Hk.
  assert (bson_document (JObj [(key, JUint num)])
          = frame ((INT64 :: key ++ [x00]) ++ le_bytes 8 (to_int64 num))) as Edoc.
  { unfold bson_document. cbn [yyjson_obj_iter].
    unfold bson_elements. cbn [flat_map]. unfold bson_element. cbn [fst snd].
    rewrite app_nil_r. reflexivity. }
  assert (len (bson_document (JObj [(key, JUint num)])) = len key + 15) as Elen
    by (rewrite Edoc, len_frame; norm_len; lia).
  rewrite <- Edoc, <- Elen.
  apply JSONToBSONDocument_fits; try reflexivity; lia.
Qed.

Lemma encoder_unsigned_is_int64_witness :
  JSONToBSONDocument (JObj [(bytes "a", JUint 5)]) 1056 1056
  = Done (16, [x10; x00; x00; x00; x12; x61; x00;
               x05; x00; x00; x00; x00; x00; x00; x00; x00]).
Proof.
  apply (proj1 encoder_unsigned_is_int64 (bytes "a") 5 1056 1056);
    unfold len, UINT64_MAX, INT32_MAX; simpl; lia.
Defined.

(** * The encoder and the round trip *)

Lemma string_t_all (bytes : list byte) : string_t bytes (len bytes) = bytes.
Proof. unfold string_t, len. rewrite Nat2Z.id. apply firstn_all. Qed.

Lemma length_string_of_list_byte (key : list byte) :
  String.length (string_of_list_byte key) = List.length key.
Proof.
  unfold string_of_list_byte.
  induction key as [|b key IH]; [reflexivity|]. cbn. now rewrite IH.
Qed.

(** What the cast hands back is the closed form of the document, whole. *)
Lemma CastJSONToBSON_blob (json_size : Z) (doc : option yyjson_val) (blob : list byte) :
  CastJSONToBSON json_size doc = CastBlob blob ->
  exists root,
    doc = Some root
    /\ JSONToBSONDocument root (to_idx (json_size * 2 + 1024))
         (to_idx (json_size * 2 + 1024)) = Done (len blob, blob)
    /\ blob = bson_document root
    /\ len blob <= INT32_MAX.
Proof.
  unfold CastJSONToBSON. destruct doc as [root|]; [|discriminate].
  destruct (negb (yyjson_is_obj root) && negb (yyjson_is_arr root)); [discriminate|].
  destruct (JSONToBSONDocument root _ _) as [[written data]|e|] eqn:E; try discriminate.
  intros H. injection H as <-.
  destruct (JSONToBSONDocument_exact root _ _ _ _ E) as (-> & -> & Hmax).
  rewrite string_t_all. exists root. repeat split; assumption.
Qed.

(** A string the encoder wrote, read back the way [bson_extract_string]
    reads it. *)
Lemma WriteBSONString_read_back (str rest : list byte) :
  len str + 1 <= INT32_MAX ->
  let value := WriteBSONString str (len str) ++ rest in
  ReadInt32 value = len str + 1
  /\ string_t (ptr_add value 4) (ReadInt32 value - 1) = str.
Proof.
  intros Hmax value. subst value. unfold WriteBSONString.
  pose proof (len_nonneg str) as Hstr.
  rewrite <- !app_assoc. rewrite ReadInt32_le_bytes.
  assert (to_int32 (len str + 1) = len str + 1) as E
    by (apply to_int32_id; unfold INT32_MIN, INT32_MAX in *; lia).
  rewrite !E. split; [reflexivity|].
  change 4 with (len (le_bytes 4 (len str + 1))) at 1.
  rewrite ptr_add_app.
  replace (len str + 1 - 1) with (len str) by lia.
  apply string_t_app.
Qed.

(** The guards of the encoder are tested against [remaining] only, and
    before the value is stored: with 8 bytes for an object of one field,
    of the empty key and the number 0, the test for the element passes and
    the 8 bytes of the number are stored past the end of the allocation. *)
Lemma encoder_guard_is_not_enough :
  JSONToBSONDocument (JObj [([], JUint 0)]) 8 8 = Undefined.
Proof. reflexivity. Qed.

(** The other failure cause: a raw value among the fields. *)
Lemma encoder_throws_on_raw :
  JSONToBSONDocument (JObj [(bytes "a", JRaw (bytes "1"))]) 1030 1030
  = Throw UnsupportedJSONType.
Proof. reflexivity. Qed.

(** * The margin of the cast *)

Lemma json_text_min_obj (fields : list (list byte * yyjson_val)) :
  json_text_min (JObj fields) = 1 + json_fields_min fields.
Proof.
  cbn [json_text_min]. f_equal.
  induction fields as [|[key v] fields IH]; [reflexivity|].
  rewrite IH. unfold json_fields_min. cbn [fold_right fst snd]. lia.
Qed.

(** A document is at most twice as long as its text, and 3 bytes. *)
Lemma bson_document_bound (val : yyjson_val) :
  len (bson_document val) <= 2 * json_text_min val + 3.
Proof.
  induction val as [val Hleaf|fields IH] using yyjson_val_fields_ind.
  - assert (yyjson_obj_iter val = []) as E by (destruct val; try reflexivity; discriminate).
    unfold bson_document. rewrite E.
    change (len (frame (bson_elements []))) with 5.
    enough (1 <= json_text_min val) by lia.
    destruct val; try discriminate; cbn [json_text_min]; try lia.
    pose proof (len_nonneg str). lia.
  - unfold bson_document. cbn [yyjson_obj_iter].
    rewrite len_frame, json_text_min_obj.
    enough (len (bson_elements fields) <= 2 * json_fields_min fields) by lia.
    induction IH as [|[key v] fields Hv _ IHf].
    + change (len (bson_elements [])) with 0.
      change (json_fields_min []) with 0. lia.
    + rewrite bson_elements_cons. cbn [json_fields_min fold_right fst snd].
      fold (json_fields_min fields). cbn [snd] in Hv.
      pose proof (len_nonneg key) as Hk.
      norm_len.
      enough (len (bson_value v) <= len key + 6 + 2 * json_text_min v) by lia.
      destruct v as [raw| |b|num|num|bits|str|elems|fs].
      * change (len (bson_value (JRaw raw))) with 0.
        change (json_text_min (JRaw raw)) with 1. lia.
      * change (len (bson_value JNull)) with 0. change (json_text_min JNull) with 4. lia.
      * change (len (bson_value (JBool b))) with 1.
        change (json_text_min (JBool b)) with 4. lia.
      * cbn [bson_value json_text_min]. unfold WriteBSONInt64. norm_len. lia.
      * cbn [bson_value json_text_min].
        destruct (in_int32 num); unfold WriteBSONInt32, WriteBSONInt64; norm_len; lia.
      * cbn [bson_value json_text_min]. unfold WriteBSONDouble. norm_len. lia.
      * cbn [bson_value json_text_min]. unfold WriteBSONString. norm_len.
        pose proof (len_nonneg str). lia.
      * cbn [bson_value json_text_min]. rewrite len_frame. norm_len. lia.
      * rewrite (bson_value_container (JObj fs)) by (right; reflexivity). lia.
Qed.

(** X26. The margin of the cast is enough for the tree of a JSON text:
    with a buffer of twice the size of the text and 1024 bytes, the cast of
    a supported tree whose text has [json_size] bytes hands back the
    document; it neither throws for lack of room nor writes past the
    buffer. *)
Lemma CastJSONToBSON_margin (json_size : Z) (root : yyjson_val) :
  yyjson_is_obj root || yyjson_is_arr root = true ->
  supported root = true ->
  json_text_min root <= json_size ->
  json_size * 2 + 1024 <= INT32_MAX ->
  CastJSONToBSON json_size (Some root) = CastBlob (bson_document root).
Proof.
  intros Hroot Hsup Hmin Hmax. unfold CastJSONToBSON.
  assert (negb (yyjson_is_obj root) && negb (yyjson_is_arr root) = false) as ->
    by (rewrite <- negb_orb, Hroot; reflexivity).
  pose proof (bson_document_bound root) as Hbound.
  pose proof (len_nonneg (bson_document root)) as Hlen.
  rewrite to_idx_id by (unfold UINT64_MAX, INT32_MAX in *; lia).
  rewrite JSONToBSONDocument_fits;
    try assumption; unfold UINT64_MAX, INT32_MAX in *; try lia.
  now rewrite string_t_all.
Qed.

Lemma CastJSONToBSON_margin_witness :
  CastJSONToBSON 15 (Some (JObj [(bytes "name", JStr (bytes "John"))]))
  = CastBlob (bson_document (JObj [(bytes "name", JStr (bytes "John"))])).
Proof.
  apply CastJSONToBSON_margin.
  - reflexivity.
  - reflexivity.
  - vm_compute. discriminate.
  - vm_compute. discriminate.
Defined.

(** * What the read path looks at *)

Lemma same_prefix_agree (n : Z) (a b : ptr) :
  same_prefix n a b -> agree 0 n a b.
Proof.
  intros H i Hi. unfold byte_at.
  assert (forall l : ptr, nth (Z.to_nat i) l x00
                          = nth (Z.to_nat i) (firstn (Z.to_nat n) l) x00) as E.
  { intros l. rewrite nth_firstn.
    destruct (Nat.ltb_spec (Z.to_nat i) (Z.to_nat n)); [reflexivity|lia]. }
  rewrite (E a), (E b), H. reflexivity.
Qed.

Lemma agree_weaken (lo hi lo' hi' : Z) (a b : ptr) :
  agree lo hi a b -> lo <= lo' -> hi' <= hi -> agree lo' hi' a b.
Proof. intros H Hlo Hhi i Hi. apply H. lia. Qed.

Lemma byte_at_ptr_add (data : ptr) (pos i : Z) :
  0 <= pos -> 0 <= i -> byte_at (ptr_add data pos) i = byte_at data (pos + i).
Proof.
  intros Hp Hi. unfold byte_at, ptr_add. rewrite nth_skipn.
  f_equal. lia.
Qed.

Lemma agree_ptr_add (data data' : ptr) (pos n : Z) :
  0 <= pos -> agree pos (pos + n) data data' ->
  agree 0 n (ptr_add data pos) (ptr_add data' pos).
Proof.
  intros Hp H i Hi. rewrite !byte_at_ptr_add by lia. apply H. lia.
Qed.

Lemma byte_at_hd (p : ptr) : hd x00 p = byte_at p 0.
Proof. destruct p; reflexivity. Qed.

Lemma byte_at_tl (p : ptr) (i : Z) : 0 <= i -> byte_at (tl p) i = byte_at p (i + 1).
Proof.
  intros Hi. unfold byte_at.
  replace (Z.to_nat (i + 1)) with (S (Z.to_nat i)) by lia.
  destruct p as [|b p]; [|reflexivity]. destruct (Z.to_nat i); reflexivity.
Qed.

Lemma le_unsigned_agree (n : nat) (a b : ptr) :
  agree 0 (Z.of_nat n) a b -> le_unsigned n a = le_unsigned n b.
Proof.
  revert a b. induction n as [|n IH]; intros a b H; [reflexivity|].
  cbn [le_unsigned]. rewrite !byte_at_hd, (H 0) by lia. f_equal. f_equal.
  apply IH. intros i Hi. rewrite !byte_at_tl by lia. apply H. lia.
Qed.

Lemma ReadInt32_agree (a b : ptr) : agree 0 4 a b -> ReadInt32 a = ReadInt32 b.
Proof. intros H. unfold ReadInt32. f_equal. now apply (le_unsigned_agree 4). Qed.

Lemma skip_cstring_from_agree (fuel : nat) (a b : ptr) (limit pos : Z) :
  agree pos limit a b ->
  skip_cstring_from fuel a limit pos = skip_cstring_from fuel b limit pos.
Proof.
  revert pos. induction fuel as [|fuel IH]; intros pos H; [reflexivity|].
  cbn [skip_cstring_from].
  destruct (Z.ltb_spec pos limit) as [Hlt|Hge]; [|reflexivity].
  rewrite (H pos) by lia. cbn [andb].
  destruct (negb _); [|reflexivity].
  apply IH. eapply agree_weaken; [exact H|lia|lia].
Qed.

Lemma skip_cstring_agree (a b : ptr) (limit pos : Z) :
  agree pos limit a b -> skip_cstring a limit pos = skip_cstring b limit pos.
Proof. apply skip_cstring_from_agree. Qed.

Lemma GetValueSize_agree (type : BSONType) (value value' : ptr) (remaining : Z) :
  agree 0 remaining value value' ->
  GetValueSize type value remaining = GetValueSize type value' remaining.
Proof.
  intros H. unfold GetValueSize.
  destruct (Z.ltb_spec remaining 1) as [|H1]; [reflexivity|].
  assert (remaining < 4 \/ ReadInt32 value = ReadInt32 value') as H4.
  { destruct (Z.lt_ge_cases remaining 4); [left; assumption|right].
    apply ReadInt32_agree. eapply agree_weaken; [exact H|lia|lia]. }
  assert (skip_cstring value remaining 0 = skip_cstring value' remaining 0) as Hs0
    by (apply skip_cstring_agree; exact H).
  assert (skip_cstring value remaining (skip_cstring value remaining 0 + 1)
          = skip_cstring value' remaining (skip_cstring value' remaining 0 + 1)) as Hs1.
  { rewrite <- Hs0. apply skip_cstring_agree.
    pose proof (skip_cstring_ge value remaining 0).
    eapply agree_weaken; [exact H|lia|lia]. }
  cbv zeta.
  destruct type; try reflexivity;
    try (rewrite Hs1, Hs0; reflexivity);
    try (destruct H4 as [H4|H4];
         [ assert ((remaining <? 4) = true) as E by (apply Z.ltb_lt; exact H4);
           rewrite ?E;
           try (assert ((remaining <? 5) = true) as E5 by (apply Z.ltb_lt; lia);
                rewrite E5);
           reflexivity
         | rewrite H4; reflexivity ]).
Qed.

Lemma validate_elements_agree (fuel : nat) (data data' : ptr) (size doc_len pos : Z) :
  agree 0 doc_len data data' ->
  0 <= pos ->
  validate_elements fuel data size doc_len pos
  = validate_elements fuel data' size doc_len pos.
Proof.
  revert pos. induction fuel as [|fuel IH]; intros pos H Hpos; [reflexivity|].
  cbn [validate_elements].
  destruct (Z.ltb_spec pos (doc_len - 1)) as [Hlt|Hge]; [|reflexivity].
  destruct (size <=? pos); [reflexivity|].
  rewrite (H pos) by lia.
  assert (skip_cstring data doc_len (pos + 1) = skip_cstring data' doc_len (pos + 1)) as Es
    by (apply skip_cstring_agree; eapply agree_weaken; [exact H|lia|lia]).
  rewrite Es. set (p := skip_cstring data' doc_len (pos + 1)).
  pose proof (skip_cstring_ge data' doc_len (pos + 1)) as Hp. fold p in Hp.
  destruct (Z.leb_spec doc_len p) as [|Hlt']; [reflexivity|].
  rewrite (GetValueSize_agree _ (ptr_add data (p + 1)) (ptr_add data' (p + 1)))
    by (apply agree_ptr_add; [lia|]; eapply agree_weaken; [exact H|lia|lia]).
  set (vs := GetValueSize _ _ _).
  pose proof (GetValueSize_nonneg (byte_at data' pos) (ptr_add data' (p + 1))
                (doc_len - (p + 1))) as Hvs. fold vs in Hvs.
  destruct ((vs =? 0) || (doc_len - (p + 1) <? vs)); [reflexivity|].
  apply IH; [exact H|lia].
Qed.

Lemma validate_elements_size (fuel : nat) (data : ptr) (size size' doc_len pos : Z) :
  doc_len <= size -> doc_len <= size' -> 0 <= pos ->
  validate_elements fuel data size doc_len pos
  = validate_elements fuel data size' doc_len pos.
Proof.
  intros Hs Hs'. revert pos. induction fuel as [|fuel IH]; intros pos Hpos; [reflexivity|].
  cbn [validate_elements].
  destruct (Z.ltb_spec pos (doc_len - 1)) as [Hlt|Hge]; [|reflexivity].
  assert ((size <=? pos) = false) as -> by (apply Z.leb_gt; lia).
  assert ((size' <=? pos) = false) as -> by (apply Z.leb_gt; lia).
  set (p := skip_cstring data doc_len (pos + 1)).
  pose proof (skip_cstring_ge data doc_len (pos + 1)) as Hp. fold p in Hp.
  destruct (doc_len <=? p); [reflexivity|].
  set (vs := GetValueSize _ _ _).
  pose proof (GetValueSize_nonneg (byte_at data pos) (ptr_add data (p + 1))
                (doc_len - (p + 1))) as Hvs. fold vs in Hvs.
  destruct ((vs =? 0) || (doc_len - (p + 1) <? vs)); [reflexivity|].
  apply IH. lia.
Qed.

(** X1. The size table looks at the [remaining] bytes of its window only:
    on two buffers with the same first [remaining] bytes it gives the same
    size. *)
Theorem GetValueSize_reads_window_only :
  forall type value value' remaining,
    same_prefix remaining value value' ->
    GetValueSize type value remaining = GetValueSize type value' remaining.
Proof.
  intros type value value' remaining H.
  apply GetValueSize_agree, same_prefix_agree, H.
Qed.

Lemma GetValueSize_reads_window_only_witness :
  GetValueSize STRING [x02; x00; x00; x00; x41; x00; x07] 6
  = GetValueSize STRING [x02; x00; x00; x00; x41; x00; xff; xff] 6.
Proof.
  apply GetValueSize_reads_window_only. reflexivity.
Defined.

(** X2. [ValidateDocument] looks at the declared length of the document
    only: a buffer it accepts stays accepted when the bytes behind the
    declared length are cut off or replaced, and for any [size] of at least
    the declared length. *)
Theorem ValidateDocument_reads_document_only :
  forall data size data' size',
    ValidateDocument data size = true ->
    same_prefix (ReadInt32 data) data data' ->
    ReadInt32 data <= size' ->
    ValidateDocument data' size' = true.
Proof.
  intros data size data' size' Hvalid Hsame Hsize'.
  apply ValidateDocument_returns in Hvalid.
  destruct Hvalid as ((H5 & Hsize) & Hterm & Hloop).
  apply same_prefix_agree in Hsame.
  assert (ReadInt32 data' = ReadInt32 data) as E
    by (symmetry; apply ReadInt32_agree; eapply agree_weaken; [exact Hsame|lia|lia]).
  unfold ValidateDocument. cbv zeta. rewrite E.
  assert ((size' <? 5) = false) as -> by (apply Z.ltb_ge; lia).
  assert ((ReadInt32 data <? 5) = false) as -> by (apply Z.ltb_ge; lia).
  assert ((size' <? ReadInt32 data) = false) as -> by (apply Z.ltb_ge; lia).
  cbn [orb].
  rewrite <- (Hsame (ReadInt32 data - 1)) by lia. rewrite Hterm.
  cbn [Byte.eqb negb].
  rewrite <- (validate_elements_agree _ data data') by (assumption || lia).
  rewrite (validate_elements_size _ data size' size) by lia.
  rewrite Hloop. reflexivity.
Qed.

Lemma ValidateDocument_reads_document_only_witness :
  ValidateDocument (firstn 20 (john_document ++ [xff; xff])) 20 = true.
Proof.
  apply (ValidateDocument_reads_document_only (john_document ++ [xff; xff]) 22).
  - reflexivity.
  - reflexivity.
  - vm_compute. discriminate.
Defined.

(** * What the locator returns *)

Lemma skip_cstring_from_stop (fuel : nat) (data : ptr) (limit pos : Z) :
  (Z.to_nat (limit - pos) <= fuel)%nat ->
  let r := skip_cstring_from fuel data limit pos in
  (r < limit -> byte_at data r = x00)
  /\ (forall i, pos <= i < r -> byte_at data i <> x00).
Proof.
  revert pos. induction fuel as [|fuel IH]; intros pos Hfuel; cbn [skip_cstring_from].
  - split; [lia|]. intros i Hi. lia.
  - destruct (Z.ltb_spec pos limit) as [Hlt|Hge]; cbn [andb].
    + destruct (Byte.eqb (byte_at data pos) x00) eqn:E; cbn [negb].
      * apply Byte.byte_dec_bl in E. split; [auto|]. intros i Hi. lia.
      * destruct (IH (pos + 1) ltac:(lia)) as [H1 H2]. split; [exact H1|].
        intros i Hi. destruct (Z.eq_dec i pos) as [->|Hne].
        -- intros C. rewrite C in E. discriminate.
        -- apply H2. lia.
    + split; [lia|]. intros i Hi. lia.
Qed.

Lemma skip_cstring_stop (data : ptr) (limit pos : Z) :
  let r := skip_cstring data limit pos in
  (r < limit -> byte_at data r = x00)
  /\ (forall i, pos <= i < r -> byte_at data i <> x00).
Proof. apply skip_cstring_from_stop. lia. Qed.

Lemma find_elements_sound (fuel : nat) (doc_data : ptr) (doc_len pos : Z)
    (key : ptr) (key_len : Z) (result elem : BSONElement) :
  find_elements fuel doc_data doc_len pos key key_len result = Some (true, elem) ->
  0 <= pos ->
  exists p,
    pos <= p < doc_len - 1
    /\ elem = BSONElement.mk (byte_at doc_data p) (ptr_add doc_data (p + 1)) key_len
                (ptr_add doc_data (p + 1 + key_len + 1))
                (GetValueSize (byte_at doc_data p)
                   (ptr_add doc_data (p + 1 + key_len + 1))
                   (doc_len - (p + 1 + key_len + 1)))
    /\ 0 <= key_len
    /\ 0 < BSONElement.value_len elem
    /\ p + 1 + key_len + 1 + BSONElement.value_len elem <= doc_len
    /\ byte_at doc_data (p + 1 + key_len) = x00
    /\ (forall i, p + 1 <= i < p + 1 + key_len -> byte_at doc_data i <> x00)
    /\ memcmp_eq (ptr_add doc_data (p + 1)) key (Z.to_nat key_len) = true.
Proof.
  revert pos result. induction fuel as [|fuel IH]; intros pos result H Hpos;
    [discriminate|].
  cbn [find_elements] in H.
  destruct (Z.ltb_spec pos (doc_len - 1)) as [Hlt|Hge]; [|discriminate].
  set (r := skip_cstring doc_data doc_len (pos + 1)) in *.
  pose proof (skip_cstring_ge doc_data doc_len (pos + 1)) as Hr. fold r in Hr.
  destruct (skip_cstring_stop doc_data doc_len (pos + 1)) as [Hnul Hkey].
  fold r in Hnul, Hkey.
  destruct (Z.leb_spec doc_len r) as [|Hrl]; [discriminate|].
  unfold BSONElement.set_type, BSONElement.set_key, BSONElement.set_key_len,
    BSONElement.set_value, BSONElement.set_value_len in H.
  cbn [BSONElement.type BSONElement.key BSONElement.key_len BSONElement.value
       BSONElement.value_len] in H.
  set (vs := GetValueSize (byte_at doc_data pos) (ptr_add doc_data (r + 1))
               (doc_len - (r + 1))) in *.
  pose proof (GetValueSize_nonneg (byte_at doc_data pos) (ptr_add doc_data (r + 1))
                (doc_len - (r + 1))) as Hvs. fold vs in Hvs.
  destruct (Z.eqb_spec vs 0) as [|Hvs0]; [discriminate|].
  destruct (Z.ltb_spec (doc_len - (r + 1)) vs) as [|Hfit]; [discriminate|].
  cbn [orb] in H.
  destruct (Z.eqb_spec (r - (pos + 1)) key_len) as [Ekl|]; cbn [andb] in H.
  - destruct (memcmp_eq (ptr_add doc_data (pos + 1)) key (Z.to_nat key_len)) eqn:M.
    + clear IH. injection H as <-. exists pos.
      assert (r = pos + 1 + key_len) as Er by lia.
      cbn [BSONElement.value_len]. clearbody r. subst r.
      replace (pos + 1 + key_len - (pos + 1)) with key_len by lia.
      repeat split; try lia; try assumption.
      * apply Hnul. lia.
    + apply IH in H; [|lia]. destruct H as (p & Hp & Hrest).
      exists p. split; [lia|exact Hrest].
  - apply IH in H; [|lia]. destruct H as (p & Hp & Hrest).
    exists p. split; [lia|exact Hrest].
Qed.

Lemma FindElement_value (doc_data : ptr) (doc_size : Z) (key : ptr) (key_len : Z)
    (result elem : BSONElement) :
  FindElement doc_data doc_size key key_len result = (true, elem) ->
  exists off,
    4 < off
    /\ BSONElement.value elem = ptr_add doc_data off
    /\ BSONElement.value_len elem
       = GetValueSize (BSONElement.type elem) (BSONElement.value elem)
           (ReadInt32 doc_data - off)
    /\ 0 < BSONElement.value_len elem
    /\ off + BSONElement.value_len elem <= ReadInt32 doc_data
    /\ ReadInt32 doc_data <= doc_size.
Proof.
  intros H. unfold FindElement in H. cbv zeta in H.
  destruct (doc_size <? 5); [discriminate|].
  destruct (Z.ltb_spec (ReadInt32 doc_data) 5) as [|H5]; [discriminate|].
  destruct (Z.ltb_spec doc_size (ReadInt32 doc_data)) as [|Hsz]; [discriminate|].
  cbn [orb] in H.
  destruct (find_elements _ _ _ _ _ _ _) as [r|] eqn:E; [|discriminate].
  subst r. apply find_elements_sound in E; [|lia].
  destruct E as (p & Hp & -> & Hkl & Hvs & Hend & _).
  cbn [BSONElement.type BSONElement.value BSONElement.value_len] in *.
  exists (p + 1 + key_len + 1). repeat split; try lia.
Qed.

(** X3. What [FindElement] returns with [true]: the declared length of the
    document is between 5 and [doc_size]; the element starts at an offset
    [p] behind the length prefix; its tag is the byte at [p], its key the
    [key_len] bytes behind it, equal to the key asked for, without a NUL
    and followed by one; its value starts behind that NUL, has the size the
    size table gives, which is not 0, and ends before the declared
    length. *)
Theorem FindElement_sound :
  forall doc_data doc_size key key_len result elem,
    FindElement doc_data doc_size key key_len result = (true, elem) ->
    let doc_len := ReadInt32 doc_data in
    5 <= doc_len <= doc_size
    /\ exists p,
         4 <= p < doc_len - 1
         /\ BSONElement.type elem = byte_at doc_data p
         /\ BSONElement.key elem = ptr_add doc_data (p + 1)
         /\ BSONElement.key_len elem = key_len
         /\ 0 <= key_len
         /\ memcmp_eq (BSONElement.key elem) key (Z.to_nat key_len) = true
         /\ (forall i, 0 <= i < key_len -> byte_at (BSONElement.key elem) i <> x00)
         /\ byte_at (BSONElement.key elem) key_len = x00
         /\ BSONElement.value elem = ptr_add doc_data (p + 1 + key_len + 1)
         /\ BSONElement.value_len elem
            = GetValueSize (BSONElement.type elem) (BSONElement.value elem)
                (doc_len - (p + 1 + key_len + 1))
         /\ 0 < BSONElement.value_len elem
         /\ p + 1 + key_len + 1 + BSONElement.value_len elem <= doc_len.
Proof.
  intros doc_data doc_size key key_len result elem H doc_len.
  unfold FindElement in H. cbv zeta in H. fold doc_len in H.
  destruct (doc_size <? 5); [discriminate|].
  destruct (Z.ltb_spec doc_len 5) as [|H5]; [discriminate|].
  destruct (Z.ltb_spec doc_size doc_len) as [|Hsz]; [discriminate|].
  cbn [orb] in H.
  destruct (find_elements _ _ _ _ _ _ _) as [r|] eqn:E; [|discriminate].
  subst r. apply find_elements_sound in E; [|lia].
  destruct E as (p & Hp & -> & Hkl & Hvs & Hend & Hnul & Hkey & Hcmp).
  split; [lia|]. exists p.
  cbn [BSONElement.type BSONElement.key BSONElement.key_len BSONElement.value
       BSONElement.value_len] in *.
  repeat split; try lia; try assumption.
  - intros i Hi. rewrite byte_at_ptr_add by lia. apply Hkey. lia.
  - rewrite byte_at_ptr_add by lia. rewrite <- Hnul. f_equal.
Qed.

Lemma FindElement_sound_witness :
  5 <= ReadInt32 john_document <= 20.
Proof.
  exact (proj1 (FindElement_sound john_document 20 (bytes "name") 4 no_element
                  _ eq_refl)).
Defined.

(** * What the validator accepts *)

Lemma skip_cstring_unique (data : ptr) (limit pos key_end : Z) :
  pos <= key_end < limit ->
  (forall i, pos <= i < key_end -> byte_at data i <> x00) ->
  byte_at data key_end = x00 ->
  skip_cstring data limit pos = key_end.
Proof.
  intros Hr Hkey Hnul.
  pose proof (skip_cstring_ge data limit pos) as Hge.
  destruct (skip_cstring_stop data limit pos) as [Hstop Hbefore].
  cbv zeta in Hstop, Hbefore.
  set (r := skip_cstring data limit pos) in *.
  destruct (Z.lt_trichotomy r key_end) as [Hlt|[Heq|Hgt]]; [|exact Heq|].
  - exfalso. apply (Hkey r); [lia|]. apply Hstop. lia.
  - exfalso. apply (Hbefore key_end); [lia|exact Hnul].
Qed.

Lemma validate_elements_chain (fuel : nat) (data : ptr) (size doc_len pos : Z) :
  validate_elements fuel data size doc_len pos = Some true ->
  element_chain data doc_len pos.
Proof.
  revert pos. induction fuel as [|fuel IH]; intros pos H; [discriminate|].
  cbn [validate_elements] in H. cbv zeta in H.
  destruct (Z.ltb_spec pos (doc_len - 1)) as [Hlt|Hge].
  - destruct (size <=? pos); [discriminate|].
    pose proof (skip_cstring_ge data doc_len (pos + 1)) as Hr.
    destruct (skip_cstring_stop data doc_len (pos + 1)) as [Hstop Hbefore].
    cbv zeta in Hstop, Hbefore.
    set (r := skip_cstring data doc_len (pos + 1)) in *.
    destruct (Z.leb_spec doc_len r); [discriminate|].
    pose proof (GetValueSize_nonneg (byte_at data pos) (ptr_add data (r + 1))
                  (doc_len - (r + 1))) as Hnn.
    set (vs := GetValueSize (byte_at data pos) (ptr_add data (r + 1))
                 (doc_len - (r + 1))) in *.
    destruct (Z.eqb_spec vs 0); [discriminate|].
    destruct (Z.ltb_spec (doc_len - (r + 1)) vs); [discriminate|].
    cbn [orb] in H.
    apply (chain_element data doc_len pos r vs); auto; try lia.
  - injection H as H. apply Z.eqb_eq in H. subst pos. constructor.
Qed.

Lemma element_chain_validates (data : ptr) (size doc_len pos : Z) :
  element_chain data doc_len pos ->
  doc_len <= size ->
  forall fuel,
    doc_len - 1 - pos < Z.of_nat fuel ->
    validate_elements fuel data size doc_len pos = Some true.
Proof.
  intros Hchain Hsize.
  induction Hchain as [|pos key_end vs Hlt Hr Hkey Hnul Hvs Hfit _ IH];
    intros fuel Hfuel; (destruct fuel as [|fuel]; [lia|]); cbn [validate_elements].
  - rewrite Z.ltb_irrefl, Z.eqb_refl. reflexivity.
  - cbv zeta.
    assert ((pos <? doc_len - 1) = true) as -> by (apply Z.ltb_lt; lia).
    assert ((size <=? pos) = false) as -> by (apply Z.leb_gt; lia).
    rewrite (skip_cstring_unique data doc_len (pos + 1) key_end) by assumption.
    assert ((doc_len <=? key_end) = false) as -> by (apply Z.leb_gt; lia).
    rewrite <- Hvs.
    assert ((vs =? 0) = false) as -> by (apply Z.eqb_neq; lia).
    assert ((doc_len - (key_end + 1) <? vs) = false) as -> by (apply Z.ltb_ge; lia).
    cbn [orb]. apply IH. lia.
Qed.

Lemma ValidateDocument_chain (data : ptr) (size : Z) :
  ValidateDocument data size = true ->
  5 <= ReadInt32 data <= size /\ element_chain data (ReadInt32 data) 4.
Proof.
  unfold ValidateDocument. cbv zeta. intros H.
  destruct (Z.ltb_spec size 5); [discriminate|].
  destruct (Z.ltb_spec (ReadInt32 data) 5); [discriminate|].
  destruct (Z.ltb_spec size (ReadInt32 data)); [discriminate|]. cbn [orb] in H.
  destruct (negb (Byte.eqb (byte_at data (ReadInt32 data - 1)) x00)); [discriminate|].
  destruct (validate_elements _ _ _ _ _) as [b|] eqn:Ev; [|discriminate]. subst b.
  apply validate_elements_chain in Ev. split; [lia|exact Ev].
Qed.

(** X4. What [ValidateDocument] accepts, stated on the bytes: a buffer is
    accepted exactly when its first four bytes give a length between 5 and
    [size], the byte at the end of that length is 0x00, and the bytes in
    between are elements laid end to end -- a tag, a key up to its first
    NUL, a value of the size the table gives for the tag, not 0 and within
    the document -- that end exactly at the terminator. *)
Theorem ValidateDocument_accepts_exactly :
  forall data size,
    ValidateDocument data size = true
    <-> (5 <= ReadInt32 data <= size
         /\ byte_at data (ReadInt32 data - 1) = x00
         /\ element_chain data (ReadInt32 data) 4).
Proof.
  intros data size. split.
  - intros H. destruct (ValidateDocument_chain data size H) as [Hlen Hchain].
    split; [exact Hlen|]. split; [|exact Hchain].
    now apply ValidateDocument_terminator with (size := size).
  - intros ((H5 & Hsize) & Ht & Hchain). unfold ValidateDocument. cbv zeta.
    assert ((size <? 5) = false) as -> by (apply Z.ltb_ge; lia).
    assert ((ReadInt32 data <? 5) = false) as -> by (apply Z.ltb_ge; lia).
    assert ((size <? ReadInt32 data) = false) as -> by (apply Z.ltb_ge; lia).
    cbn [orb]. rewrite Ht. change (Byte.eqb x00 x00) with true. cbn [negb].
    rewrite (element_chain_validates data size (ReadInt32 data) 4 Hchain Hsize);
      [reflexivity|lia].
Qed.

(** * The locator in a document the validator accepts *)

Lemma element_chain_next (data : ptr) (doc_len pos : Z) :
  element_chain data doc_len pos ->
  pos < doc_len - 1 ->
  let key_end := skip_cstring data doc_len (pos + 1) in
  let size := GetValueSize (byte_at data pos) (ptr_add data (key_end + 1))
                (doc_len - (key_end + 1)) in
  pos + 1 <= key_end < doc_len
  /\ 0 < size <= doc_len - (key_end + 1)
  /\ element_chain data doc_len (next_element data doc_len pos).
Proof.
  intros Hchain Hlt. cbv zeta.
  inversion Hchain as [Hend|pos' key_end size _ Hr Hkey Hnul Hsize Hfit Hnext]; [lia|].
  subst pos'. unfold next_element. cbv zeta.
  rewrite (skip_cstring_unique data doc_len (pos + 1) key_end) by assumption.
  rewrite <- Hsize. auto.
Qed.

Lemma element_at_le (data : ptr) (doc_len start pos : Z) :
  element_at data doc_len start pos -> start <= pos.
Proof.
  intros H. induction H as [|s q0 Hs Hq0 IHq]; [lia|].
  unfold next_element in IHq. cbv zeta in IHq.
  pose proof (skip_cstring_ge data doc_len (s + 1)) as Hge.
  pose proof (GetValueSize_nonneg (byte_at data s)
                (ptr_add data (skip_cstring data doc_len (s + 1) + 1))
                (doc_len - (skip_cstring data doc_len (s + 1) + 1))) as Hnn.
  lia.
Qed.

Lemma find_elements_complete (data : ptr) (doc_len : Z) (key : ptr) (key_len : Z)
    (start p : Z) :
  element_at data doc_len start p ->
  element_chain data doc_len start ->
  has_key data doc_len p key key_len = true ->
  forall fuel result,
    doc_len - 1 - start < Z.of_nat fuel ->
    exists q elem,
      find_elements fuel data doc_len start key key_len result = Some (true, elem)
      /\ start <= q <= p
      /\ element_at data doc_len start q
      /\ has_key data doc_len q key key_len = true
      /\ BSONElement.type elem = byte_at data q
      /\ BSONElement.key elem = ptr_add data (q + 1)
      /\ (forall q', element_at data doc_len start q' -> q' < q ->
                     has_key data doc_len q' key key_len = false).
Proof.
  intros Hat. induction Hat as [pos Hlt|start pos Hlt Hat IH];
    intros Hchain Hkey fuel result Hfuel;
    (destruct fuel as [|fuel]; [lia|]);
    destruct (element_chain_next _ _ _ Hchain Hlt) as (Hr & Hfit & Hnext);
    cbv zeta in Hr, Hfit; cbn [find_elements]; cbv zeta;
    unfold BSONElement.set_type, BSONElement.set_key, BSONElement.set_key_len,
      BSONElement.set_value, BSONElement.set_value_len;
    cbn [BSONElement.type BSONElement.key BSONElement.key_len BSONElement.value
         BSONElement.value_len].
  - assert ((pos <? doc_len - 1) = true) as -> by (apply Z.ltb_lt; lia).
    set (r := skip_cstring data doc_len (pos + 1)) in *.
    assert ((doc_len <=? r) = false) as -> by (apply Z.leb_gt; lia).
    set (vs := GetValueSize (byte_at data pos) (ptr_add data (r + 1))
                 (doc_len - (r + 1))) in *.
    assert ((vs =? 0) = false) as -> by (apply Z.eqb_neq; lia).
    assert ((doc_len - (r + 1) <? vs) = false) as -> by (apply Z.ltb_ge; lia).
    cbn [orb]. unfold has_key in Hkey. fold r in Hkey. rewrite Hkey.
    eexists pos, _. split; [reflexivity|].
    split; [lia|]. split; [constructor; lia|].
    split; [unfold has_key; fold r; exact Hkey|].
    split; [reflexivity|]. split; [reflexivity|].
    intros q' Hq' Hlt'. apply element_at_le in Hq'. lia.
  - assert ((start <? doc_len - 1) = true) as -> by (apply Z.ltb_lt; lia).
    set (r := skip_cstring data doc_len (start + 1)) in *.
    assert ((doc_len <=? r) = false) as -> by (apply Z.leb_gt; lia).
    set (vs := GetValueSize (byte_at data start) (ptr_add data (r + 1))
                 (doc_len - (r + 1))) in *.
    assert ((vs =? 0) = false) as -> by (apply Z.eqb_neq; lia).
    assert ((doc_len - (r + 1) <? vs) = false) as -> by (apply Z.ltb_ge; lia).
    cbn [orb].
    assert (next_element data doc_len start = r + 1 + vs) as Enext by reflexivity.
    destruct ((r - (start + 1) =? key_len)
              && memcmp_eq (ptr_add data (start + 1)) key (Z.to_nat key_len)) eqn:Hhere.
    + assert (start <= pos) as Hle.
      { apply element_at_le in Hat. rewrite Enext in Hat. lia. }
      eexists start, _. split; [reflexivity|].
      split; [lia|]. split; [constructor; lia|].
      split; [unfold has_key; fold r; exact Hhere|].
      split; [reflexivity|]. split; [reflexivity|].
      intros q' Hq' Hlt'. apply element_at_le in Hq'. lia.
    + rewrite Enext in *.
      destruct (IH Hnext Hkey fuel
                  (BSONElement.mk (byte_at data start) (ptr_add data (start + 1))
                     (r - (start + 1)) (ptr_add data (r + 1)) vs) ltac:(lia))
        as (q & elem & Hfind & Hq & Hatq & Hkq & Htype & Hkeyp & Hfirst).
      exists q, elem. split; [exact Hfind|].
      split; [lia|]. split; [apply element_next; [lia|rewrite Enext; exact Hatq]|].
      split; [exact Hkq|]. split; [exact Htype|]. split; [exact Hkeyp|].
      intros q' Hq' Hlt'.
      inversion Hq' as [pos' Hp' E1 E2|s pos' Hs Hnx E1 E2]; subst.
      * unfold has_key. fold r. exact Hhere.
      * rewrite Enext in Hnx. apply Hfirst; assumption.
Qed.

(** X5. In a buffer [ValidateDocument] accepts, [FindElement] finds every
    key an element has, and it finds the first element of that key: if the
    element at the offset [p] of the chain of elements has the key, the
    lookup returns [true] with the element at an offset [q], not behind
    [p], that has the key, and no element in front of [q] has it. *)
Theorem FindElement_complete :
  forall data size key key_len result p,
    ValidateDocument data size = true ->
    element_at data (ReadInt32 data) 4 p ->
    has_key data (ReadInt32 data) p key key_len = true ->
    exists q elem,
      FindElement data size key key_len result = (true, elem)
      /\ 4 <= q <= p
      /\ element_at data (ReadInt32 data) 4 q
      /\ has_key data (ReadInt32 data) q key key_len = true
      /\ BSONElement.type elem = byte_at data q
      /\ BSONElement.key elem = ptr_add data (q + 1)
      /\ (forall q', element_at data (ReadInt32 data) 4 q' -> q' < q ->
                     has_key data (ReadInt32 data) q' key key_len = false).
Proof.
  intros data size key key_len result p Hv Hat Hkey.
  apply ValidateDocument_chain in Hv. destruct Hv as ((H5 & Hsize) & Hchain).
  unfold FindElement. cbv zeta.
  assert ((size <? 5) = false) as -> by (apply Z.ltb_ge; lia).
  assert ((ReadInt32 data <? 5) = false) as -> by (apply Z.ltb_ge; lia).
  assert ((size <? ReadInt32 data) = false) as -> by (apply Z.ltb_ge; lia).
  cbn [orb].
  destruct (find_elements_complete data (ReadInt32 data) key key_len 4 p Hat Hchain
              Hkey (Z.to_nat (ReadInt32 data)) result ltac:(lia))
    as (q & elem & Hfind & Hrest).
  exists q, elem. rewrite Hfind. split; [reflexivity|exact Hrest].
Qed.

Lemma FindElement_complete_witness :
  exists q elem,
    FindElement twice_a_document 18 (bytes "a") 1 no_element = (true, elem)
    /\ 4 <= q <= 8
    /\ element_at twice_a_document (ReadInt32 twice_a_document) 4 q
    /\ has_key twice_a_document (ReadInt32 twice_a_document) q (bytes "a") 1 = true
    /\ BSONElement.type elem = byte_at twice_a_document q
    /\ BSONElement.key elem = ptr_add twice_a_document (q + 1)
    /\ (forall q', element_at twice_a_document (ReadInt32 twice_a_document) 4 q' ->
                   q' < q ->
                   has_key twice_a_document (ReadInt32 twice_a_document) q' (bytes "a") 1
                   = false).
Proof.
  apply (FindElement_complete twice_a_document 18 (bytes "a") 1 no_element 8).
  - reflexivity.
  - apply element_next; [vm_compute; reflexivity|].
    apply element_here. vm_compute. reflexivity.
  - reflexivity.
Defined.

(** * The validator and the locator walk the same way *)

Lemma validate_elements_true_pos (fuel : nat) (data : ptr) (size doc_len pos : Z) :
  validate_elements fuel data size doc_len pos = Some true -> pos <= doc_len - 1.
Proof.
  destruct fuel as [|fuel]; [discriminate|]. cbn [validate_elements].
  destruct (Z.ltb_spec pos (doc_len - 1)); [lia|].
  intros Hr. injection Hr as Hr. apply Z.eqb_eq in Hr. lia.
Qed.

Lemma find_elements_valid (fuel : nat) :
  forall fuel' data size doc_len pos key key_len result elem,
    validate_elements fuel data size doc_len pos = Some true ->
    find_elements fuel' data doc_len pos key key_len result = Some (true, elem) ->
    exists off,
      BSONElement.value elem = ptr_add data off
      /\ off + BSONElement.value_len elem <= doc_len - 1.
Proof.
  induction fuel as [|fuel IH];
    intros fuel' data size doc_len pos key key_len result elem Hv Hf; [discriminate|].
  destruct fuel' as [|fuel']; [discriminate|].
  cbn [validate_elements] in Hv. cbn [find_elements] in Hf. cbv zeta in Hv.
  destruct (Z.ltb_spec pos (doc_len - 1)); [|discriminate].
  destruct (size <=? pos); [discriminate|].
  set (r := skip_cstring data doc_len (pos + 1)) in *.
  destruct (Z.leb_spec doc_len r); [discriminate|].
  unfold BSONElement.set_type, BSONElement.set_key, BSONElement.set_key_len,
    BSONElement.set_value, BSONElement.set_value_len in Hf.
  cbn [BSONElement.type BSONElement.key BSONElement.key_len BSONElement.value
       BSONElement.value_len] in Hf.
  set (vs := GetValueSize (byte_at data pos) (ptr_add data (r + 1))
               (doc_len - (r + 1))) in *.
  destruct ((vs =? 0) || (doc_len - (r + 1) <? vs)); [discriminate|].
  destruct ((r - (pos + 1) =? key_len)
            && memcmp_eq (ptr_add data (pos + 1)) key (Z.to_nat key_len)).
  - injection Hf as <-. cbn [BSONElement.value BSONElement.value_len].
    exists (r + 1). split; [reflexivity|].
    apply validate_elements_true_pos in Hv. lia.
  - eapply IH; eassumption.
Qed.

(** X6. In a buffer [ValidateDocument] accepts, an element [FindElement]
    returns ends before the terminator of the document: its value starts at
    an offset of the buffer and its last byte lies before the offset
    [doc_len - 1]. *)
Theorem FindElement_in_valid_document :
  forall data size key key_len result elem,
    ValidateDocument data size = true ->
    FindElement data size key key_len result = (true, elem) ->
    exists off,
      BSONElement.value elem = ptr_add data off
      /\ 0 < BSONElement.value_len elem
      /\ off + BSONElement.value_len elem <= ReadInt32 data - 1
      /\ ReadInt32 data <= size
      /\ byte_at data (ReadInt32 data - 1) = x00.
Proof.
  intros data size key key_len result elem Hv Hf.
  destruct (FindElement_value _ _ _ _ _ _ Hf) as (off0 & _ & _ & _ & Hpos & _).
  unfold ValidateDocument in Hv. unfold FindElement in Hf. cbv zeta in Hv, Hf.
  destruct (size <? 5); [discriminate|].
  destruct (Z.ltb_spec (ReadInt32 data) 5); [discriminate|].
  destruct (Z.ltb_spec size (ReadInt32 data)); [discriminate|]. cbn [orb] in Hv, Hf.
  destruct (Byte.eqb (byte_at data (ReadInt32 data - 1)) x00) eqn:Ht;
    cbn [negb] in Hv; [|discriminate].
  apply Byte.byte_dec_bl in Ht.
  destruct (validate_elements _ _ _ _ _) as [b|] eqn:Ev; [|discriminate]. subst b.
  destruct (find_elements _ _ _ _ _ _ _) as [r|] eqn:Ef; [|discriminate]. subst r.
  destruct (find_elements_valid _ _ _ _ _ _ _ _ _ _ Ev Ef) as (off & Hoff & Hend).
  exists off. repeat split; assumption.
Qed.

Lemma FindElement_in_valid_document_witness :
  let elem := snd (FindElement john_document 20 (bytes "name") 4 no_element) in
  exists off,
    BSONElement.value elem = ptr_add john_document off
    /\ 0 < BSONElement.value_len elem
    /\ off + BSONElement.value_len elem <= ReadInt32 john_document - 1
    /\ ReadInt32 john_document <= 20
    /\ byte_at john_document (ReadInt32 john_document - 1) = x00.
Proof.
  apply (FindElement_in_valid_document john_document 20 (bytes "name") 4 no_element).
  - reflexivity.
  - reflexivity.
Defined.

(** * Tags and their names *)

(** X7. [TypeToString] names a tag at most once: two tags with the same
    name are the same tag. *)
Theorem TypeToString_injective :
  forall a b name,
    TypeToString a = Some name -> TypeToString b = Some name -> a = b.
Proof.
  intros a b name Ha Hb.
  destruct a; cbn [TypeToString] in Ha; try discriminate Ha;
    injection Ha as <-;
    destruct b; cbn [TypeToString] in Hb; try discriminate Hb; reflexivity.
Qed.

Lemma TypeToString_injective_witness : INT64 = x12.
Proof.
  apply (TypeToString_injective INT64 x12 "int64"); reflexivity.
Defined.

Lemma ptr_add_ptr_add (data : ptr) (a b : Z) :
  0 <= a -> 0 <= b -> ptr_add (ptr_add data a) b = ptr_add data (a + b).
Proof.
  intros Ha Hb. unfold ptr_add. rewrite skipn_skipn. f_equal. lia.
Qed.

Lemma lookup_within (data : ptr) (size : Z) (segment : PathSegment)
    (result elem : BSONElement) :
  lookup data size segment result = (true, elem) ->
  element_within data size elem.
Proof.
  intros H.
  assert (exists key key_len, FindElement data size key key_len result = (true, elem))
    as (key & key_len & Hf).
  { destruct segment; cbn [lookup] in H; [|unfold GetArrayElement in H];
      eauto. }
  apply FindElement_value in Hf.
  destruct Hf as (off & Hoff & Hv & Hvl & Hpos & Hend & Hsize).
  pose proof (to_int32_range (le_unsigned 4 data)) as Hr.
  fold (ReadInt32 data) in Hr.
  exists off, (ReadInt32 data - off).
  repeat split; try assumption; lia.
Qed.

Lemma element_within_nested (data : ptr) (size : Z) (outer elem : BSONElement) :
  element_within data size outer ->
  element_within (BSONElement.value outer) (BSONElement.value_len outer) elem ->
  element_within data size elem.
Proof.
  intros (off & rem & Hoff & Hrem & Hv & Hvl & Hpos & Hend)
         (off' & rem' & Hoff' & Hrem' & Hv' & Hvl' & Hpos' & Hend').
  exists (off + off'), rem'. rewrite Hv' at 1. rewrite Hv.
  rewrite ptr_add_ptr_add by lia. repeat split; try assumption; lia.
Qed.

Lemma TraversePath_from_within (segments : list PathSegment) :
  forall current_data current_size result elem,
    segments <> [] ->
    TraversePath_from current_data current_size segments result = (true, elem) ->
    element_within current_data current_size elem.
Proof.
  induction segments as [|segment rest IH]; intros data size result elem Hne H;
    [congruence|].
  cbn [TraversePath_from] in H.
  change (match segment with
          | KeySegment key =>
              FindElement data size (list_byte_of_string key)
                (Z.of_nat (String.length key)) result
          | IndexSegment index => GetArrayElement data size index result
          end) with (lookup data size segment result) in H.
  destruct (lookup data size segment result) as [found r] eqn:E.
  destruct found; cbn [negb] in H; [|discriminate].
  apply lookup_within in E.
  destruct rest as [|next rest].
  - injection H as <-. exact E.
  - destruct (negb (Byte.eqb (BSONElement.type r) DOCUMENT)
              && negb (Byte.eqb (BSONElement.type r) ARRAY)); [discriminate|].
    apply IH in H; [|discriminate].
    eapply element_within_nested; eassumption.
Qed.

(** X8. An element [TraversePath] returns for a path of at least one segment
    lies within the buffer it was given, however deep the path: its value
    starts at an offset of the buffer and ends within the buffer,
    and its length is the one the size table gives for its tag, which is
    not 0. *)
Theorem TraversePath_within_buffer :
  forall doc_data doc_size segments result elem,
    segments <> [] ->
    TraversePath doc_data doc_size segments result = (true, elem) ->
    element_within doc_data doc_size elem.
Proof.
  intros doc_data doc_size segments result elem Hne H.
  exact (TraversePath_from_within segments _ _ _ _ Hne H).
Qed.

Lemma TraversePath_within_buffer_witness :
  element_within john_document 20
    (snd (TraversePath john_document 20 [KeySegment "name"] no_element)).
Proof.
  apply (TraversePath_within_buffer john_document 20 [KeySegment "name"] no_element).
  - discriminate.
  - reflexivity.
Defined.

(** * The scalar functions *)

Lemma GetValueSize_named (type : BSONType) (value : ptr) (remaining : Z) :
  GetValueSize type value remaining <> 0 ->
  exists name, TypeToString type = Some name /\ ~ In name empty_valued_names.
Proof.
  unfold GetValueSize. destruct (remaining <? 1); [congruence|].
  destruct type; intros H; try congruence;
    (eexists; split; [reflexivity|];
     cbn [In empty_valued_names]; intros C;
     repeat (destruct C as [C|C]; [discriminate C|]); exact C).
Qed.

Lemma GetValueSize_container_pos (type : BSONType) (value : ptr) (remaining : Z) :
  is_container type = true ->
  GetValueSize type value remaining <> 0 ->
  GetValueSize type value remaining = ReadInt32 value /\ 5 <= ReadInt32 value.
Proof.
  intros Ht.
  assert (type = DOCUMENT \/ type = ARRAY) as Htype.
  { unfold is_container in Ht. apply orb_true_iff in Ht.
    destruct Ht as [Ht|Ht]; apply Byte.byte_dec_bl in Ht; auto. }
  assert (GetValueSize type value remaining
          = if remaining <? 1 then 0 else
            if remaining <? 4 then 0 else
            if (ReadInt32 value <? 5) || (to_int32 remaining <? ReadInt32 value)
            then 0 else to_idx (ReadInt32 value)) as ->
    by (destruct Htype as [-> | ->]; reflexivity).
  destruct (remaining <? 1); [congruence|].
  destruct (remaining <? 4); [congruence|].
  destruct (Z.ltb_spec (ReadInt32 value) 5); cbn [orb]; [congruence|].
  destruct (to_int32 remaining <? ReadInt32 value); [congruence|].
  intros _. split; [|lia].
  pose proof (to_int32_range (le_unsigned 4 value)) as Hr. fold (ReadInt32 value) in Hr.
  unfold to_idx. apply Z.mod_small. unfold INT32_MAX in Hr. lia.
Qed.

Lemma GetValueSize_string_pos (value : ptr) (remaining : Z) :
  remaining <= INT32_MAX ->
  GetValueSize STRING value remaining <> 0 ->
  GetValueSize STRING value remaining = 4 + ReadInt32 value /\ 1 <= ReadInt32 value.
Proof.
  intros Hmax. rewrite GetValueSize_in_range by assumption.
  change STRING with x02. cbv iota.
  destruct (remaining <? 1); [congruence|].
  destruct (remaining <? 4); [congruence|].
  destruct (Z.ltb_spec (ReadInt32 value) 1); cbn [orb]; [congruence|].
  destruct (remaining - 4 <? ReadInt32 value); [congruence|].
  intros _. split; [reflexivity|lia].
Qed.

Lemma len_string_t (p : ptr) (n : Z) :
  0 <= n <= len p -> len (string_t p n) = n.
Proof.
  intros Hn. unfold string_t, len in *. rewrite length_firstn. lia.
Qed.

Lemma len_ptr_add (p : ptr) (n : Z) :
  0 <= n <= len p -> len (ptr_add p n) = len p - n.
Proof.
  intros Hn. unfold ptr_add, len in *. rewrite length_skipn. lia.
Qed.

Lemma same_prefix_string_t (p : ptr) (n : Z) : same_prefix n (string_t p n) p.
Proof.
  unfold same_prefix, string_t. rewrite firstn_firstn. f_equal. lia.
Qed.

Lemma ReadInt32_string_t (p : ptr) (n : Z) :
  4 <= n -> ReadInt32 (string_t p n) = ReadInt32 p.
Proof.
  intros Hn. apply ReadInt32_agree.
  apply (agree_weaken 0 n); try lia.
  apply same_prefix_agree, same_prefix_string_t.
Qed.

(** X9. [bson_type] of a row never comes to the internal error of
    [TypeToString]: what it throws is an error of the path; and the name it
    returns is never one of [null], [undefined], [minkey] and [maxkey],
    since the locator does not find an element of these tags. *)
Theorem BSONTypeFunction_names :
  forall bson path elem,
    match BSONTypeFunction bson path elem with
    | RowValue name => ~ In name empty_valued_names
    | RowNull => True
    | RowThrow msg => exists e, msg = what e
    end.
Proof.
  intros bson path elem. unfold BSONTypeFunction. cbv zeta.
  destruct (ParsePath path _ []) as [[t segments]|e]; [|eauto].
  destruct segments as [|seg segs].
  - cbn [In empty_valued_names]. intros C.
    repeat (destruct C as [C|C]; [discriminate C|]). exact C.
  - destruct (TraversePath bson (len bson) (seg :: segs) elem) as [found r] eqn:E.
    destruct found; cbn [negb]; [|exact I].
    unfold TraversePath in E. apply TraversePath_from_within in E; [|discriminate].
    destruct E as (off & rem & _ & _ & _ & Hvl & Hpos & _).
    destruct (GetValueSize_named (BSONElement.type r) (BSONElement.value r) rem)
      as (name & -> & Hname); [lia|exact Hname].
Qed.

(** X10. What [bson_extract] returns for a path of at least one segment is a
    byte range of the input that reads as a document: the range starts
    behind the length prefix of the input and ends within it, it is at
    least 5 bytes long, and its first four bytes hold its own length. *)
Theorem BSONExtractFunction_range :
  forall bson path elem t seg segs blob,
    ParsePath path (Z.of_nat (String.length path)) [] = Return (t, seg :: segs) ->
    BSONExtractFunction bson path elem = RowValue blob ->
    exists off,
      4 < off /\ range_of bson off (len blob) blob
      /\ 5 <= len blob /\ ReadInt32 blob = len blob.
Proof.
  intros bson path elem t seg segs blob Hp H.
  unfold BSONExtractFunction in H. cbv zeta in H. rewrite Hp in H.
  destruct (TraversePath bson (len bson) (seg :: segs) elem) as [found r] eqn:E.
  destruct found; cbn [negb] in H; [|discriminate].
  destruct (Byte.eqb (BSONElement.type r) DOCUMENT
            || Byte.eqb (BSONElement.type r) ARRAY) eqn:Ht; [|discriminate].
  injection H as <-.
  unfold TraversePath in E. apply TraversePath_from_within in E; [|discriminate].
  destruct E as (off & rem & Hoff & Hrem & Hv & Hvl & Hpos & Hend).
  destruct (GetValueSize_container_pos (BSONElement.type r) (BSONElement.value r) rem Ht)
    as [Hlen H5]; [lia|].
  rewrite <- Hvl in Hlen.
  pose proof (len_nonneg bson) as Hb.
  assert (len (string_t (BSONElement.value r) (BSONElement.value_len r))
          = BSONElement.value_len r) as El.
  { apply len_string_t. rewrite Hv, len_ptr_add; lia. }
  exists off. rewrite El. split; [exact Hoff|]. split; [|split].
  - unfold range_of. rewrite <- Hv. repeat split; lia.
  - lia.
  - rewrite ReadInt32_string_t by lia. lia.
Qed.

Lemma BSONExtractFunction_range_witness :
  exists off,
    4 < off
    /\ range_of (document_around (bytes "a") [x00]) off 5 empty_document
    /\ 5 <= 5 /\ ReadInt32 empty_document = 5.
Proof.
  exact (BSONExtractFunction_range (document_around (bytes "a") [x00]) "$.a"
           no_element REGULAR (KeySegment "a") [] empty_document eq_refl eq_refl).
Defined.

(** * The bytes a lookup depends on *)

Lemma agree_sym (lo hi : Z) (a b : ptr) : agree lo hi a b -> agree lo hi b a.
Proof. intros H i Hi. symmetry. apply H. exact Hi. Qed.

Lemma skip_cstring_local (a b : ptr) (limit pos : Z) :
  skip_cstring a limit pos < limit ->
  agree pos (skip_cstring a limit pos + 1) a b ->
  skip_cstring b limit pos = skip_cstring a limit pos.
Proof.
  intros Hlt H. pose proof (skip_cstring_ge a limit pos) as Hge.
  destruct (skip_cstring_stop a limit pos) as [Hz Hnz].
  apply skip_cstring_unique.
  - lia.
  - intros i Hi. rewrite <- (H i) by lia. apply Hnz. lia.
  - rewrite <- (H (skip_cstring a limit pos)) by lia. apply Hz. lia.
Qed.

Lemma memcmp_eq_agree (n : nat) (a a' b : ptr) :
  agree 0 (Z.of_nat n) a a' -> memcmp_eq a b n = memcmp_eq a' b n.
Proof.
  revert a a' b. induction n as [|n IH]; intros a a' b H; [reflexivity|].
  cbn [memcmp_eq]. rewrite !byte_at_hd, (H 0) by lia. f_equal.
  apply IH. intros i Hi. rewrite !byte_at_tl by lia. apply H. lia.
Qed.

(** A size other than 0 is made from the bytes of the value itself. *)
Lemma GetValueSize_footprint (type : BSONType) (value value' : ptr) (remaining : Z) :
  remaining <= INT32_MAX ->
  GetValueSize type value remaining <> 0 ->
  agree 0 (GetValueSize type value remaining) value value' ->
  GetValueSize type value' remaining = GetValueSize type value remaining.
Proof.
  intros Hmax. rewrite !GetValueSize_in_range by assumption.
  destruct (remaining <? 1); [congruence|].
  destruct type; try reflexivity; try congruence; cbv zeta;
    try (destruct (remaining <? 4); [congruence|]);
    try (destruct (remaining <? 5); [congruence|]).
  all: try (match goal with
            | |- (if ?c then 0 else ?n) <> 0 -> _ =>
                destruct c eqn:Ec; [congruence|];
                intros Hnz Hag;
                pose proof Ec as Ec'; apply orb_false_iff in Ec';
                destruct Ec' as [Ec1 Ec2]; apply Z.ltb_ge in Ec1;
                assert (ReadInt32 value' = ReadInt32 value) as ->
                  by (symmetry; apply ReadInt32_agree;
                      eapply agree_weaken; [exact Hag|lia|lia]);
                rewrite Ec; reflexivity
            end).
  (* REGEX *)
  remember (skip_cstring value remaining 0) as p1 eqn:E1.
  destruct (Z.leb_spec remaining p1) as [|H1]; [congruence|].
  remember (skip_cstring value remaining (p1 + 1)) as p2 eqn:E2.
  destruct (Z.leb_spec remaining p2) as [|H2]; [congruence|].
  intros Hnz Hag.
  pose proof (skip_cstring_ge value remaining (p1 + 1)) as Hge. rewrite <- E2 in Hge.
  pose proof (skip_cstring_ge value remaining 0) as Hge0. rewrite <- E1 in Hge0.
  assert (skip_cstring value' remaining 0 = p1) as ->.
  { rewrite E1. apply skip_cstring_local; rewrite <- E1; [exact H1|].
    eapply agree_weaken; [exact Hag|lia|lia]. }
  assert (skip_cstring value' remaining (p1 + 1) = p2) as ->.
  { rewrite E2. apply skip_cstring_local; rewrite <- E2; [exact H2|].
    eapply agree_weaken; [exact Hag|lia|lia]. }
  destruct (Z.leb_spec remaining p1); [lia|].
  destruct (Z.leb_spec remaining p2); [lia|]. reflexivity.
Qed.

Lemma find_elements_footprint (fuel : nat) (data : ptr) (doc_len : Z)
    (key : ptr) (key_len : Z) :
  doc_len <= INT32_MAX ->
  forall pos result elem,
    0 <= pos ->
    find_elements fuel data doc_len pos key key_len result = Some (true, elem) ->
    exists p,
      pos <= p
      /\ 0 <= BSONElement.key_len elem
      /\ elem = element_in data p elem
      /\ 0 < BSONElement.value_len elem
      /\ element_end p elem <= doc_len
      /\ forall data' result',
           agree pos (element_end p elem) data data' ->
           find_elements fuel data' doc_len pos key key_len result'
           = Some (true, element_in data' p elem).
Proof.
  intros Hmax. induction fuel as [|fuel IH]; intros pos result elem Hpos H;
    [discriminate|].
  cbn [find_elements] in H. cbv zeta in H.
  unfold BSONElement.set_type, BSONElement.set_key, BSONElement.set_key_len,
    BSONElement.set_value, BSONElement.set_value_len in H.
  cbn [BSONElement.type BSONElement.key BSONElement.key_len BSONElement.value
       BSONElement.value_len] in H.
  destruct (Z.ltb_spec pos (doc_len - 1)) as [Hlt|]; [|discriminate].
  remember (skip_cstring data doc_len (pos + 1)) as q eqn:Eq.
  pose proof (skip_cstring_ge data doc_len (pos + 1)) as Hq. rewrite <- Eq in Hq.
  destruct (Z.leb_spec doc_len q) as [|Hql]; [discriminate|].
  remember (GetValueSize (byte_at data pos) (ptr_add data (q + 1)) (doc_len - (q + 1)))
    as vs eqn:Evs.
  destruct (Z.eqb_spec vs 0) as [|Hvs0]; [discriminate|].
  destruct (Z.ltb_spec (doc_len - (q + 1)) vs) as [|Hfit]; [discriminate|].
  cbn [orb] in H.
  pose proof (GetValueSize_nonneg (byte_at data pos) (ptr_add data (q + 1))
                (doc_len - (q + 1))) as Hvs. rewrite <- Evs in Hvs.
  assert (forall data' hi,
             q + 1 + vs <= hi ->
             agree pos hi data data' ->
             byte_at data' pos = byte_at data pos
             /\ skip_cstring data' doc_len (pos + 1) = q
             /\ GetValueSize (byte_at data pos) (ptr_add data' (q + 1))
                  (doc_len - (q + 1)) = vs
             /\ memcmp_eq (ptr_add data' (pos + 1)) key (Z.to_nat (q - (pos + 1)))
                = memcmp_eq (ptr_add data (pos + 1)) key (Z.to_nat (q - (pos + 1))))
    as Hsame.
  { intros data' hi Hhi Hag. split; [symmetry; apply Hag; lia|]. split; [|split].
    - rewrite Eq. apply skip_cstring_local; rewrite <- Eq; [exact Hql|].
      eapply agree_weaken; [exact Hag|lia|lia].
    - rewrite Evs. apply GetValueSize_footprint; rewrite <- ?Evs; [lia|exact Hvs0|].
      apply agree_ptr_add; [lia|]. eapply agree_weaken; [exact Hag|lia|lia].
    - symmetry. apply memcmp_eq_agree. rewrite Z2Nat.id by lia.
      apply agree_ptr_add; [lia|]. eapply agree_weaken; [exact Hag|lia|lia]. }
  destruct (Z.eqb_spec (q - (pos + 1)) key_len) as [Ekl|Hkl]; cbn [andb] in H.
  - destruct (memcmp_eq (ptr_add data (pos + 1)) key (Z.to_nat key_len)) eqn:Em.
    + injection H as <-. exists pos.
      unfold element_in, element_end.
      cbn [BSONElement.type BSONElement.key BSONElement.key_len BSONElement.value
           BSONElement.value_len].
      replace (pos + 1 + (q - (pos + 1)) + 1) with (q + 1) by lia.
      split; [lia|]. split; [lia|]. split; [reflexivity|]. split; [lia|].
      split; [lia|].
      intros data' result' Hag.
      destruct (Hsame data' (q + 1 + vs) ltac:(lia) Hag) as (Eb & Es & Eg & Ec).
      cbn [find_elements]. cbv zeta.
      unfold BSONElement.set_type, BSONElement.set_key, BSONElement.set_key_len,
        BSONElement.set_value, BSONElement.set_value_len.
      cbn [BSONElement.type BSONElement.key BSONElement.key_len BSONElement.value
           BSONElement.value_len].
      rewrite Es, Eb, Eg.
      destruct (Z.ltb_spec pos (doc_len - 1)); [|lia].
      destruct (Z.leb_spec doc_len q); [lia|].
      destruct (Z.eqb_spec vs 0); [lia|].
      destruct (Z.ltb_spec (doc_len - (q + 1)) vs); [lia|]. cbn [orb].
      destruct (Z.eqb_spec (q - (pos + 1)) key_len); [|lia]. cbn [andb].
      rewrite <- Ekl, Ec, Ekl, Em. reflexivity.
    + apply IH in H; [|lia].
      destruct H as (p & Hp & Hk & Eelem & Hvl & Hend & Hother).
      exists p. split; [lia|]. split; [exact Hk|]. split; [exact Eelem|].
      split; [exact Hvl|]. split; [exact Hend|].
      intros data' result' Hag.
      assert (q + 1 + vs <= element_end p elem) as Hhi
        by (unfold element_end; lia).
      destruct (Hsame data' _ Hhi Hag) as (Eb & Es & Eg & Ec).
      cbn [find_elements]. cbv zeta.
      unfold BSONElement.set_type, BSONElement.set_key, BSONElement.set_key_len,
        BSONElement.set_value, BSONElement.set_value_len.
      cbn [BSONElement.type BSONElement.key BSONElement.key_len BSONElement.value
           BSONElement.value_len].
      rewrite Es, Eb, Eg.
      destruct (Z.ltb_spec pos (doc_len - 1)); [|lia].
      destruct (Z.leb_spec doc_len q); [lia|].
      destruct (Z.eqb_spec vs 0); [lia|].
      destruct (Z.ltb_spec (doc_len - (q + 1)) vs); [lia|]. cbn [orb].
      destruct (Z.eqb_spec (q - (pos + 1)) key_len); [|lia]. cbn [andb].
      rewrite <- Ekl, Ec, Ekl, Em.
      apply Hother. eapply agree_weaken; [exact Hag|lia|lia].
  - apply IH in H; [|lia].
    destruct H as (p & Hp & Hk & Eelem & Hvl & Hend & Hother).
    exists p. split; [lia|]. split; [exact Hk|]. split; [exact Eelem|].
    split; [exact Hvl|]. split; [exact Hend|].
    intros data' result' Hag.
    assert (q + 1 + vs <= element_end p elem) as Hhi
      by (unfold element_end; lia).
    destruct (Hsame data' _ Hhi Hag) as (Eb & Es & Eg & Ec).
    cbn [find_elements]. cbv zeta.
    unfold BSONElement.set_type, BSONElement.set_key, BSONElement.set_key_len,
      BSONElement.set_value, BSONElement.set_value_len.
    cbn [BSONElement.type BSONElement.key BSONElement.key_len BSONElement.value
         BSONElement.value_len].
    rewrite Es, Eb, Eg.
    destruct (Z.ltb_spec pos (doc_len - 1)); [|lia].
    destruct (Z.leb_spec doc_len q); [lia|].
    destruct (Z.eqb_spec vs 0); [lia|].
    destruct (Z.ltb_spec (doc_len - (q + 1)) vs); [lia|]. cbn [orb].
    destruct (Z.eqb_spec (q - (pos + 1)) key_len); [lia|]. cbn [andb].
    apply Hother. eapply agree_weaken; [exact Hag|lia|lia].
Qed.

Lemma FindElement_footprint (data : ptr) (size : Z) (key : ptr) (key_len : Z)
    (result elem : BSONElement) :
  FindElement data size key key_len result = (true, elem) ->
  exists p,
    4 <= p
    /\ 0 <= BSONElement.key_len elem
    /\ elem = element_in data p elem
    /\ 0 < BSONElement.value_len elem
    /\ element_end p elem <= ReadInt32 data
    /\ ReadInt32 data <= size
    /\ forall data' result',
         agree 0 (element_end p elem) data data' ->
         FindElement data' size key key_len result' = (true, element_in data' p elem).
Proof.
  intros H. unfold FindElement in H. cbv zeta in H.
  destruct (Z.ltb_spec size 5) as [|Hs5]; [discriminate|].
  destruct (Z.ltb_spec (ReadInt32 data) 5) as [|H5]; [discriminate|].
  destruct (Z.ltb_spec size (ReadInt32 data)) as [|Hsz]; [discriminate|].
  cbn [orb] in H.
  destruct (find_elements _ _ _ _ _ _ _) as [r|] eqn:E; [|discriminate].
  subst r.
  pose proof (to_int32_range (le_unsigned 4 data)) as Hr. fold (ReadInt32 data) in Hr.
  apply find_elements_footprint in E; [|lia|lia].
  destruct E as (p & Hp & Hk & Eelem & Hvl & Hend & Hother).
  exists p. repeat (split; [assumption|]).
  intros data' result' Hag.
  assert (ReadInt32 data' = ReadInt32 data) as Er.
  { symmetry. apply ReadInt32_agree. eapply agree_weaken; [exact Hag|lia|].
    unfold element_end. lia. }
  unfold FindElement. cbv zeta. rewrite Er.
  destruct (Z.ltb_spec size 5); [lia|].
  destruct (Z.ltb_spec (ReadInt32 data) 5); [lia|].
  destruct (Z.ltb_spec size (ReadInt32 data)); [lia|]. cbn [orb].
  rewrite (Hother data' result'); [reflexivity|].
  eapply agree_weaken; [exact Hag|lia|lia].
Qed.

Lemma lookup_footprint (data : ptr) (size : Z) (segment : PathSegment)
    (result elem : BSONElement) :
  lookup data size segment result = (true, elem) ->
  exists p,
    4 <= p
    /\ 0 <= BSONElement.key_len elem
    /\ elem = element_in data p elem
    /\ 0 < BSONElement.value_len elem
    /\ element_end p elem <= size
    /\ forall data' result',
         agree 0 (element_end p elem) data data' ->
         lookup data' size segment result' = (true, element_in data' p elem).
Proof.
  intros H.
  destruct segment as [key|index]; cbn [lookup] in *;
    [|unfold GetArrayElement in *; cbv zeta in *];
    apply FindElement_footprint in H;
    destruct H as (p & Hp & Hk & Eelem & Hvl & Hend & Hsize & Hother);
    exists p; repeat (split; [assumption || lia|]); exact Hother.
Qed.

Lemma element_in_nested (data : ptr) (off p : Z) (elem : BSONElement) :
  0 <= off -> 0 <= p -> 0 <= BSONElement.key_len elem ->
  element_in (ptr_add data off) p elem = element_in data (off + p) elem.
Proof.
  intros Hoff Hp Hk. unfold element_in.
  rewrite !ptr_add_ptr_add by lia. f_equal; f_equal; lia.
Qed.

Lemma TraversePath_from_footprint (segments : list PathSegment) :
  forall data size result elem,
    segments <> [] ->
    TraversePath_from data size segments result = (true, elem) ->
    exists p,
      4 <= p
      /\ 0 <= BSONElement.key_len elem
      /\ elem = element_in data p elem
      /\ 0 < BSONElement.value_len elem
      /\ element_end p elem <= size
      /\ forall data' result',
           agree 0 size data data' ->
           TraversePath_from data' size segments result'
           = (true, element_in data' p elem).
Proof.
  induction segments as [|segment rest IH]; intros data size result elem Hne H;
    [congruence|].
  cbn [TraversePath_from] in H.
  change (match segment with
          | KeySegment key =>
              FindElement data size (list_byte_of_string key)
                (Z.of_nat (String.length key)) result
          | IndexSegment index => GetArrayElement data size index result
          end) with (lookup data size segment result) in H.
  destruct (lookup data size segment result) as [found r] eqn:E.
  destruct found; cbn [negb] in H; [|discriminate].
  apply lookup_footprint in E.
  destruct E as (p & Hp & Hk & Er & Hvl & Hend & Hother).
  assert (forall data' result',
             agree 0 size data data' ->
             TraversePath_from data' size (segment :: rest) result'
             = (let r' := element_in data' p r in
                match rest with
                | [] => (true, r')
                | _ :: _ =>
                    if negb (Byte.eqb (BSONElement.type r') DOCUMENT)
                       && negb (Byte.eqb (BSONElement.type r') ARRAY)
                    then (false, r')
                    else TraversePath_from (BSONElement.value r')
                           (BSONElement.value_len r') rest r'
                end)) as Hstep.
  { intros data' result' Hag. cbn [TraversePath_from].
    change (match segment with
            | KeySegment key =>
                FindElement data' size (list_byte_of_string key)
                  (Z.of_nat (String.length key)) result'
            | IndexSegment index => GetArrayElement data' size index result'
            end) with (lookup data' size segment result').
    rewrite (Hother data' result')
      by (eapply agree_weaken; [exact Hag|lia|lia]).
    reflexivity. }
  destruct rest as [|next rest].
  - injection H as <-. exists p. repeat (split; [assumption|]).
    intros data' result' Hag. rewrite Hstep by exact Hag. reflexivity.
  - destruct (negb (Byte.eqb (BSONElement.type r) DOCUMENT)
              && negb (Byte.eqb (BSONElement.type r) ARRAY)) eqn:Et; [discriminate|].
    apply IH in H; [|discriminate].
    destruct H as (p' & Hp' & Hk' & Eelem & Hvl' & Hend' & Hinner).
    set (off := p + 1 + BSONElement.key_len r + 1).
    assert (BSONElement.value r = ptr_add data off) as Ev
      by (rewrite Er; reflexivity).
    unfold element_end in Hend.
    exists (off + p'). split; [lia|]. split; [exact Hk'|]. split.
    { rewrite <- element_in_nested by (assumption || lia). rewrite <- Ev. exact Eelem. }
    split; [exact Hvl'|]. split; [unfold element_end in *; lia|].
    intros data' result' Hag. rewrite Hstep by exact Hag. cbv zeta.
    cbn [element_in BSONElement.type BSONElement.value BSONElement.value_len].
    rewrite Et. fold off.
    rewrite (Hinner (ptr_add data' off) (element_in data' p r)).
    + rewrite element_in_nested by (assumption || lia). reflexivity.
    + rewrite Ev. apply agree_ptr_add; [lia|].
      eapply agree_weaken; [exact Hag|lia|lia].
Qed.

(** On two buffers with the same [size] bytes a traversal of at least one
    segment finds an element in both or in neither. *)
Lemma TraversePath_from_agree (segments : list PathSegment) (data data' : ptr)
    (size : Z) (result result' : BSONElement) :
  segments <> [] ->
  agree 0 size data data' ->
  fst (TraversePath_from data' size segments result')
  = fst (TraversePath_from data size segments result).
Proof.
  intros Hne Hag.
  destruct (TraversePath_from data size segments result) as [found r] eqn:E.
  destruct (TraversePath_from data' size segments result') as [found' r'] eqn:E'.
  cbn [fst]. destruct found, found'; try reflexivity.
  - apply TraversePath_from_footprint in E; [|exact Hne].
    destruct E as (p & _ & _ & _ & _ & _ & Hother).
    rewrite (Hother data' result' Hag) in E'. discriminate E'.
  - apply TraversePath_from_footprint in E'; [|exact Hne].
    destruct E' as (p & _ & _ & _ & _ & _ & Hother).
    rewrite (Hother data result (agree_sym _ _ _ _ Hag)) in E. discriminate E.
Qed.

Lemma string_t_same_prefix (size : Z) (a b : ptr) (off n : Z) :
  same_prefix size a b -> 0 <= off -> 0 <= n -> off + n <= size ->
  string_t (ptr_add a off) n = string_t (ptr_add b off) n.
Proof.
  intros H Hoff Hn Hfit.
  assert (forall l : ptr,
             string_t (ptr_add l off) n
             = firstn (Z.to_nat n) (skipn (Z.to_nat off) (firstn (Z.to_nat size) l)))
    as E.
  { intros l. unfold string_t, ptr_add. rewrite skipn_firstn_comm, firstn_firstn.
    f_equal. lia. }
  rewrite (E a), (E b), H. reflexivity.
Qed.

(** X11. What [bson_extract_string] returns for a path of at least one
    segment is a byte range of the input, and at least one more byte of the
    input follows it (the place of the terminator of the string, which the
    function does not look at).  The function reads the input only: run on
    any memory that starts with the bytes of the input, with the size of
    the input, and with any content of the local element, it gives the same
    row, whatever follows the input in that memory. *)
Theorem BSONExtractStringFunction_range :
  forall bson path elem t seg segs,
    ParsePath path (Z.of_nat (String.length path)) [] = Return (t, seg :: segs) ->
    (forall str,
        BSONExtractStringFunction bson path elem = RowValue str ->
        exists off,
          8 < off /\ range_of bson off (len str) str
          /\ off + len str + 1 <= len bson
          /\ ReadInt32 (ptr_add bson (off - 4)) = len str + 1)
    /\ (forall memory elem',
           same_prefix (len bson) bson memory ->
           BSONExtractStringRow memory (len bson) path elem'
           = BSONExtractStringFunction bson path elem).
Proof.
  intros bson path elem t seg segs Hp.
  pose proof (len_nonneg bson) as Hb.
  assert (forall r,
             TraversePath bson (len bson) (seg :: segs) elem = (true, r) ->
             BSONElement.type r = STRING ->
             BSONElement.value_len r = 4 + ReadInt32 (BSONElement.value r)
             /\ 1 <= ReadInt32 (BSONElement.value r)) as Hstring.
  { intros r E Ht.
    unfold TraversePath in E. apply TraversePath_from_within in E; [|discriminate].
    destruct E as (off & rem & Hoff & Hrem & Hv & Hvl & Hpos & Hend).
    rewrite Ht in Hvl.
    destruct (GetValueSize_string_pos (BSONElement.value r) rem) as [Hlen H1];
      [lia|lia|].
    rewrite <- Hvl in Hlen. split; assumption. }
  split.
  - intros str H.
    unfold BSONExtractStringFunction in H. cbv zeta in H. rewrite Hp in H.
    destruct (TraversePath bson (len bson) (seg :: segs) elem) as [found r] eqn:E.
    destruct found; cbn [negb] in H; [|discriminate].
    destruct (Byte.eqb (BSONElement.type r) STRING) eqn:Ht; cbn [negb] in H;
      [|discriminate].
    apply Byte.byte_dec_bl in Ht.
    destruct (Z.ltb_spec (ReadInt32 (BSONElement.value r)) 1) as [|H1]; [discriminate|].
    injection H as <-.
    destruct (Hstring r eq_refl Ht) as [Hlen _].
    unfold TraversePath in E. apply TraversePath_from_within in E; [|discriminate].
    destruct E as (off & rem & Hoff & Hrem & Hv & Hvl & Hpos & Hend).
    set (n := ReadInt32 (BSONElement.value r)) in *.
    assert (ptr_add (BSONElement.value r) 4 = ptr_add bson (off + 4)) as Ep
      by (rewrite Hv; apply ptr_add_ptr_add; lia).
    assert (len (string_t (ptr_add (BSONElement.value r) 4) (n - 1)) = n - 1) as El.
    { apply len_string_t. rewrite Ep, len_ptr_add; lia. }
    exists (off + 4). rewrite El. split; [lia|]. split; [|split].
    + unfold range_of. rewrite <- Ep. repeat split; lia.
    + lia.
    + replace (off + 4 - 4) with off by lia. rewrite <- Hv. subst n. lia.
  - intros memory elem' Hsame.
    pose proof (same_prefix_agree _ _ _ Hsame) as Hag.
    unfold BSONExtractStringRow, BSONExtractStringFunction. cbv zeta. rewrite Hp.
    destruct (TraversePath bson (len bson) (seg :: segs) elem) as [found r] eqn:E.
    destruct found; cbn [negb].
    + pose proof (Hstring r eq_refl) as Hs.
      unfold TraversePath in E. apply TraversePath_from_footprint in E; [|discriminate].
      destruct E as (p & Hp4 & Hk & Er & Hvl & Hend & Hother).
      unfold TraversePath. rewrite (Hother memory elem' Hag). cbn [negb].
      cbn [element_in BSONElement.type BSONElement.value].
      destruct (Byte.eqb (BSONElement.type r) STRING) eqn:Ht; cbn [negb];
        [|reflexivity].
      apply Byte.byte_dec_bl in Ht. destruct (Hs Ht) as [Hlen H1].
      set (off := p + 1 + BSONElement.key_len r + 1) in *.
      assert (BSONElement.value r = ptr_add bson off) as Ev
        by (rewrite Er; reflexivity).
      unfold element_end in Hend. fold off in Hend.
      assert (ReadInt32 (ptr_add memory off) = ReadInt32 (BSONElement.value r)) as ->.
      { rewrite Ev. symmetry. apply ReadInt32_agree. apply agree_ptr_add; [lia|].
        eapply agree_weaken; [exact Hag|lia|lia]. }
      set (n := ReadInt32 (BSONElement.value r)) in *.
      destruct (n <? 1); [reflexivity|].
      f_equal. rewrite Ev, !ptr_add_ptr_add by lia.
      symmetry. apply (string_t_same_prefix (len bson)); [exact Hsame|lia|lia|lia].
    + pose proof (TraversePath_from_agree (seg :: segs) bson memory (len bson)
                    elem elem' ltac:(discriminate) Hag) as Ef.
      unfold TraversePath in *. rewrite E in Ef. cbn [fst] in Ef.
      destruct (TraversePath_from memory (len bson) (seg :: segs) elem')
        as [found' r'].
      cbn [fst] in Ef. subst found'. reflexivity.
Qed.

Lemma BSONExtractStringFunction_range_witness :
  (forall str,
      BSONExtractStringFunction john_document "$.name" no_element = RowValue str ->
      exists off,
        8 < off /\ range_of john_document off (len str) str
        /\ off + len str + 1 <= len john_document
        /\ ReadInt32 (ptr_add john_document (off - 4)) = len str + 1)
  /\ (forall memory elem',
         same_prefix (len john_document) john_document memory ->
         BSONExtractStringRow memory (len john_document) "$.name" elem'
         = BSONExtractStringFunction john_document "$.name" no_element).
Proof.
  exact (BSONExtractStringFunction_range john_document "$.name" no_element
           REGULAR (KeySegment "name") [] eq_refl).
Defined.

Lemma to_int32_le (z : Z) : 0 <= z -> to_int32 z <= z.
Proof.
  intros Hz. unfold to_int32.
  pose proof (Z.mod_le (z + 2147483648) 4294967296 ltac:(lia) ltac:(lia)). lia.
Qed.

Lemma skip_cstring_from_le (fuel : nat) (data : ptr) (limit pos : Z) :
  pos <= limit -> skip_cstring_from fuel data limit pos <= limit.
Proof.
  revert pos. induction fuel as [|fuel IH]; intros pos Hp; cbn [skip_cstring_from];
    [exact Hp|].
  destruct (Z.ltb_spec pos limit); cbn [andb]; [|exact Hp].
  destruct (negb (Byte.eqb (byte_at data pos) x00)); [|exact Hp].
  apply IH. lia.
Qed.

(** X12. For a window of [remaining] bytes, [remaining] between 0 and
    [INT32_MAX] (what a caller with an [int32] document length passes), the
    size the table gives is never negative; for a tag of fixed size (double,
    object id, boolean, date-time, int32, timestamp, int64, decimal128) it
    is that size as soon as the window has one byte, whether or not the
    window holds that many bytes; and for every other tag (a string, a
    document, an array, a binary, a regular expression, a DB pointer,
    JavaScript code, a symbol, code with scope, and the tags of size 0) the
    size is within the window: a non-zero size of such a value always
    fits. *)
Theorem GetValueSize_bounds :
  forall type value remaining,
    0 <= remaining <= INT32_MAX ->
    0 <= GetValueSize type value remaining
    /\ match fixed_size type with
       | Some n => GetValueSize type value remaining = if remaining <? 1 then 0 else n
       | None => GetValueSize type value remaining <= remaining
       end.
Proof.
  intros type value remaining Hr. split; [apply GetValueSize_nonneg|].
  rewrite GetValueSize_in_range by lia.
  destruct (Z.ltb_spec remaining 1); [destruct (fixed_size type); [reflexivity|lia]|].
  pose proof (skip_cstring_ge value remaining 0) as H0.
  pose proof (skip_cstring_ge value remaining (skip_cstring value remaining 0 + 1)) as H1.
  cbv zeta.
  destruct type; cbn [fixed_size]; try reflexivity; try lia;
    repeat match goal with
    | |- context [if ?c then _ else _] => destruct c eqn:?
    end; try lia;
    repeat match goal with
    | H : _ || _ = false |- _ => apply orb_false_iff in H; destruct H
    | H : (_ <? _) = false |- _ => apply Z.ltb_ge in H
    | H : (_ <=? _) = false |- _ => apply Z.leb_gt in H
    end; lia.
Qed.

Lemma GetValueSize_bounds_witness :
  0 <= GetValueSize STRING (ptr_add john_document 10) 9
  /\ GetValueSize STRING (ptr_add john_document 10) 9 <= 9.
Proof.
  apply (GetValueSize_bounds STRING (ptr_add john_document 10) 9).
  unfold INT32_MAX. lia.
Defined.

(** Beyond [INT32_MAX] the 32-bit arithmetic of the table wraps: for a
    window of [2^31] bytes the test [(int32_t)remaining - 4 < str_len] is
    made on [2^31 - 4], so a string of length 2 is given the size 6 and a
    string of length [2^31 - 4] the size [2^64 - 2^31]. *)
Example GetValueSize_wraps :
  GetValueSize STRING [x02; x00; x00; x00] 2147483648 = 6
  /\ GetValueSize STRING [xfc; xff; xff; x7f] 2147483648 = 18446744071562067968.
Proof. split; vm_compute; reflexivity. Qed.

Lemma TypeToString_container (type : BSONType) (name : string) :
  TypeToString type = Some name ->
  is_container type = true <-> (name = "document" \/ name = "array")%string.
Proof.
  destruct type; cbn [TypeToString]; intros H; try discriminate H;
    injection H as <-; unfold is_container; cbn; split;
    try discriminate; try tauto;
    intros [C|C]; discriminate C.
Qed.

Lemma TypeToString_string (name : string) :
  TypeToString STRING = Some name -> name = "string"%string.
Proof. cbn. congruence. Qed.

(** X13. On a path of at least one segment the four scalar functions agree
    on a row: [bson_exists] is true exactly when [bson_type] names a type
    and false exactly when [bson_type] is NULL; [bson_extract] returns a
    value exactly when [bson_type] says [document] or [array]; and
    [bson_extract_string] returns a value only when [bson_type] says
    [string]. *)
Theorem scalar_functions_agree :
  forall bson path elem t seg segs,
    ParsePath path (Z.of_nat (String.length path)) [] = Return (t, seg :: segs) ->
    (BSONExistsFunction bson path elem = RowValue true
     <-> exists name, BSONTypeFunction bson path elem = RowValue name)
    /\ (BSONExistsFunction bson path elem = RowValue false
        <-> BSONTypeFunction bson path elem = RowNull)
    /\ ((exists blob, BSONExtractFunction bson path elem = RowValue blob)
        <-> (BSONTypeFunction bson path elem = RowValue "document"%string
             \/ BSONTypeFunction bson path elem = RowValue "array"%string))
    /\ ((exists str, BSONExtractStringFunction bson path elem = RowValue str)
        -> BSONTypeFunction bson path elem = RowValue "string"%string).
Proof.
  intros bson path elem t seg segs Hp.
  unfold BSONExistsFunction, BSONTypeFunction, BSONExtractFunction,
    BSONExtractStringFunction. cbv zeta. rewrite Hp.
  destruct (TraversePath bson (len bson) (seg :: segs) elem) as [found r] eqn:E.
  cbn [fst]. destruct found; cbn [negb].
  - unfold TraversePath in E. apply TraversePath_from_within in E; [|discriminate].
    destruct E as (off & rem & _ & _ & _ & Hvl & Hpos & _).
    destruct (GetValueSize_named (BSONElement.type r) (BSONElement.value r) rem)
      as (name & Hname & _); [lia|].
    rewrite Hname.
    pose proof (TypeToString_container _ _ Hname) as Hc. unfold is_container in Hc.
    repeat split.
    + eauto.
    + discriminate.
    + discriminate.
    + intros [blob H].
      destruct (Byte.eqb (BSONElement.type r) DOCUMENT
                || Byte.eqb (BSONElement.type r) ARRAY); [|discriminate].
      destruct (proj1 Hc eq_refl) as [-> | ->]; auto.
    + intros H.
      assert (name = "document"%string \/ name = "array"%string) as Hn
        by (destruct H as [H|H]; injection H as ->; auto).
      rewrite (proj2 Hc Hn). eauto.
    + intros [str H].
      destruct (Byte.eqb (BSONElement.type r) STRING) eqn:Hs; cbn [negb] in H;
        [|discriminate].
      apply Byte.byte_dec_bl in Hs. rewrite Hs in Hname.
      now rewrite (TypeToString_string _ Hname).
  - repeat split; try discriminate; try reflexivity.
    + intros [name H]. discriminate.
    + intros [blob H]. discriminate.
    + intros [H|H]; discriminate.
    + intros [str H]. discriminate.
Qed.

Lemma scalar_functions_agree_witness :
  BSONExistsFunction john_document "$.name" no_element = RowValue true
  <-> exists name, BSONTypeFunction john_document "$.name" no_element = RowValue name.
Proof.
  apply (scalar_functions_agree john_document "$.name" no_element REGULAR
           (KeySegment "name") []).
  reflexivity.
Defined.

(** * The element a caller passes in *)

Lemma same_answer_refl (a : bool * BSONElement) : same_answer a a.
Proof. split; auto. Qed.

Lemma find_elements_same_answer (fuel : nat) (doc_data : ptr) (doc_len pos : Z)
    (key : ptr) (key_len : Z) (r1 r2 : BSONElement) :
  match find_elements fuel doc_data doc_len pos key key_len r1,
        find_elements fuel doc_data doc_len pos key key_len r2 with
  | Some a, Some b => same_answer a b
  | None, None => True
  | _, _ => False
  end.
Proof.
  destruct fuel as [|fuel]; [exact I|]. cbn [find_elements]. cbv zeta.
  destruct (pos <? doc_len - 1); [|split; [reflexivity|discriminate]].
  destruct (doc_len <=? skip_cstring doc_data doc_len (pos + 1));
    [split; [reflexivity|discriminate]|].
  unfold BSONElement.set_type, BSONElement.set_key, BSONElement.set_key_len,
    BSONElement.set_value, BSONElement.set_value_len.
  cbn [BSONElement.type BSONElement.key BSONElement.key_len BSONElement.value
       BSONElement.value_len].
  match goal with |- context [if ?c then Some (false, _) else _] => destruct c end;
    [split; [reflexivity|discriminate]|].
  match goal with |- context [if ?c then Some (true, _) else _] => destruct c end;
    [apply same_answer_refl|].
  destruct (find_elements fuel _ _ _ _ _ _); [apply same_answer_refl|exact I].
Qed.

Lemma FindElement_same_answer (doc_data : ptr) (doc_size : Z) (key : ptr)
    (key_len : Z) (r1 r2 : BSONElement) :
  same_answer (FindElement doc_data doc_size key key_len r1)
              (FindElement doc_data doc_size key key_len r2).
Proof.
  unfold FindElement. cbv zeta.
  destruct (doc_size <? 5); [split; [reflexivity|discriminate]|].
  destruct ((ReadInt32 doc_data <? 5) || (doc_size <? ReadInt32 doc_data));
    [split; [reflexivity|discriminate]|].
  pose proof (find_elements_same_answer (Z.to_nat (ReadInt32 doc_data)) doc_data
                (ReadInt32 doc_data) 4 key key_len r1 r2) as H.
  destruct (find_elements _ _ _ _ _ _ r1), (find_elements _ _ _ _ _ _ r2);
    try contradiction; [exact H|split; [reflexivity|discriminate]].
Qed.

Lemma lookup_same_answer (data : ptr) (size : Z) (segment : PathSegment)
    (r1 r2 : BSONElement) :
  same_answer (lookup data size segment r1) (lookup data size segment r2).
Proof.
  destruct segment; cbn [lookup]; [|unfold GetArrayElement];
    apply FindElement_same_answer.
Qed.

Lemma TraversePath_same_answer (doc_data : ptr) (doc_size : Z)
    (segment : PathSegment) (rest : list PathSegment) (r1 r2 : BSONElement) :
  same_answer (TraversePath doc_data doc_size (segment :: rest) r1)
              (TraversePath doc_data doc_size (segment :: rest) r2).
Proof.
  rewrite !TraversePath_step.
  pose proof (lookup_same_answer doc_data doc_size segment r1 r2) as [Hf Hs].
  destruct (lookup doc_data doc_size segment r1) as [f1 e1].
  destruct (lookup doc_data doc_size segment r2) as [f2 e2].
  cbn [fst snd] in Hf, Hs. subst f2.
  destruct f1; cbn [negb]; [|split; [reflexivity|discriminate]].
  rewrite (Hs eq_refl). apply same_answer_refl.
Qed.

(** X14. The element a caller passes in does not show in the answer of a
    lookup: [FindElement], and [TraversePath] on a path of at least one
    segment, return the same [bool] and, with [true], the same element
    whatever the element held before; so [bson_exists], [bson_type] and
    [bson_extract] give the same row whatever their local [elem] held, and
    [bson_extract_string] does when the path has at least one segment. *)
Theorem lookups_ignore_stale_element :
  forall bson path e1 e2,
    (forall key key_len,
        same_answer (FindElement bson (len bson) key key_len e1)
                    (FindElement bson (len bson) key key_len e2))
    /\ (forall segment rest,
          same_answer (TraversePath bson (len bson) (segment :: rest) e1)
                      (TraversePath bson (len bson) (segment :: rest) e2))
    /\ BSONExistsFunction bson path e1 = BSONExistsFunction bson path e2
    /\ BSONTypeFunction bson path e1 = BSONTypeFunction bson path e2
    /\ BSONExtractFunction bson path e1 = BSONExtractFunction bson path e2
    /\ ((forall t, ParsePath path (Z.of_nat (String.length path)) [] <> Return (t, [])) ->
        BSONExtractStringFunction bson path e1 = BSONExtractStringFunction bson path e2).
Proof.
  intros bson path e1 e2.
  split; [intros; apply FindElement_same_answer|].
  split; [intros; apply TraversePath_same_answer|].
  unfold BSONExistsFunction, BSONTypeFunction, BSONExtractFunction,
    BSONExtractStringFunction. cbv zeta.
  destruct (ParsePath path _ []) as [[t segments]|e] eqn:Hp;
    [|repeat split; reflexivity].
  destruct segments as [|segment rest].
  - repeat split; try reflexivity. intros C. exfalso. exact (C t eq_refl).
  - pose proof (TraversePath_same_answer bson (len bson) segment rest e1 e2) as [Hf Hs].
    destruct (TraversePath bson (len bson) (segment :: rest) e1) as [f1 r1].
    destruct (TraversePath bson (len bson) (segment :: rest) e2) as [f2 r2].
    cbn [fst snd] in *. subst f2.
    destruct f1; cbn [negb]; [|repeat split; reflexivity].
    rewrite (Hs eq_refl). repeat split; reflexivity.
Qed.

Lemma lookups_ignore_stale_element_witness :
  BSONExtractStringFunction john_document "$.name" no_element
  = BSONExtractStringFunction john_document "$.name" stale_element.
Proof.
  apply (lookups_ignore_stale_element john_document "$.name" no_element stale_element).
  intros t. vm_compute. discriminate.
Defined.

(** * Navigation in an encoded tree *)

Lemma first_field_Some (key : list byte) (fields : list (list byte * yyjson_val))
    (val : yyjson_val) :
  first_field key fields = Some val ->
  exists before after,
    fields = before ++ (key, val) :: after
    /\ walkable before = true
    /\ ~ In key (map fst before)
    /\ nul_free key = true
    /\ sized val = true.
Proof.
  induction fields as [|[k v] fields IH]; cbn [first_field]; [discriminate|].
  destruct (nul_free k && sized v) eqn:Hkv; [|discriminate].
  apply andb_true_iff in Hkv. destruct Hkv as [Hk Hv].
  destruct (list_eq_dec Byte.byte_eq_dec k key) as [->|Hne].
  - intros H. injection H as <-. exists [], fields.
    repeat split; auto.
  - intros H. destruct (IH H) as (before & after & -> & Hw & Hnotin & Hnul & Hs).
    exists ((k, v) :: before), after. repeat split; auto.
    + apply walkable_cons. auto.
    + cbn [map fst In]. tauto.
Qed.

Lemma FindElement_framed (before : list (list byte * yyjson_val))
    (key : list byte) (val : yyjson_val)
    (after : list (list byte * yyjson_val)) (rest : list byte) (size : Z)
    (result : BSONElement) :
  walkable before = true ->
  ~ In key (map fst before) ->
  nul_free key = true ->
  sized val = true ->
  let body := bson_elements (before ++ (key, val) :: after) in
  len (frame body) <= INT32_MAX ->
  len (frame body) <= size ->
  FindElement (frame body ++ rest) size key (len key) result
  = (true,
     BSONElement.mk (bson_tag val)
       (key ++ x00 :: bson_value val ++ bson_elements after ++ [x00] ++ rest)
       (len key)
       (bson_value val ++ bson_elements after ++ [x00] ++ rest)
       (len (bson_value val))).
Proof.
  intros Hw Hnotin Hnul Hsized body Hmax Hsize.
  rewrite len_frame in Hmax, Hsize.
  pose proof (len_nonneg body) as Hbody.
  pose proof (len_nonneg (bson_elements before)) as Hb.
  pose proof (len_nonneg (bson_elements after)) as Ha.
  pose proof (len_nonneg key) as Hk.
  pose proof (len_bson_value_pos val Hsized) as Hvpos.
  assert (len body = len (bson_elements before) + 1 + len key + 1
                     + len (bson_value val) + len (bson_elements after)) as Ebody
    by (subst body; rewrite bson_elements_app, bson_elements_cons; norm_len; lia).
  set (doc_len := 4 + len body + 1) in *.
  unfold FindElement. cbv zeta.
  assert ((size <? 5) = false) as -> by (apply Z.ltb_ge; lia).
  rewrite ReadInt32_frame by (fold doc_len; lia). fold doc_len.
  assert ((doc_len <? 5) = false) as -> by (apply Z.ltb_ge; lia).
  assert ((size <? doc_len) = false) as -> by (apply Z.ltb_ge; lia).
  cbn [orb]. unfold frame. fold doc_len.
  subst body. rewrite bson_elements_app, bson_elements_cons. rewrite <- !app_assoc.
  pose proof (find_elements_found before (le_bytes 4 doc_len) key val
                (bson_elements after ++ [x00] ++ rest) doc_len (Z.to_nat doc_len) result
                Hw Hnotin Hnul Hsized) as Hfound.
  rewrite len_le_bytes in Hfound. change (Z.of_nat 4) with 4 in Hfound.
  rewrite Hfound; try reflexivity; try lia.
  assert (List.length before <= List.length (bson_elements before))%nat as Hn.
  { clear - Hw. induction before as [|[k v] before IH]; [simpl; lia|].
    apply walkable_cons in Hw. destruct Hw as (_ & Hs & Hw).
    rewrite bson_elements_cons. rewrite !length_app. cbn [List.length].
    specialize (IH Hw). lia. }
  unfold len in *. lia.
Qed.

Lemma FindElement_framed_missing (fields : list (list byte * yyjson_val))
    (key : list byte) (rest : list byte) (size : Z) (result : BSONElement) :
  walkable fields = true ->
  ~ In key (map fst fields) ->
  len (frame (bson_elements fields)) <= INT32_MAX ->
  fst (FindElement (frame (bson_elements fields) ++ rest) size key (len key) result)
  = false.
Proof.
  intros Hw Hnotin Hmax. rewrite len_frame in Hmax.
  pose proof (len_nonneg (bson_elements fields)) as Hbody.
  unfold FindElement. cbv zeta.
  destruct (size <? 5); [reflexivity|].
  rewrite ReadInt32_frame by lia.
  destruct ((4 + len (bson_elements fields) + 1 <? 5)
            || (size <? 4 + len (bson_elements fields) + 1)); [reflexivity|].
  unfold frame. rewrite <- !app_assoc.
  set (doc_len := 4 + len (bson_elements fields) + 1) in *.
  assert (List.length fields <= List.length (bson_elements fields))%nat as Hn.
  { clear - Hw. induction fields as [|[k v] fields IH]; [simpl; lia|].
    apply walkable_cons in Hw. destruct Hw as (_ & Hs & Hw).
    rewrite bson_elements_cons. rewrite !length_app. cbn [List.length].
    specialize (IH Hw). lia. }
  destruct (find_elements_skip fields (le_bytes 4 doc_len) ([x00] ++ rest) key doc_len
              (Z.to_nat doc_len - List.length fields)%nat result Hw Hnotin)
    as [result' Hskip].
  - rewrite len_le_bytes. change (Z.of_nat 4) with 4. lia.
  - lia.
  - rewrite len_le_bytes in Hskip. change (Z.of_nat 4) with 4 in Hskip.
    replace (List.length fields + (Z.to_nat doc_len - List.length fields))%nat
      with (Z.to_nat doc_len) in Hskip by (unfold len in *; lia).
    rewrite Hskip.
    destruct (Z.to_nat doc_len - List.length fields)%nat as [|fuel] eqn:E;
      [unfold len in *; lia|].
    cbn [find_elements].
    assert ((4 + len (bson_elements fields) <? doc_len - 1) = false) as ->
      by (apply Z.ltb_ge; lia).
    reflexivity.
Qed.

Lemma json_get_obj (val : yyjson_val) (key : list byte) (keys : list (list byte))
    (target : yyjson_val) :
  json_get val (key :: keys) = Some target ->
  exists fields, val = JObj fields.
Proof. destruct val; cbn [json_get]; try discriminate. eauto. Qed.

Lemma len_bson_value_field (before : list (list byte * yyjson_val))
    (key : list byte) (val : yyjson_val) (after : list (list byte * yyjson_val)) :
  len (bson_value val)
  <= len (frame (bson_elements (before ++ (key, val) :: after))).
Proof.
  rewrite len_frame, bson_elements_app, bson_elements_cons. norm_len.
  pose proof (len_nonneg (bson_elements before)).
  pose proof (len_nonneg (bson_elements after)).
  pose proof (len_nonneg key). lia.
Qed.

Lemma TraversePath_from_json_get (keys : list (list byte)) :
  forall root key target rest size result,
    json_get root (key :: keys) = Some target ->
    len (bson_value root) <= INT32_MAX ->
    len (bson_value root) <= size ->
    exists elem tail,
      TraversePath_from (bson_value root ++ rest) size
        (map key_segment (key :: keys)) result = (true, elem)
      /\ BSONElement.type elem = bson_tag target
      /\ BSONElement.value elem = bson_value target ++ tail
      /\ BSONElement.value_len elem = len (bson_value target).
Proof.
  induction keys as [|key' keys IH];
    intros root key target rest size result Hget Hmax Hsize;
    destruct (json_get_obj _ _ _ _ Hget) as [fields ->];
    cbn [json_get] in Hget;
    destruct (first_field key fields) as [v|] eqn:Hf; try discriminate;
    destruct (first_field_Some _ _ _ Hf) as (before & after & -> & Hw & Hnotin & Hnul & Hs);
    rewrite bson_value_obj in *;
    cbn [map TraversePath_from]; unfold key_segment at 1;
    rewrite list_byte_of_string_of_list_byte, length_string_of_list_byte;
    fold (len key);
    rewrite FindElement_framed by assumption; cbn [negb].
  - injection Hget as <-. eexists _, _. repeat split.
  - cbn [BSONElement.type BSONElement.value BSONElement.value_len].
    destruct (json_get_obj _ _ _ _ Hget) as [fs ->].
    cbn [bson_tag]. change (Byte.eqb DOCUMENT DOCUMENT) with true. cbn [negb andb].
    pose proof (len_bson_value_field before key (JObj fs) after) as Hle.
    apply (IH (JObj fs) key' target); [assumption|lia|lia].
Qed.

(** X15. Navigation in an encoded tree, at any depth: when the cast hands
    back a buffer and a list of keys leads to a value in the tree -- each
    key through the first field of that name of an object, behind fields
    without NUL in their keys and without null values -- then
    [TraversePath] with the segments of these keys returns an element with
    the tag of that value whose bytes are the ones the encoder wrote for
    it. *)
Theorem TraversePath_encoded_tree :
  forall json_size root key keys target blob result,
    CastJSONToBSON json_size (Some root) = CastBlob blob ->
    json_get root (key :: keys) = Some target ->
    exists elem,
      TraversePath blob (len blob) (map key_segment (key :: keys)) result
      = (true, elem)
      /\ BSONElement.type elem = bson_tag target
      /\ string_t (BSONElement.value elem) (BSONElement.value_len elem)
         = bson_value target.
Proof.
  intros json_size root key keys target blob result Hcast Hget.
  apply CastJSONToBSON_blob in Hcast.
  destruct Hcast as (root' & Hroot & _ & -> & Hmax). injection Hroot as <-.
  destruct (json_get_obj _ _ _ _ Hget) as [fields ->].
  unfold bson_document in *. cbn [yyjson_obj_iter] in *.
  rewrite <- bson_value_obj in *.
  destruct (TraversePath_from_json_get keys (JObj fields) key target []
              (len (bson_value (JObj fields))) result Hget Hmax ltac:(lia))
    as (elem & tail & Hpath & Htype & Hvalue & Hvlen).
  rewrite app_nil_r in Hpath.
  exists elem. split; [exact Hpath|]. split; [exact Htype|].
  rewrite Hvalue, Hvlen. apply string_t_app.
Qed.

Lemma TraversePath_encoded_tree_witness :
  exists elem,
    TraversePath (bson_document nested_b) (len (bson_document nested_b))
      (map key_segment [bytes "a"; bytes "b"]) no_element = (true, elem)
    /\ BSONElement.type elem = STRING
    /\ string_t (BSONElement.value elem) (BSONElement.value_len elem)
       = [x02; x00; x00; x00; x78; x00].
Proof.
  apply (TraversePath_encoded_tree 17 nested_b (bytes "a") [bytes "b"]
           (JStr (bytes "x")) (bson_document nested_b) no_element).
  - reflexivity.
  - reflexivity.
Defined.

(** X16. A key that no field has is not found: when the cast hands back the
    buffer of an object whose top-level fields have no NUL in their keys
    and no null value, [TraversePath] returns [false] for every path whose
    first segment is a key that is not the key of a top-level field. *)
Theorem TraversePath_missing_key :
  forall json_size fields blob key segments result,
    CastJSONToBSON json_size (Some (JObj fields)) = CastBlob blob ->
    walkable fields = true ->
    ~ In key (map fst fields) ->
    fst (TraversePath blob (len blob) (key_segment key :: segments) result) = false.
Proof.
  intros json_size fields blob key segments result Hcast Hw Hnotin.
  apply CastJSONToBSON_blob in Hcast.
  destruct Hcast as (root' & Hroot & _ & -> & Hmax). injection Hroot as <-.
  unfold bson_document in *. cbn [yyjson_obj_iter] in *.
  unfold TraversePath, key_segment. cbn [TraversePath_from].
  rewrite list_byte_of_string_of_list_byte, length_string_of_list_byte.
  fold (len key).
  pose proof (FindElement_framed_missing fields key []
                (len (frame (bson_elements fields))) result Hw Hnotin Hmax) as Hmiss.
  rewrite app_nil_r in Hmiss.
  destruct (FindElement _ _ _ _ _) as [found r]. cbn [fst] in Hmiss. subst found.
  reflexivity.
Qed.

Lemma TraversePath_missing_key_witness :
  fst (TraversePath john_document (len john_document)
         [key_segment (bytes "age")] no_element) = false.
Proof.
  apply (TraversePath_missing_key 15 [(bytes "name", JStr (bytes "John"))]
           john_document (bytes "age") [] no_element).
  - reflexivity.
  - reflexivity.
  - cbn. intros [H|[]]. discriminate H.
Defined.



(** * Paths that go on below a value *)

Lemma TraversePath_from_json_get_more (keys : list (list byte)) :
  forall root key target rest size result more,
    json_get root (key :: keys) = Some target ->
    len (bson_value root) <= INT32_MAX ->
    len (bson_value root) <= size ->
    exists elem tail,
      BSONElement.type elem = bson_tag target
      /\ BSONElement.value elem = bson_value target ++ tail
      /\ BSONElement.value_len elem = len (bson_value target)
      /\ TraversePath_from (bson_value root ++ rest) size
           (map key_segment (key :: keys) ++ more) result
         = match more with
           | [] => (true, elem)
           | _ :: _ =>
               if negb (is_container (bson_tag target)) then (false, elem)
               else TraversePath_from (bson_value target ++ tail)
                      (len (bson_value target)) more elem
           end.
Proof.
  induction keys as [|key' keys IH];
    intros root key target rest size result more Hget Hmax Hsize;
    destruct (json_get_obj _ _ _ _ Hget) as [fields ->];
    cbn [json_get] in Hget;
    destruct (first_field key fields) as [v|] eqn:Hf; try discriminate;
    destruct (first_field_Some _ _ _ Hf) as (before & after & -> & Hw & Hnotin & Hnul & Hs);
    rewrite bson_value_obj in *;
    cbn [map app TraversePath_from]; unfold key_segment at 1;
    rewrite list_byte_of_string_of_list_byte, length_string_of_list_byte;
    fold (len key);
    rewrite FindElement_framed by assumption; cbn [negb].
  - injection Hget as <-.
    exists (BSONElement.mk (bson_tag v)
              (key ++ x00 :: bson_value v ++ bson_elements after ++ [x00] ++ rest)
              (len key)
              (bson_value v ++ bson_elements after ++ [x00] ++ rest)
              (len (bson_value v))),
           (bson_elements after ++ [x00] ++ rest).
    split; [reflexivity|]. split; [reflexivity|]. split; [reflexivity|].
    cbn [BSONElement.type BSONElement.value BSONElement.value_len].
    destruct more; [reflexivity|].
    unfold is_container. rewrite negb_orb. reflexivity.
  - cbn [BSONElement.type BSONElement.value BSONElement.value_len].
    destruct (json_get_obj _ _ _ _ Hget) as [fs ->].
    cbn [bson_tag]. change (Byte.eqb DOCUMENT DOCUMENT) with true. cbn [negb andb].
    pose proof (len_bson_value_field before key (JObj fs) after) as Hle.
    apply (IH (JObj fs) key' target); [assumption|lia|lia].
Qed.

Lemma FindElement_empty_document (tail : list byte) (size : Z) (key : ptr)
    (key_len : Z) (result : BSONElement) :
  fst (FindElement (frame [] ++ tail) size key key_len result) = false.
Proof.
  unfold FindElement. cbv zeta.
  destruct (size <? 5); [reflexivity|].
  rewrite ReadInt32_frame by (change (len (@nil byte)) with 0; unfold INT32_MAX; lia).
  change (len (@nil byte)) with 0.
  destruct ((4 + 0 + 1 <? 5) || (size <? 4 + 0 + 1)); reflexivity.
Qed.

Lemma lookup_empty_document (tail : list byte) (size : Z) (segment : PathSegment)
    (result : BSONElement) :
  fst (lookup (frame [] ++ tail) size segment result) = false.
Proof.
  destruct segment; cbn [lookup]; [|unfold GetArrayElement];
    apply FindElement_empty_document.
Qed.

(** X18. A path does not go on below a value that is not an object: when a
    list of keys leads to such a value in the tree, [TraversePath] on the
    buffer of the cast returns [false] for every path that continues behind
    these keys.  Below a number, a string or a boolean it stops at the tag;
    below an array it finds nothing, whatever the index or key, the encoder
    having written the array as an empty document. *)
Theorem TraversePath_below_leaf :
  forall json_size root key keys target blob segment more result,
    CastJSONToBSON json_size (Some root) = CastBlob blob ->
    json_get root (key :: keys) = Some target ->
    yyjson_is_obj target = false ->
    fst (TraversePath blob (len blob)
           (map key_segment (key :: keys) ++ segment :: more) result) = false.
Proof.
  intros json_size root key keys target blob segment more result Hcast Hget Hobj.
  apply CastJSONToBSON_blob in Hcast.
  destruct Hcast as (root' & Hroot & _ & -> & Hmax). injection Hroot as <-.
  destruct (json_get_obj _ _ _ _ Hget) as [fields Eroot].
  assert (bson_document root = bson_value root) as Edoc
    by (rewrite Eroot; unfold bson_document; cbn [yyjson_obj_iter];
        now rewrite bson_value_obj).
  rewrite Edoc in *.
  destruct (TraversePath_from_json_get_more keys root key target []
              (len (bson_value root)) result (segment :: more) Hget Hmax ltac:(lia))
    as (elem & tail & _ & _ & _ & Hpath).
  rewrite app_nil_r in Hpath. unfold TraversePath. rewrite Hpath.
  destruct target; try discriminate Hobj; try reflexivity.
  - cbn [bson_tag]. destruct (in_int32 num); reflexivity.
  - cbn [bson_tag bson_value]. change (negb (is_container ARRAY)) with false.
    cbv iota. cbn [TraversePath_from].
    pose proof (lookup_empty_document tail (len (frame [])) segment elem) as He.
    unfold lookup in He.
    destruct segment;
      match goal with |- context [let (_, _) := ?p in _] =>
        destruct p as [found r] end;
      cbn [fst] in He; subst found; reflexivity.
Qed.

Lemma TraversePath_below_leaf_witness :
  fst (TraversePath (bson_document tagged) (len (bson_document tagged))
         (map key_segment [bytes "tags"] ++ [IndexSegment 0]) no_element) = false.
Proof.
  apply (TraversePath_below_leaf 22 tagged (bytes "tags") []
           (JArr [JStr (bytes "a"); JStr (bytes "b")]) (bson_document tagged)
           (IndexSegment 0) [] no_element).
  - reflexivity.
  - reflexivity.
  - reflexivity.
Defined.

(** * Texts *)

Lemma append_assoc (a b c : string) : ((a ++ b) ++ c = a ++ (b ++ c))%string.
Proof. induction a as [|x a IH]; cbn; [reflexivity|now rewrite IH]. Qed.

Lemma append_nil_r (a : string) : (a ++ EmptyString)%string = a.
Proof. induction a as [|x a IH]; cbn; [reflexivity|now rewrite IH]. Qed.

Lemma slen_app (a b : string) : slen (a ++ b) = slen a + slen b.
Proof.
  unfold slen. induction a as [|x a IH]; cbn [String.append String.length]; lia.
Qed.

Lemma slen_String (c : ascii) (s : string) : slen (String c s) = 1 + slen s.
Proof. unfold slen. cbn [String.length]. lia. Qed.

Lemma slen_nonneg (s : string) : 0 <= slen s.
Proof. unfold slen. lia. Qed.

Lemma char_at_here (pre : string) (c : ascii) (rest : string) :
  char_at (pre ++ String c rest) (slen pre) = c.
Proof.
  unfold char_at, slen. rewrite Nat2Z.id.
  induction pre as [|x pre IH]; cbn; [reflexivity|exact IH].
Qed.

Lemma substr_app (pre key rest : string) :
  substr (pre ++ key ++ rest) (slen pre) (slen key) = key.
Proof.
  unfold substr, slen. rewrite !Nat2Z.id.
  induction pre as [|x pre IH]; cbn [String.append String.length String.substring].
  - induction key as [|y key IHk]; cbn [String.append String.length String.substring].
    + destruct rest; reflexivity.
    + now rewrite IHk.
  - exact IH.
Qed.

Lemma snoc_app (pre : string) (c : ascii) (s : string) :
  (pre ++ String c s)%string = ((pre ++ String c EmptyString) ++ s)%string.
Proof. now rewrite append_assoc. Qed.

(** * The loops of the path parser on the text of a segment *)

Lemma scan_key_bare (key : string) :
  forall pre rest fuel,
    no_char is_stop key = true ->
    (rest = EmptyString \/ exists c r, rest = String c r /\ is_stop c = true) ->
    (String.length key + String.length rest <= fuel)%nat ->
    scan_key fuel (pre ++ key ++ rest) (slen pre + slen key + slen rest) false (slen pre)
    = slen pre + slen key.
Proof.
  induction key as [|c key IH]; intros pre rest fuel Hkey Hrest Hfuel.
  - cbn [String.append]. change (slen EmptyString) with 0.
    destruct fuel as [|fuel]; cbn [scan_key]; [lia|].
    destruct Hrest as [->|(c & r & -> & Hc)].
    + change (slen EmptyString) with 0.
      assert ((slen pre <? slen pre + 0 + 0) = false) as -> by (apply Z.ltb_ge; lia).
      lia.
    + rewrite char_at_here. unfold is_stop in Hc. rewrite Hc.
      destruct (slen pre <? _); lia.
  - cbn [no_char] in Hkey. apply andb_true_iff in Hkey. destruct Hkey as [Hc Hkey].
    apply negb_true_iff in Hc. unfold is_stop in Hc.
    destruct fuel as [|fuel]; [cbn [String.length] in Hfuel; lia|].
    cbn [scan_key String.append]. rewrite slen_String.
    pose proof (slen_nonneg key). pose proof (slen_nonneg rest).
    assert ((slen pre <? slen pre + (1 + slen key) + slen rest) = true) as ->
      by (apply Z.ltb_lt; lia).
    rewrite char_at_here, Hc. rewrite snoc_app.
    specialize (IH (pre ++ String c EmptyString)%string rest fuel Hkey Hrest).
    rewrite slen_app, slen_String in IH. change (slen EmptyString) with 0 in IH.
    replace (slen pre + (1 + 0)) with (slen pre + 1) in IH by lia.
    replace (slen pre + (1 + slen key) + slen rest)
      with (slen pre + 1 + slen key + slen rest) by lia.
    rewrite IH; [lia|]. cbn [String.length] in Hfuel. lia.
Qed.

Lemma scan_key_quoted (key : string) :
  forall pre rest fuel,
    no_char is_dquote key = true ->
    (String.length key + 1 <= fuel)%nat ->
    scan_key fuel (pre ++ key ++ String dquote rest)
      (slen pre + slen key + (1 + slen rest)) true (slen pre)
    = slen pre + slen key.
Proof.
  induction key as [|c key IH]; intros pre rest fuel Hkey Hfuel.
  - cbn [String.append]. change (slen EmptyString) with 0.
    destruct fuel as [|fuel]; cbn [scan_key]; [lia|].
    rewrite char_at_here, Ascii.eqb_refl.
    destruct (slen pre <? _); lia.
  - cbn [no_char] in Hkey. apply andb_true_iff in Hkey. destruct Hkey as [Hc Hkey].
    apply negb_true_iff in Hc. unfold is_dquote in Hc.
    destruct fuel as [|fuel]; [lia|].
    cbn [scan_key String.append]. rewrite slen_String.
    pose proof (slen_nonneg key). pose proof (slen_nonneg rest).
    assert ((slen pre <? slen pre + (1 + slen key) + (1 + slen rest)) = true) as ->
      by (apply Z.ltb_lt; lia).
    rewrite char_at_here, Hc. rewrite snoc_app.
    specialize (IH (pre ++ String c EmptyString)%string rest fuel Hkey).
    rewrite slen_app, slen_String in IH. change (slen EmptyString) with 0 in IH.
    replace (slen pre + (1 + 0)) with (slen pre + 1) in IH by lia.
    replace (slen pre + (1 + slen key) + (1 + slen rest))
      with (slen pre + 1 + slen key + (1 + slen rest)) by lia.
    rewrite IH; [lia|]. cbn [String.length] in Hfuel. lia.
Qed.

Lemma scan_digits_text (digits : string) :
  forall pre c rest fuel,
    no_char (fun c => negb (is_digit c)) digits = true ->
    is_digit c = false ->
    (String.length digits + 1 <= fuel)%nat ->
    scan_digits fuel (pre ++ digits ++ String c rest)
      (slen pre + slen digits + (1 + slen rest)) (slen pre)
    = slen pre + slen digits.
Proof.
  induction digits as [|d digits IH]; intros pre c rest fuel Hd Hc Hfuel.
  - cbn [String.append]. change (slen EmptyString) with 0.
    destruct fuel as [|fuel]; cbn [scan_digits]; [lia|].
    rewrite char_at_here, Hc, andb_false_r. lia.
  - cbn [no_char] in Hd. apply andb_true_iff in Hd. destruct Hd as [Hd0 Hd].
    rewrite negb_involutive in Hd0.
    destruct fuel as [|fuel]; [lia|].
    cbn [scan_digits String.append]. rewrite slen_String.
    pose proof (slen_nonneg digits). pose proof (slen_nonneg rest).
    assert ((slen pre <? slen pre + (1 + slen digits) + (1 + slen rest)) = true) as ->
      by (apply Z.ltb_lt; lia).
    rewrite char_at_here, Hd0. cbn [andb]. rewrite snoc_app.
    specialize (IH (pre ++ String d EmptyString)%string c rest fuel Hd Hc).
    rewrite slen_app, slen_String in IH. change (slen EmptyString) with 0 in IH.
    replace (slen pre + (1 + 0)) with (slen pre + 1) in IH by lia.
    replace (slen pre + (1 + slen digits) + (1 + slen rest))
      with (slen pre + 1 + slen digits + (1 + slen rest)) by lia.
    rewrite IH; [lia|]. cbn [String.length] in Hfuel. lia.
Qed.

(** * Decimal numerals *)

Lemma digits_value_string_of_uint (d : Decimal.uint) (acc : Z) :
  digits_value acc (NilEmpty.string_of_uint d) = uint_value acc d.
Proof.
  revert acc. induction d; intros acc;
    cbn [NilEmpty.string_of_uint digits_value uint_value];
    [reflexivity|rewrite IHd; f_equal; cbn; lia..].
Qed.

Lemma uint_value_of_uint_acc (d : Decimal.uint) (acc : positive) :
  Z.pos (Pos.of_uint_acc d acc) = uint_value (Z.pos acc) d.
Proof.
  revert acc. induction d; intros acc; cbn [Pos.of_uint_acc uint_value];
    [reflexivity|rewrite IHd; f_equal; lia..].
Qed.

Lemma uint_value_of_uint (d : Decimal.uint) :
  Z.of_N (N.of_uint d) = uint_value 0 d.
Proof.
  unfold N.of_uint.
  induction d; cbn [Pos.of_uint uint_value Z.of_N];
    [reflexivity|exact IHd|rewrite uint_value_of_uint_acc; reflexivity..].
Qed.

Lemma to_uint_nonnil (n : N) : N.to_uint n <> Decimal.Nil.
Proof.
  destruct n as [|p]; cbn [N.to_uint]; [discriminate|].
  apply Unsigned.to_uint_nonnil.
Qed.

Lemma to_string_eq (index : Z) :
  to_string index = NilEmpty.string_of_uint (N.to_uint (Z.to_N index)).
Proof.
  unfold to_string. pose proof (to_uint_nonnil (Z.to_N index)) as H.
  destruct (N.to_uint (Z.to_N index)); [congruence|reflexivity..].
Qed.

Lemma digits_value_to_string (index : Z) :
  0 <= index -> digits_value 0 (to_string index) = index.
Proof.
  intros H. rewrite to_string_eq, digits_value_string_of_uint.
  rewrite <- uint_value_of_uint, DecimalN.Unsigned.of_to. lia.
Qed.

Lemma string_of_uint_digits (d : Decimal.uint) :
  no_char (fun c => negb (is_digit c)) (NilEmpty.string_of_uint d) = true.
Proof. induction d; cbn [NilEmpty.string_of_uint no_char]; auto. Qed.

Lemma to_string_digits (index : Z) :
  no_char (fun c => negb (is_digit c)) (to_string index) = true.
Proof. rewrite to_string_eq. apply string_of_uint_digits. Qed.

Lemma to_string_nonempty (index : Z) : 0 < slen (to_string index).
Proof.
  rewrite to_string_eq. pose proof (to_uint_nonnil (Z.to_N index)) as H.
  destruct (N.to_uint (Z.to_N index)); [congruence|..];
    cbn [NilEmpty.string_of_uint]; rewrite slen_String;
    match goal with |- context [slen ?s] => pose proof (slen_nonneg s) end; lia.
Qed.

(** * The text of a path parses back to its segments *)

Lemma segments_text_start (segments : list PathSegment) :
  segments_text segments = EmptyString
  \/ exists c r, segments_text segments = String c r /\ is_stop c = true.
Proof.
  destruct segments as [|seg segments]; [left; reflexivity|right].
  cbn [segments_text fold_right]. destruct seg as [key|index]; cbn [segment_text].
  - destruct (bare_key key); cbn [String.append]; eexists _, _; split; reflexivity.
  - cbn [String.append]. eexists _, _; split; reflexivity.
Qed.

Lemma parse_steps_index (index : Z) (pre rest : string) (fuel : nat)
    (segments : list PathSegment) :
  0 <= index ->
  let path := (pre ++ segment_text (IndexSegment index) ++ rest)%string in
  parse_steps (S fuel) path (slen path) (slen pre) segments
  = if UINT64_MAX <? index then Some (Raise StoullOutOfRange)
    else parse_steps fuel path (slen path)
           (slen pre + slen (segment_text (IndexSegment index)))
           (segments ++ [IndexSegment index]).
Proof.
  intros H0. cbv zeta.
  pose proof (slen_nonneg pre) as Hpre. pose proof (slen_nonneg rest) as Hr.
  set (digits := to_string index) in *.
  pose proof (to_string_nonempty index) as Hdpos. fold digits in Hdpos.
  pose proof (to_string_digits index) as Hdigits. fold digits in Hdigits.
  assert (segment_text (IndexSegment index)
          = String "[" (digits ++ String "]" EmptyString)) as Etext by reflexivity.
  rewrite Etext.
  set (path := (pre ++ String "[" (digits ++ String "]" EmptyString) ++ rest)%string) in *.
  assert (path = (pre ++ String "[" (digits ++ String "]" rest))%string) as Epath
    by (subst path; cbn [String.append]; now rewrite append_assoc).
  assert (slen path = slen pre + 1 + slen digits + 1 + slen rest) as Elen
    by (rewrite Epath, slen_app, slen_String, slen_app, slen_String; lia).
  assert (slen (String "[" (digits ++ String "]" EmptyString)) = 1 + slen digits + 1)
    as Etlen
    by (rewrite slen_String, slen_app, slen_String; change (slen EmptyString) with 0; lia).
  set (pre1 := (pre ++ String "[" EmptyString)%string).
  assert (path = (pre1 ++ digits ++ String "]" rest)%string) as Epath1
    by (rewrite Epath; apply snoc_app).
  assert (slen pre1 = slen pre + 1) as Epre1
    by (subst pre1; rewrite slen_app, slen_String; change (slen EmptyString) with 0; lia).
  assert (path = ((pre1 ++ digits) ++ String "]" rest)%string) as Epath2
    by (rewrite Epath1; now rewrite append_assoc).
  assert (slen (pre1 ++ digits) = slen pre + 1 + slen digits) as Epre2
    by (rewrite slen_app; lia).
  cbn [parse_steps]. cbv zeta.
  assert ((slen pre <? slen path) = true) as -> by (apply Z.ltb_lt; lia).
  assert (char_at path (slen pre) = "["%char) as ->
    by (rewrite Epath; apply char_at_here).
  change (Ascii.eqb "[" ".") with false. change (Ascii.eqb "[" "[") with true.
  cbv iota.
  assert ((slen path <=? slen pre + 1) = false) as -> by (apply Z.leb_gt; lia).
  assert (scan_digits (Z.to_nat (slen path - (slen pre + 1))) path (slen path)
            (slen pre + 1) = slen pre + 1 + slen digits) as Escan.
  { replace (slen path) with (slen pre1 + slen digits + (1 + slen rest)) by lia.
    rewrite Epath1, <- Epre1.
    apply scan_digits_text; [assumption|reflexivity|unfold slen in *; lia]. }
  rewrite Escan.
  assert ((slen pre + 1 + slen digits =? slen pre + 1) = false) as ->
    by (apply Z.eqb_neq; lia).
  assert ((slen path <=? slen pre + 1 + slen digits) = false) as ->
    by (apply Z.leb_gt; lia).
  assert (char_at path (slen pre + 1 + slen digits) = "]"%char) as Ec
    by (rewrite Epath2, <- Epre2; apply char_at_here).
  rewrite Ec. change (Ascii.eqb "]" "]") with true. cbn [orb negb].
  replace (slen pre + 1 + slen digits - (slen pre + 1)) with (slen digits) by lia.
  assert (substr path (slen pre + 1) (slen digits) = digits) as ->
    by (rewrite Epath1, <- Epre1; apply substr_app).
  unfold stoull. cbv zeta. subst digits. rewrite digits_value_to_string by assumption.
  destruct (UINT64_MAX <? index); [reflexivity|].
  f_equal. lia.
Qed.


Lemma parse_steps_segment (seg : PathSegment) (pre rest : string) (fuel : nat)
    (segments : list PathSegment) :
  printable seg = true ->
  (rest = EmptyString \/ exists c r, rest = String c r /\ is_stop c = true) ->
  let path := (pre ++ segment_text seg ++ rest)%string in
  parse_steps (S fuel) path (slen path) (slen pre) segments
  = parse_steps fuel path (slen path) (slen pre + slen (segment_text seg))
      (segments ++ [seg]).
Proof.
  intros Hp Hrest. cbv zeta.
  pose proof (slen_nonneg pre) as Hpre. pose proof (slen_nonneg rest) as Hr.
  destruct seg as [key|index]; cbn [printable] in Hp.
  - (* a key *)
    pose proof (slen_nonneg key) as Hk.
    destruct (bare_key key) eqn:Hbare.
    + (* without quotes *)
      assert (segment_text (KeySegment key) = String "." key) as Etext
        by (cbn [segment_text]; now rewrite Hbare).
      rewrite Etext.
      set (path := (pre ++ String "." key ++ rest)%string) in *.
      assert (path = (pre ++ String "." (key ++ rest))%string) as Epath
        by (subst path; reflexivity).
      assert (slen path = slen pre + (1 + slen key) + slen rest) as Elen
        by (rewrite Epath, slen_app, slen_String, slen_app; lia).
      assert (slen (String "." key) = 1 + slen key) as Etlen by apply slen_String.
      assert (path = ((pre ++ String "." EmptyString) ++ key ++ rest)%string) as Epath'
        by (rewrite Epath; apply snoc_app).
      assert (slen (pre ++ String "." EmptyString) = slen pre + 1) as Epre'
        by (rewrite slen_app, slen_String; change (slen EmptyString) with 0; lia).
      destruct key as [|c key']; [discriminate|].
      cbn [bare_key] in Hbare. apply andb_true_iff in Hbare.
      destruct Hbare as [Hq Hstop]. apply negb_true_iff in Hq. unfold is_dquote in Hq.
      set (key := String c key') in *.
      assert (0 < slen key) as Hkpos
        by (subst key; rewrite slen_String; pose proof (slen_nonneg key'); lia).
      cbn [parse_steps]. cbv zeta.
      assert ((slen pre <? slen path) = true) as -> by (apply Z.ltb_lt; lia).
      assert (char_at path (slen pre) = "."%char) as ->
        by (rewrite Epath; apply char_at_here).
      change (Ascii.eqb "." ".") with true. cbv iota.
      assert ((slen path <=? slen pre + 1) = false) as -> by (apply Z.leb_gt; lia).
      assert (char_at path (slen pre + 1) = c) as Ec.
      { rewrite Epath', <- Epre'. subst key. cbn [String.append]. apply char_at_here. }
      rewrite Ec, Hq.
      assert (scan_key (Z.to_nat (slen path - (slen pre + 1))) path (slen path) false
                (slen pre + 1) = slen pre + 1 + slen key) as Escan.
      { replace (slen path)
          with (slen (pre ++ String "." EmptyString) + slen key + slen rest) by lia.
        rewrite Epath', <- Epre'.
        apply scan_key_bare; try assumption.
        unfold slen in *. lia. }
      rewrite Escan.
      assert ((slen pre + 1 + slen key =? slen pre + 1) = false) as ->
        by (apply Z.eqb_neq; lia).
      replace (slen pre + 1 + slen key - (slen pre + 1)) with (slen key) by lia.
      assert (substr path (slen pre + 1) (slen key) = key) as ->
        by (rewrite Epath', <- Epre'; apply substr_app).
      f_equal. lia.
    + (* between quotes *)
      cbn [orb] in Hp.
      assert (segment_text (KeySegment key)
              = String "." (String dquote (key ++ String dquote EmptyString))) as Etext
        by (cbn [segment_text]; now rewrite Hbare).
      rewrite Etext.
      set (path := (pre ++ String "." (String dquote (key ++ String dquote EmptyString))
                        ++ rest)%string) in *.
      assert (path = (pre ++ String "." (String dquote (key ++ String dquote rest)))%string)
        as Epath
        by (subst path; cbn [String.append]; now rewrite append_assoc).
      assert (slen path = slen pre + 2 + slen key + 1 + slen rest) as Elen
        by (rewrite Epath, slen_app, !slen_String, slen_app, slen_String; lia).
      assert (slen (String "." (String dquote (key ++ String dquote EmptyString)))
              = 2 + slen key + 1) as Etlen
        by (rewrite !slen_String, slen_app, slen_String; change (slen EmptyString) with 0; lia).
      set (pre1 := (pre ++ String "." EmptyString)%string).
      set (pre2 := (pre1 ++ String dquote EmptyString)%string).
      assert (path = (pre1 ++ String dquote (key ++ String dquote rest))%string) as Epath1
        by (rewrite Epath; apply snoc_app).
      assert (path = (pre2 ++ key ++ String dquote rest)%string) as Epath2
        by (rewrite Epath1; apply snoc_app).
      assert (slen pre1 = slen pre + 1) as Epre1
        by (subst pre1; rewrite slen_app, slen_String; change (slen EmptyString) with 0; lia).
      assert (slen pre2 = slen pre + 2) as Epre2
        by (subst pre2; rewrite slen_app, slen_String; change (slen EmptyString) with 0; lia).
      assert (path = ((pre2 ++ key) ++ String dquote rest)%string) as Epath3
        by (rewrite Epath2; now rewrite append_assoc).
      assert (slen (pre2 ++ key) = slen pre + 2 + slen key) as Epre3
        by (rewrite slen_app; lia).
      assert (0 < slen key) as Hkpos.
      { destruct key as [|c key']; [discriminate|].
        rewrite slen_String. pose proof (slen_nonneg key'). lia. }
      assert (no_char is_dquote key = true) as Hnq
        by (destruct key; [discriminate|exact Hp]).
      cbn [parse_steps]. cbv zeta.
      assert ((slen pre <? slen path) = true) as -> by (apply Z.ltb_lt; lia).
      assert (char_at path (slen pre) = "."%char) as ->
        by (rewrite Epath; apply char_at_here).
      change (Ascii.eqb "." ".") with true. cbv iota.
      assert ((slen path <=? slen pre + 1) = false) as -> by (apply Z.leb_gt; lia).
      assert (char_at path (slen pre + 1) = dquote) as Ec
        by (rewrite Epath1, <- Epre1; apply char_at_here).
      rewrite Ec, Ascii.eqb_refl.
      assert (scan_key (Z.to_nat (slen path - (slen pre + 1 + 1))) path (slen path) true
                (slen pre + 1 + 1) = slen pre + 2 + slen key) as Escan.
      { replace (slen pre + 1 + 1) with (slen pre2) by lia.
        replace (slen path) with (slen pre2 + slen key + (1 + slen rest)) by lia.
        rewrite Epath2.
        rewrite scan_key_quoted; [lia|assumption|unfold slen in *; lia]. }
      rewrite Escan.
      assert ((slen pre + 2 + slen key =? slen pre + 1 + 1) = false) as ->
        by (apply Z.eqb_neq; lia).
      assert ((slen path <=? slen pre + 2 + slen key) = false) as ->
        by (apply Z.leb_gt; lia).
      assert (char_at path (slen pre + 2 + slen key) = dquote) as Ec'
        by (rewrite Epath3, <- Epre3; apply char_at_here).
      rewrite Ec', Ascii.eqb_refl. cbn [orb negb].
      replace (slen pre + 2 + slen key - (slen pre + 1 + 1)) with (slen key) by lia.
      assert (substr path (slen pre + 1 + 1) (slen key) = key) as ->.
      { rewrite Epath2. replace (slen pre + 1 + 1) with (slen pre2) by lia.
        apply substr_app. }
      f_equal. lia.
  - (* an index *)
    apply andb_true_iff in Hp. destruct Hp as [H0 Hmax].
    apply Z.leb_le in H0. apply Z.leb_le in Hmax.
    rewrite (parse_steps_index index pre rest fuel segments H0).
    assert ((UINT64_MAX <? index) = false) as -> by (apply Z.ltb_ge; lia).
    reflexivity.
Qed.

Lemma parse_steps_text (new : list PathSegment) :
  forall pre segments fuel,
    forallb printable new = true ->
    (List.length new < fuel)%nat ->
    let path := (pre ++ segments_text new)%string in
    parse_steps fuel path (slen path) (slen pre) segments
    = Some (Return (segments ++ new)).
Proof.
  induction new as [|seg new IH]; intros pre segments fuel Hp Hfuel path.
  - subst path. cbn [segments_text fold_right]. rewrite append_nil_r, app_nil_r.
    destruct fuel as [|fuel]; [cbn [List.length] in Hfuel; lia|].
    cbn [parse_steps]. now rewrite Z.ltb_irrefl.
  - cbn [forallb] in Hp. apply andb_true_iff in Hp. destruct Hp as [Hseg Hp].
    destruct fuel as [|fuel]; [lia|].
    subst path. cbn [segments_text fold_right]. fold (segments_text new).
    rewrite (parse_steps_segment seg pre (segments_text new) fuel segments Hseg
               (segments_text_start new)).
    rewrite <- slen_app, <- append_assoc.
    rewrite (IH (pre ++ segment_text seg)%string (segments ++ [seg]) fuel Hp);
      [now rewrite <- app_assoc|].
    cbn [List.length] in Hfuel. lia.
Qed.

Lemma path_text_length (segments : list PathSegment) :
  (List.length segments < String.length (path_text segments))%nat.
Proof.
  unfold path_text. cbn [String.length].
  enough (List.length segments <= String.length (segments_text segments))%nat by lia.
  induction segments as [|seg segments IH]; [cbn; lia|].
  cbn [segments_text fold_right List.length]. fold (segments_text segments).
  pose proof (slen_app (segment_text seg) (segments_text segments)) as E.
  unfold slen in E.
  assert (1 <= String.length (segment_text seg))%nat.
  { destruct seg; cbn [segment_text]; [destruct (bare_key key)|]; cbn [String.length]; lia. }
  lia.
Qed.

Lemma ParsePath_on_text (new segments : list PathSegment) :
  ParsePath (path_text new) (Z.of_nat (String.length (path_text new))) segments
  = match parse_steps (S (String.length (path_text new))) (path_text new)
            (slen (path_text new)) 1 segments with
    | Some (Return segments) => Return (REGULAR, segments)
    | Some (Raise e) => Raise e
    | None => Return (REGULAR, segments)
    end.
Proof.
  unfold ParsePath. fold (slen (path_text new)).
  assert ((slen (path_text new) =? 0) = false) as ->
    by (apply Z.eqb_neq; unfold slen, path_text; cbn [String.length]; lia).
  change (char_at (path_text new) 0) with "$"%char.
  change (negb (Ascii.eqb "$" "$")) with false. cbv iota.
  unfold slen at 1. now rewrite Nat2Z.id.
Qed.

(** X19. The text of a path parses back to its segments: for segments whose
    keys can be written (without quotes: not empty, no quote in front, no
    dot and no opening bracket; between quotes: not empty, no quote) and
    whose indices are [uint64_t] values, [ParsePath] on the dollar sign
    followed by the text of each segment appends exactly these segments to
    the vector it is given. *)
Theorem ParsePath_path_text :
  forall new segments,
    forallb printable new = true ->
    ParsePath (path_text new) (Z.of_nat (String.length (path_text new))) segments
    = Return (REGULAR, segments ++ new).
Proof.
  intros new segments Hp.
  pose proof (path_text_length new) as Hlen.
  rewrite ParsePath_on_text.
  pose proof (parse_steps_text new (String "$" EmptyString) segments
                (S (String.length (path_text new))) Hp) as H.
  cbv zeta in H. change (slen (String "$" EmptyString)) with 1 in H.
  change (String "$" EmptyString ++ segments_text new)%string with (path_text new) in H.
  rewrite H; [reflexivity|lia].
Qed.

Lemma ParsePath_path_text_witness :
  ParsePath "$.a[10].b" 9 []
  = Return (REGULAR, [KeySegment "a"; IndexSegment 10; KeySegment "b"]).
Proof.
  apply (ParsePath_path_text [KeySegment "a"; IndexSegment 10; KeySegment "b"] []).
  reflexivity.
Defined.

(** * What the path parser returns *)

Lemma scan_key_le (fuel : nat) (path : string) (len : Z) (quoted : bool) (pos : Z) :
  pos <= len -> scan_key fuel path len quoted pos <= len.
Proof.
  revert pos. induction fuel as [|fuel IH]; intros pos Hp; cbn [scan_key]; [exact Hp|].
  destruct (Z.ltb_spec pos len); [|exact Hp].
  specialize (IH (pos + 1) ltac:(lia)).
  repeat match goal with |- context [if ?c then _ else _] => destruct c end; lia.
Qed.

Lemma length_substring (s : string) (n m : nat) :
  (n + m <= String.length s)%nat -> String.length (String.substring n m s) = m.
Proof.
  revert n m. induction s as [|c s IH]; intros n m H; cbn [String.length] in H.
  - assert (n = 0 /\ m = 0)%nat as [-> ->] by lia. reflexivity.
  - destruct n as [|n]; cbn [String.substring].
    + destruct m as [|m]; [reflexivity|]. cbn [String.length]. rewrite IH; lia.
    + apply IH. lia.
Qed.

Lemma substr_nonempty (path : string) (start n : Z) :
  0 <= start -> 0 < n -> start + n <= slen path ->
  substr path start n <> EmptyString.
Proof.
  intros Hs Hn Hle C. unfold substr, slen in *.
  pose proof (length_substring path (Z.to_nat start) (Z.to_nat n) ltac:(lia)) as H.
  rewrite C in H. cbn [String.length] in H. lia.
Qed.

Lemma substr_step (path : string) (pos n : Z) :
  0 <= pos < slen path -> 0 < n ->
  substr path pos n = String (char_at path pos) (substr path (pos + 1) (n - 1)).
Proof.
  intros Hp Hn. unfold substr, char_at, slen in *.
  replace (Z.to_nat (pos + 1)) with (S (Z.to_nat pos)) by lia.
  replace (Z.to_nat n) with (S (Z.to_nat (n - 1))) by lia.
  assert (Z.to_nat pos < String.length path)%nat as H by lia.
  generalize (Z.to_nat (n - 1)) as m. revert H. generalize (Z.to_nat pos) as k.
  clear. induction path as [|c path IH]; intros k H m; cbn [String.length] in H; [lia|].
  destruct k as [|k].
  - cbn [String.substring String.get]. reflexivity.
  - cbn [String.substring String.get]. rewrite IH by lia. reflexivity.
Qed.

Lemma scan_digits_digits (fuel : nat) (path : string) (len pos : Z) :
  0 <= pos -> len <= slen path ->
  no_char (fun c => negb (is_digit c))
    (substr path pos (scan_digits fuel path len pos - pos)) = true.
Proof.
  revert pos. induction fuel as [|fuel IH]; intros pos Hp Hlen; cbn [scan_digits].
  - replace (pos - pos) with 0 by lia. unfold substr. cbn [Z.to_nat].
    destruct path; [destruct (Z.to_nat pos)|]; try reflexivity.
    assert (forall s k, String.substring k 0 s = EmptyString) as E.
    { induction s as [|x s IHs]; intros [|k]; cbn; auto. }
    rewrite E. reflexivity.
  - destruct (Z.ltb_spec pos len) as [Hlt|]; cbn [andb].
    + destruct (is_digit (char_at path pos)) eqn:Hd.
      * pose proof (scan_digits_ge fuel path len (pos + 1)) as Hge.
        rewrite substr_step by lia. cbn [no_char]. rewrite Hd. cbn [negb andb].
        replace (scan_digits fuel path len (pos + 1) - pos - 1)
          with (scan_digits fuel path len (pos + 1) - (pos + 1)) by lia.
        apply IH; lia.
      * replace (pos - pos) with 0 by lia. unfold substr. cbn [Z.to_nat].
        assert (forall s k, String.substring k 0 s = EmptyString) as E.
        { induction s as [|x s IHs]; intros [|k]; cbn; auto. }
        rewrite E. reflexivity.
    + replace (pos - pos) with 0 by lia. unfold substr. cbn [Z.to_nat].
      assert (forall s k, String.substring k 0 s = EmptyString) as E.
      { induction s as [|x s IHs]; intros [|k]; cbn; auto. }
      rewrite E. reflexivity.
Qed.

Lemma digits_value_nonneg (s : string) (acc : Z) :
  no_char (fun c => negb (is_digit c)) s = true ->
  0 <= acc -> 0 <= digits_value acc s.
Proof.
  revert acc. induction s as [|c s IH]; intros acc Hs Hacc; cbn [digits_value];
    [exact Hacc|].
  cbn [no_char] in Hs. apply andb_true_iff in Hs. destruct Hs as [Hc Hs].
  rewrite negb_involutive in Hc. unfold is_digit in Hc.
  apply andb_true_iff in Hc. destruct Hc as [Hc _]. apply Z.leb_le in Hc.
  apply IH; [exact Hs|lia].
Qed.

Lemma parse_steps_appends (fuel : nat) (path : string) (len : Z) :
  forall pos segments out,
    len <= slen path ->
    0 <= pos ->
    parse_steps fuel path len pos segments = Some (Return out) ->
    exists new, out = segments ++ new /\ Forall well_formed new.
Proof.
  induction fuel as [|fuel IH]; intros pos segments out Hlen Hpos H; [discriminate|].
  cbn [parse_steps] in H. cbv zeta in H.
  destruct (Z.ltb_spec pos len) as [Hlt|].
  2:{ injection H as <-. exists []. rewrite app_nil_r. split; [reflexivity|constructor]. }
  destruct (Ascii.eqb (char_at path pos) ".").
  - destruct (Z.leb_spec len (pos + 1)); [discriminate|].
    set (q := Ascii.eqb (char_at path (pos + 1)) dquote) in *.
    set (start := if q then pos + 1 + 1 else pos + 1) in *.
    set (p := scan_key (Z.to_nat (len - start)) path len q start) in *.
    assert (pos + 1 <= start) as Hstart by (unfold start; destruct q; lia).
    pose proof (scan_key_ge (Z.to_nat (len - start)) path len q start) as Hge.
    fold p in Hge.
    destruct (Z.eqb_spec p start); [discriminate|].
    assert (well_formed (KeySegment (substr path start (p - start)))) as Hwf.
    { cbn [well_formed]. destruct (Z.le_gt_cases start len).
      - pose proof (scan_key_le (Z.to_nat (len - start)) path len q start ltac:(lia))
          as Hle.
        fold p in Hle. apply substr_nonempty; lia.
      - exfalso. subst p. replace (Z.to_nat (len - start)) with O in * by lia.
        cbn [scan_key] in *. lia. }
    assert (exists new, out = (segments ++ [KeySegment (substr path start (p - start))]) ++ new
                        /\ Forall well_formed new) as (new & -> & Hnew).
    { destruct q.
      - destruct ((len <=? p) || negb (Ascii.eqb (char_at path p) dquote));
          [discriminate|].
        apply IH in H; [exact H|assumption|lia].
      - apply IH in H; [exact H|assumption|lia]. }
    exists (KeySegment (substr path start (p - start)) :: new).
    rewrite <- app_assoc. split; [reflexivity|]. constructor; assumption.
  - destruct (Ascii.eqb (char_at path pos) "["); [|discriminate].
    destruct (Z.leb_spec len (pos + 1)); [discriminate|].
    set (p := scan_digits (Z.to_nat (len - (pos + 1))) path len (pos + 1)) in *.
    pose proof (scan_digits_ge (Z.to_nat (len - (pos + 1))) path len (pos + 1)) as Hge.
    fold p in Hge.
    pose proof (scan_digits_digits (Z.to_nat (len - (pos + 1))) path len (pos + 1)
                  ltac:(lia) Hlen) as Hd.
    fold p in Hd.
    destruct ((p =? pos + 1) || (len <=? p) || negb (Ascii.eqb (char_at path p) "]"));
      [discriminate|].
    unfold stoull in H. cbv zeta in H.
    pose proof (digits_value_nonneg _ 0 Hd ltac:(lia)) as Hnn.
    set (index := digits_value 0 (substr path (pos + 1) (p - (pos + 1)))) in *.
    destruct (Z.ltb_spec UINT64_MAX index); [discriminate|].
    apply IH in H; [|assumption|lia].
    destruct H as (new & -> & Hnew).
    exists (IndexSegment index :: new).
    rewrite <- app_assoc. split; [reflexivity|].
    constructor; [cbn [well_formed]; lia|assumption].
Qed.

(** X20. What [ParsePath] returns on the [len] characters of a path: it
    keeps the segments the vector held and appends to them (it does not
    clear the vector); the path type is [REGULAR]; no key it appends is
    empty and every index it appends is a [uint64_t]. *)
Theorem ParsePath_appends :
  forall path segments t out,
    ParsePath path (Z.of_nat (String.length path)) segments = Return (t, out) ->
    t = REGULAR
    /\ exists new, out = segments ++ new /\ Forall well_formed new.
Proof.
  intros path segments t out H. unfold ParsePath in H.
  destruct (Z.of_nat (String.length path) =? 0).
  - injection H as <- <-. split; [reflexivity|].
    exists []. rewrite app_nil_r. split; [reflexivity|constructor].
  - destruct (negb (Ascii.eqb (char_at path 0) "$")); [discriminate|].
    destruct (parse_steps _ _ _ _ _) as [[r|e]|] eqn:E; try discriminate.
    + injection H as <- <-. split; [reflexivity|].
      apply parse_steps_appends in E; [exact E|unfold slen; lia|lia].
    + injection H as <- <-. split; [reflexivity|].
      exists []. rewrite app_nil_r. split; [reflexivity|constructor].
Qed.

Lemma ParsePath_appends_witness :
  REGULAR = REGULAR
  /\ exists new,
       [IndexSegment 7; KeySegment "a"; IndexSegment 0]
       = [IndexSegment 7] ++ new /\ Forall well_formed new.
Proof.
  apply (ParsePath_appends "$.a[0]" [IndexSegment 7]). reflexivity.
Defined.

(** * The errors of the path parser *)

Lemma starts_app (a b : string) :
  (a = EmptyString \/ exists c r, a = String c r /\ is_stop c = true) ->
  (b = EmptyString \/ exists c r, b = String c r /\ is_stop c = true) ->
  ((a ++ b)%string = EmptyString
   \/ exists c r, (a ++ b)%string = String c r /\ is_stop c = true).
Proof.
  intros [->|(c & r & -> & Hc)] Hb; [exact Hb|right].
  cbn [String.append]. eauto.
Qed.

Lemma parse_steps_text_more (new : list PathSegment) :
  forall pre rest segments fuel,
    forallb printable new = true ->
    (rest = EmptyString \/ exists c r, rest = String c r /\ is_stop c = true) ->
    let path := (pre ++ segments_text new ++ rest)%string in
    parse_steps (List.length new + fuel) path (slen path) (slen pre) segments
    = parse_steps fuel path (slen path) (slen pre + slen (segments_text new))
        (segments ++ new).
Proof.
  induction new as [|seg new IH]; intros pre rest segments fuel Hp Hrest path.
  - subst path. cbn [segments_text fold_right List.length Nat.add String.append].
    change (slen EmptyString) with 0. rewrite app_nil_r, Z.add_0_r. reflexivity.
  - cbn [forallb] in Hp. apply andb_true_iff in Hp. destruct Hp as [Hseg Hp].
    subst path. cbn [segments_text fold_right List.length Nat.add].
    fold (segments_text new). rewrite append_assoc.
    rewrite (parse_steps_segment seg pre (segments_text new ++ rest)
               (List.length new + fuel) segments Hseg
               (starts_app _ _ (segments_text_start new) Hrest)).
    rewrite <- slen_app.
    replace (pre ++ segment_text seg ++ segments_text new ++ rest)%string
      with ((pre ++ segment_text seg) ++ segments_text new ++ rest)%string
      by (now rewrite append_assoc).
    rewrite (IH (pre ++ segment_text seg)%string rest (segments ++ [seg]) fuel Hp Hrest).
    rewrite <- app_assoc, !slen_app. cbn [app]. f_equal. lia.
Qed.

Lemma parse_after_path (new : list PathSegment) (rest : string) :
  forallb printable new = true ->
  (exists c r, rest = String c r /\ is_stop c = true) ->
  let path := (path_text new ++ rest)%string in
  parse path
  = match parse_steps (S (String.length rest)) path (slen path)
            (slen (path_text new)) new with
    | Some (Return segments) => Return (REGULAR, segments)
    | Some (Raise e) => Raise e
    | None => Return (REGULAR, [])
    end.
Proof.
  intros Hp Hrest path. unfold parse, ParsePath. fold (slen path).
  assert (slen path = 1 + slen (segments_text new) + slen rest) as Elen
    by (subst path; unfold path_text; cbn [String.append];
        rewrite slen_String, slen_app; lia).
  pose proof (slen_nonneg (segments_text new)) as Hnn.
  pose proof (slen_nonneg rest) as Hrn.
  assert ((slen path =? 0) = false) as -> by (apply Z.eqb_neq; lia).
  change (char_at path 0) with "$"%char.
  change (negb (Ascii.eqb "$" "$")) with false. cbv iota.
  assert (List.length new <= String.length (segments_text new))%nat as Hn.
  { pose proof (path_text_length new) as Hl. unfold path_text in Hl.
    cbn [String.length] in Hl. lia. }
  set (extra := (Z.to_nat (slen path) - List.length new - String.length rest)%nat).
  assert (S (Z.to_nat (slen path))
          = (List.length new + (extra + S (String.length rest)))%nat) as ->
    by (unfold extra, slen in *; lia).
  pose proof (parse_steps_text_more new (String "$" EmptyString) rest []
                (extra + S (String.length rest)) Hp (or_intror Hrest)) as Hsteps.
  cbv zeta in Hsteps. change (slen (String "$" EmptyString)) with 1 in Hsteps.
  change (String "$" EmptyString ++ segments_text new ++ rest)%string with path in Hsteps.
  rewrite Hsteps. cbn [app].
  replace (1 + slen (segments_text new)) with (slen (path_text new))
    by (unfold path_text; rewrite slen_String; lia).
  (* more fuel than the rest needs does not change the result *)
  assert (forall f p segs,
             (Z.max 0 (slen path - p) < Z.of_nat f) ->
             forall extra, parse_steps (extra + f) path (slen path) p segs
                           = parse_steps f path (slen path) p segs) as Hmore.
  { clear. induction f as [|f IH]; intros p segs Hf extra; [lia|].
    replace (extra + S f)%nat with (S (extra + f)) by lia.
    cbn [parse_steps]. cbv zeta.
    destruct (Z.ltb_spec p (slen path)); [|reflexivity].
    destruct (Ascii.eqb (char_at path p) ".").
    - destruct (slen path <=? p + 1); [reflexivity|].
      set (q := Ascii.eqb (char_at path (p + 1)) dquote).
      set (start := if q then p + 1 + 1 else p + 1).
      set (p' := scan_key (Z.to_nat (slen path - start)) path (slen path) q start).
      assert (p + 1 <= start) as Hstart by (unfold start; destruct q; lia).
      pose proof (scan_key_ge (Z.to_nat (slen path - start)) path (slen path) q start)
        as Hge. fold p' in Hge.
      destruct (p' =? start); [reflexivity|].
      destruct q.
      + destruct ((slen path <=? p') || negb (Ascii.eqb (char_at path p') dquote));
          [reflexivity|]. apply IH. lia.
      + apply IH. lia.
    - destruct (Ascii.eqb (char_at path p) "["); [|reflexivity].
      destruct (slen path <=? p + 1); [reflexivity|].
      set (p' := scan_digits (Z.to_nat (slen path - (p + 1))) path (slen path) (p + 1)).
      pose proof (scan_digits_ge (Z.to_nat (slen path - (p + 1))) path (slen path) (p + 1))
        as Hge. fold p' in Hge.
      destruct ((p' =? p + 1) || (slen path <=? p')
                || negb (Ascii.eqb (char_at path p') "]")); [reflexivity|].
      destruct (stoull _); [|reflexivity]. apply IH. lia. }
  rewrite Hmore; [|unfold slen in *; unfold path_text;
                   cbn [String.length]; lia].
  destruct (parse_steps _ _ _ _ _) as [[segs|e]|]; reflexivity.
Qed.

Lemma char_at_next (pre : string) (c d : ascii) (rest : string) :
  char_at (pre ++ String c (String d rest)) (slen pre + 1) = d.
Proof.
  rewrite snoc_app.
  replace (slen pre + 1) with (slen (pre ++ String c EmptyString))
    by (rewrite slen_app, slen_String; change (slen EmptyString) with 0; lia).
  apply char_at_here.
Qed.

Lemma scan_key_stop (fuel : nat) (path : string) (len pos : Z) :
  is_stop (char_at path pos) = true -> scan_key fuel path len false pos = pos.
Proof.
  intros H. destruct fuel as [|fuel]; cbn [scan_key]; [reflexivity|].
  unfold is_stop in H. rewrite H. destruct (pos <? len); reflexivity.
Qed.

Lemma scan_digits_stop (fuel : nat) (path : string) (len pos : Z) :
  is_digit (char_at path pos) = false -> scan_digits fuel path len pos = pos.
Proof.
  intros H. destruct fuel as [|fuel]; cbn [scan_digits]; [reflexivity|].
  rewrite H, andb_false_r. reflexivity.
Qed.

Lemma scan_key_to_end (key : string) :
  forall pre fuel,
    no_char is_dquote key = true ->
    scan_key fuel (pre ++ key) (slen pre + slen key) true (slen pre)
    <= slen pre + slen key
    /\ ((String.length key <= fuel)%nat ->
        scan_key fuel (pre ++ key) (slen pre + slen key) true (slen pre)
        = slen pre + slen key).
Proof.
  induction key as [|c key IH]; intros pre fuel Hkey.
  - change (slen EmptyString) with 0. rewrite append_nil_r, Z.add_0_r.
    destruct fuel as [|fuel]; cbn [scan_key]; [split; [lia|reflexivity]|].
    rewrite Z.ltb_irrefl. split; [lia|reflexivity].
  - cbn [no_char] in Hkey. apply andb_true_iff in Hkey. destruct Hkey as [Hc Hkey].
    apply negb_true_iff in Hc. unfold is_dquote in Hc.
    rewrite slen_String. pose proof (slen_nonneg key) as Hk.
    destruct fuel as [|fuel]; cbn [scan_key]; [split; [lia|cbn [String.length]; lia]|].
    assert ((slen pre <? slen pre + (1 + slen key)) = true) as ->
      by (apply Z.ltb_lt; lia).
    rewrite char_at_here, Hc. rewrite snoc_app.
    specialize (IH (pre ++ String c EmptyString)%string fuel Hkey).
    rewrite slen_app, slen_String in IH. change (slen EmptyString) with 0 in IH.
    replace (slen pre + (1 + 0)) with (slen pre + 1) in IH by lia.
    replace (slen pre + (1 + slen key)) with (slen pre + 1 + slen key) by lia.
    destruct IH as [IH1 IH2]. split; [exact IH1|].
    intros Hf. apply IH2. cbn [String.length] in Hf. lia.
Qed.

Lemma parse_steps_junk (pre : string) (fuel : nat) (segments : list PathSegment) :
  let steps rest :=
    parse_steps (S fuel) (pre ++ rest) (slen (pre ++ rest)) (slen pre) segments in
  steps (String "." EmptyString) = Some (Raise EndsWithDot)
  /\ steps (String "[" EmptyString) = Some (Raise EndsWithBracket)
  /\ (forall c s, is_stop c = true ->
        steps (String "." (String c s)) = Some (Raise EmptyKey))
  /\ (forall key, quotable_key key = true ->
        steps (String "." (String dquote key)) = Some (Raise UnclosedQuotedKey))
  /\ (forall c s, is_digit c = false ->
        steps (String "[" (String c s)) = Some (Raise InvalidArrayIndex)).
Proof.
  pose proof (slen_nonneg pre) as Hpre. cbv zeta.
  repeat split.
  - cbn [parse_steps]. cbv zeta. rewrite slen_app, slen_String.
    change (slen EmptyString) with 0.
    assert ((slen pre <? slen pre + (1 + 0)) = true) as -> by (apply Z.ltb_lt; lia).
    rewrite char_at_here. change (Ascii.eqb "." ".") with true. cbv iota.
    assert ((slen pre + (1 + 0) <=? slen pre + 1) = true) as -> by (apply Z.leb_le; lia).
    reflexivity.
  - cbn [parse_steps]. cbv zeta. rewrite slen_app, slen_String.
    change (slen EmptyString) with 0.
    assert ((slen pre <? slen pre + (1 + 0)) = true) as -> by (apply Z.ltb_lt; lia).
    rewrite char_at_here. change (Ascii.eqb "[" ".") with false.
    change (Ascii.eqb "[" "[") with true. cbv iota.
    assert ((slen pre + (1 + 0) <=? slen pre + 1) = true) as -> by (apply Z.leb_le; lia).
    reflexivity.
  - intros c s Hc. cbn [parse_steps]. cbv zeta. rewrite slen_app, !slen_String.
    pose proof (slen_nonneg s) as Hs.
    assert ((slen pre <? slen pre + (1 + (1 + slen s))) = true) as ->
      by (apply Z.ltb_lt; lia).
    rewrite char_at_here. change (Ascii.eqb "." ".") with true. cbv iota.
    assert ((slen pre + (1 + (1 + slen s)) <=? slen pre + 1) = false) as ->
      by (apply Z.leb_gt; lia).
    rewrite char_at_next.
    assert (Ascii.eqb c dquote = false) as ->.
    { unfold is_stop in Hc. apply orb_true_iff in Hc.
      destruct Hc as [Hc|Hc]; apply Ascii.eqb_eq in Hc; subst c; reflexivity. }
    rewrite scan_key_stop by (now rewrite char_at_next).
    now rewrite Z.eqb_refl.
  - intros key Hkey. cbn [parse_steps]. cbv zeta. rewrite slen_app, !slen_String.
    pose proof (slen_nonneg key) as Hk.
    assert (0 < slen key) as Hkpos.
    { destruct key as [|c key']; [discriminate|].
      rewrite slen_String. pose proof (slen_nonneg key'). lia. }
    assert (no_char is_dquote key = true) as Hnq
      by (destruct key; [discriminate|exact Hkey]).
    assert ((slen pre <? slen pre + (1 + (1 + slen key))) = true) as ->
      by (apply Z.ltb_lt; lia).
    rewrite char_at_here. change (Ascii.eqb "." ".") with true. cbv iota.
    assert ((slen pre + (1 + (1 + slen key)) <=? slen pre + 1) = false) as ->
      by (apply Z.leb_gt; lia).
    rewrite char_at_next, Ascii.eqb_refl.
    set (pre2 := (pre ++ String "." (String dquote EmptyString))%string).
    assert ((pre ++ String "." (String dquote key))%string = (pre2 ++ key)%string) as ->
      by (subst pre2; rewrite append_assoc; reflexivity).
    assert (slen pre2 = slen pre + 1 + 1) as Epre2
      by (subst pre2; rewrite slen_app, !slen_String;
          change (slen EmptyString) with 0; lia).
    replace (slen pre + (1 + (1 + slen key))) with (slen pre2 + slen key) by lia.
    rewrite <- Epre2.
    destruct (scan_key_to_end key pre2
                (Z.to_nat (slen pre2 + slen key - slen pre2)) Hnq) as [_ Hscan].
    rewrite Hscan by (unfold slen in *; lia).
    assert ((slen pre2 + slen key =? slen pre2) = false) as ->
      by (apply Z.eqb_neq; lia).
    rewrite Z.leb_refl. reflexivity.
  - intros c s Hc. cbn [parse_steps]. cbv zeta. rewrite slen_app, !slen_String.
    pose proof (slen_nonneg s) as Hs.
    assert ((slen pre <? slen pre + (1 + (1 + slen s))) = true) as ->
      by (apply Z.ltb_lt; lia).
    rewrite char_at_here. change (Ascii.eqb "[" ".") with false.
    change (Ascii.eqb "[" "[") with true. cbv iota.
    assert ((slen pre + (1 + (1 + slen s)) <=? slen pre + 1) = false) as ->
      by (apply Z.leb_gt; lia).
    rewrite scan_digits_stop by (now rewrite char_at_next).
    now rewrite Z.eqb_refl.
Qed.

(** X21. The errors of [ParsePath], each with the text that raises it: after
    the text of any printable segments, a path that ends with a dot, or
    with an opening bracket; a dot followed by a dot or a bracket (an empty
    key); a quoted key without its closing quote; a bracket followed by a
    character that is not a digit; an index greater than the largest
    [uint64_t] (the range error of [std::stoull]); and, behind the dollar
    sign, a character that is neither a dot nor a bracket. *)
Theorem ParsePath_errors :
  forall new,
    forallb printable new = true ->
    let after rest := parse (path_text new ++ rest) in
    after (String "." EmptyString) = Raise EndsWithDot
    /\ after (String "[" EmptyString) = Raise EndsWithBracket
    /\ (forall c s, is_stop c = true ->
          after (String "." (String c s)) = Raise EmptyKey)
    /\ (forall key, quotable_key key = true ->
          after (String "." (String dquote key)) = Raise UnclosedQuotedKey)
    /\ (forall c s, is_digit c = false ->
          after (String "[" (String c s)) = Raise InvalidArrayIndex)
    /\ (forall index, UINT64_MAX < index ->
          after (segment_text (IndexSegment index)) = Raise StoullOutOfRange)
    /\ (forall c s, is_stop c = false ->
          parse (String "$" (String c s)) = Raise UnexpectedCharacter).
Proof.
  intros new Hp. cbv zeta.
  assert (forall c s, is_stop c = true -> exists c' r, String c s = String c' r
                                                       /\ is_stop c' = true) as Hstart
    by eauto.
  destruct (parse_steps_junk (path_text new) (String.length (String "." EmptyString))
              new) as (J1 & _).
  destruct (parse_steps_junk (path_text new) (String.length (String "[" EmptyString))
              new) as (_ & J2 & _).
  cbv zeta in J1, J2.
  split; [rewrite parse_after_path, J1; auto|].
  split; [rewrite parse_after_path, J2; auto|].
  split.
  { intros c s Hc.
    destruct (parse_steps_junk (path_text new)
                (String.length (String "." (String c s))) new) as (_ & _ & J & _).
    cbv zeta in J. rewrite parse_after_path, J; auto. }
  split.
  { intros key Hkey.
    destruct (parse_steps_junk (path_text new)
                (String.length (String "." (String dquote key))) new)
      as (_ & _ & _ & J & _).
    cbv zeta in J. rewrite parse_after_path, J; auto. }
  split.
  { intros c s Hc.
    destruct (parse_steps_junk (path_text new)
                (String.length (String "[" (String c s))) new)
      as (_ & _ & _ & _ & J).
    cbv zeta in J. rewrite parse_after_path, J; auto. }
  split.
  { intros index Hi.
    rewrite parse_after_path; [|assumption|cbn [segment_text]; eauto].
    pose proof (parse_steps_index index (path_text new) EmptyString
                  (String.length (segment_text (IndexSegment index))) new
                  ltac:(unfold UINT64_MAX in Hi; lia)) as J.
    cbv zeta in J. rewrite append_nil_r in J. rewrite J.
    assert ((UINT64_MAX <? index) = true) as -> by (apply Z.ltb_lt; lia).
    reflexivity. }
  intros c s Hc. unfold parse, ParsePath. cbn [String.length].
  assert ((Z.of_nat (S (S (String.length s))) =? 0) = false) as ->
    by (apply Z.eqb_neq; lia).
  change (char_at (String "$" (String c s)) 0) with "$"%char.
  change (negb (Ascii.eqb "$" "$")) with false. cbv iota.
  cbn [parse_steps].
  assert ((1 <? Z.of_nat (S (S (String.length s)))) = true) as ->
    by (apply Z.ltb_lt; lia).
  change (char_at (String "$" (String c s)) 1) with c.
  unfold is_stop in Hc. apply orb_false_iff in Hc. destruct Hc as [-> ->].
  reflexivity.
Qed.

Lemma ParsePath_errors_witness :
  parse "$.a[0]." = Raise EndsWithDot
  /\ parse "$.a[0][" = Raise EndsWithBracket.
Proof.
  destruct (ParsePath_errors [KeySegment "a"; IndexSegment 0] eq_refl)
    as (H1 & H2 & _).
  exact (conj H1 H2).
Defined.

(** * Arrays *)

Lemma array_fields_app (l1 l2 : list yyjson_val) (start : nat) :
  array_fields start (l1 ++ l2)
  = array_fields start l1 ++ array_fields (start + List.length l1) l2.
Proof.
  revert start. induction l1 as [|v l1 IH]; intros start; cbn [app array_fields List.length].
  - now rewrite Nat.add_0_r.
  - rewrite IH. do 3 f_equal. lia.
Qed.

Lemma nul_free_digits (s : string) :
  no_char (fun c => negb (is_digit c)) s = true ->
  nul_free (list_byte_of_string s) = true.
Proof.
  induction s as [|c s IH]; [reflexivity|].
  cbn [no_char]. rewrite negb_involutive. intros H.
  apply andb_true_iff in H. destruct H as [Hc Hs].
  change (list_byte_of_string (String c s))
    with (byte_of_ascii c :: list_byte_of_string s).
  apply nul_free_cons. split; [|auto].
  intros C. rewrite <- (ascii_of_byte_of_ascii c), C in Hc. discriminate Hc.
Qed.

Lemma to_string_inj (a b : Z) :
  0 <= a -> 0 <= b -> bytes (to_string a) = bytes (to_string b) -> a = b.
Proof.
  intros Ha Hb H. unfold bytes in H.
  apply (f_equal string_of_list_byte) in H.
  rewrite !string_of_list_byte_of_string in H.
  rewrite <- (digits_value_to_string a Ha), <- (digits_value_to_string b Hb).
  now rewrite H.
Qed.

Lemma array_fields_keys (vals : list yyjson_val) (start : nat) (key : list byte) :
  In key (map fst (array_fields start vals)) ->
  exists j, (start <= j < start + List.length vals)%nat
            /\ key = bytes (to_string (Z.of_nat j)).
Proof.
  revert start. induction vals as [|v vals IH]; intros start; cbn [array_fields map fst In].
  - tauto.
  - intros [<-|H].
    + exists start. cbn [List.length]. split; [lia|reflexivity].
    + destruct (IH _ H) as (j & Hj & ->). exists j. cbn [List.length]. split; [lia|reflexivity].
Qed.

Lemma array_fields_walkable (vals : list yyjson_val) (start : nat) :
  forallb sized vals = true -> walkable (array_fields start vals) = true.
Proof.
  revert start. induction vals as [|v vals IH]; intros start H; [reflexivity|].
  cbn [forallb] in H. apply andb_true_iff in H. destruct H as [Hv H].
  cbn [array_fields]. apply walkable_cons. repeat split; auto.
  apply nul_free_digits, to_string_digits.
Qed.

Lemma length_list_byte_of_string (s : string) :
  List.length (list_byte_of_string s) = String.length s.
Proof.
  rewrite <- (string_of_list_byte_of_string s) at 2.
  now rewrite length_string_of_list_byte.
Qed.

Lemma GetArrayElement_framed (vals : list yyjson_val) (i : nat) (val : yyjson_val)
    (rest : list byte) (size : Z) (result : BSONElement) :
  nth_error vals i = Some val ->
  forallb sized vals = true ->
  len (bson_array vals) <= INT32_MAX ->
  len (bson_array vals) <= size ->
  exists key tail,
    GetArrayElement (bson_array vals ++ rest) size (Z.of_nat i) result
    = (true,
       BSONElement.mk (bson_tag val) key (slen (to_string (Z.of_nat i)))
         (bson_value val ++ tail) (len (bson_value val))).
Proof.
  intros Hnth Hsized Hmax Hsize.
  destruct (nth_error_split _ _ Hnth) as (l1 & l2 & -> & Hl1).
  rewrite forallb_app in Hsized. apply andb_true_iff in Hsized.
  destruct Hsized as [Hs1 Hs2]. cbn [forallb] in Hs2.
  apply andb_true_iff in Hs2. destruct Hs2 as [Hv Hs2].
  unfold bson_array in *. rewrite array_fields_app in *.
  cbn [array_fields Nat.add] in *. rewrite Hl1 in *.
  unfold GetArrayElement. cbv zeta.
  set (key := bytes (to_string (Z.of_nat i))) in *.
  change (list_byte_of_string (to_string (Z.of_nat i))) with key.
  replace (Z.of_nat (String.length (to_string (Z.of_nat i)))) with (len key)
    by (unfold len, key, bytes; now rewrite length_list_byte_of_string).
  eexists _, _.
  rewrite FindElement_framed; try assumption.
  - f_equal. f_equal.
    unfold len, key, bytes, slen. now rewrite length_list_byte_of_string.
  - now apply array_fields_walkable.
  - intros Hin. apply array_fields_keys in Hin. destruct Hin as (j & Hj & Hk).
    apply to_string_inj in Hk; lia.
  - apply nul_free_digits, to_string_digits.
Qed.

(** X22. Element [i] of a BSON array -- the document of the values under
    the decimal keys [0], [1], ..., each of at least one byte -- is what
    [GetArrayElement] returns for the index [i]: an element with the tag of
    the value whose bytes are those of the value. *)
Theorem GetArrayElement_nth :
  forall vals i val rest result,
    nth_error vals i = Some val ->
    forallb sized vals = true ->
    len (bson_array vals) <= INT32_MAX ->
    exists elem,
      GetArrayElement (bson_array vals ++ rest) (len (bson_array vals ++ rest))
        (Z.of_nat i) result = (true, elem)
      /\ BSONElement.type elem = bson_tag val
      /\ string_t (BSONElement.value elem) (BSONElement.value_len elem)
         = bson_value val.
Proof.
  intros vals i val rest result Hnth Hsized Hmax.
  destruct (GetArrayElement_framed vals i val rest (len (bson_array vals ++ rest))
              result Hnth Hsized Hmax) as (key & tail & ->).
  - rewrite len_app. pose proof (len_nonneg rest). lia.
  - eexists. split; [reflexivity|]. split; [reflexivity|].
    cbn [BSONElement.value BSONElement.value_len]. apply string_t_app.
Qed.

Lemma GetArrayElement_nth_witness :
  exists elem,
    GetArrayElement (bson_array [JBool true; JStr (bytes "x")] ++ [])
      (len (bson_array [JBool true; JStr (bytes "x")] ++ [])) (Z.of_nat 1) no_element
    = (true, elem)
    /\ BSONElement.type elem = bson_tag (JStr (bytes "x"))
    /\ string_t (BSONElement.value elem) (BSONElement.value_len elem)
       = bson_value (JStr (bytes "x")).
Proof.
  apply (GetArrayElement_nth [JBool true; JStr (bytes "x")] 1 (JStr (bytes "x")) []
           no_element).
  - reflexivity.
  - reflexivity.
  - vm_compute. discriminate.
Defined.

(** * The scalar functions on an encoded tree *)

Lemma first_field_sized (key : list byte) (fields : list (list byte * yyjson_val))
    (val : yyjson_val) :
  first_field key fields = Some val -> sized val = true.
Proof.
  intros H. destruct (first_field_Some _ _ _ H) as (_ & _ & _ & _ & _ & _ & Hs).
  exact Hs.
Qed.

Lemma json_get_sized (keys : list (list byte)) :
  forall root key target,
    json_get root (key :: keys) = Some target -> sized target = true.
Proof.
  induction keys as [|key' keys IH]; intros root key target H;
    destruct (json_get_obj _ _ _ _ H) as [fields ->]; cbn [json_get] in H;
    destruct (first_field key fields) as [v|] eqn:Hf; try discriminate.
  - injection H as <-. eapply first_field_sized; eassumption.
  - eapply IH; eassumption.
Qed.

Lemma json_get_len (keys : list (list byte)) :
  forall root target,
    json_get root keys = Some target ->
    len (bson_value target) <= len (bson_value root).
Proof.
  induction keys as [|key keys IH]; intros root target H.
  - injection H as <-. lia.
  - destruct (json_get_obj _ _ _ _ H) as [fields ->]. cbn [json_get] in H.
    destruct (first_field key fields) as [v|] eqn:Hf; [|discriminate].
    destruct (first_field_Some _ _ _ Hf) as (before & after & -> & _).
    specialize (IH v target H).
    pose proof (len_bson_value_field before key v after) as Hle.
    rewrite bson_value_obj. lia.
Qed.

Lemma TypeToString_sized (val : yyjson_val) :
  sized val = true -> exists name, TypeToString (bson_tag val) = Some name.
Proof.
  destruct val; cbn [sized bson_tag]; try discriminate; intros _;
    try (eexists; reflexivity).
  destruct (in_int32 num); eexists; reflexivity.
Qed.

Lemma string_tag (val : yyjson_val) :
  sized val = true ->
  Byte.eqb (bson_tag val) STRING = true -> exists str, val = JStr str.
Proof.
  destruct val; cbn [sized bson_tag]; try discriminate; intros _ H;
    try discriminate H; eauto.
  destruct (in_int32 num); discriminate H.
Qed.

(** X23. The scalar functions on the buffer of the cast, for the text of a
    path of keys that leads to a value in the tree (each key through the
    first field of that name, behind fields with keys without NUL and
    values that are not null): [bson_exists] is true, [bson_type] names the
    tag the encoder gave the value, [bson_extract_string] returns the bytes
    of a string and NULL for any other value, and [bson_extract] returns the
    encoding of an object or of an array and NULL for any other value. *)
Theorem scalar_functions_on_encoded_tree :
  forall json_size root key keys target blob elem,
    CastJSONToBSON json_size (Some root) = CastBlob blob ->
    json_get root (key :: keys) = Some target ->
    forallb printable (map key_segment (key :: keys)) = true ->
    let path := path_text (map key_segment (key :: keys)) in
    BSONExistsFunction blob path elem = RowValue true
    /\ (exists name,
          TypeToString (bson_tag target) = Some name
          /\ BSONTypeFunction blob path elem = RowValue name)
    /\ BSONExtractStringFunction blob path elem = string_of_value target
    /\ BSONExtractFunction blob path elem = document_of_value target.
Proof.
  intros json_size root key keys target blob elem Hcast Hget Hp path.
  apply CastJSONToBSON_blob in Hcast.
  destruct Hcast as (root' & Hroot & _ & -> & Hmax). injection Hroot as <-.
  destruct (json_get_obj _ _ _ _ Hget) as [fields Eroot].
  assert (bson_document root = bson_value root) as Edoc
    by (rewrite Eroot; unfold bson_document; cbn [yyjson_obj_iter];
        now rewrite bson_value_obj).
  rewrite Edoc in *.
  destruct (TraversePath_from_json_get keys root key target []
              (len (bson_value root)) elem Hget Hmax ltac:(lia))
    as (r & tail & Hpath & Htype & Hvalue & Hvlen).
  rewrite app_nil_r in Hpath.
  pose proof (json_get_sized _ _ _ _ Hget) as Hsized.
  pose proof (json_get_len _ _ _ Hget) as Hlen.
  destruct (TypeToString_sized target Hsized) as [name Hname].
  pose proof (ParsePath_on_text (map key_segment (key :: keys)) []) as Hparse.
  pose proof (parse_steps_text (map key_segment (key :: keys)) (String "$" EmptyString)
                [] (S (String.length (path_text (map key_segment (key :: keys))))) Hp)
    as Hsteps.
  cbv zeta in Hsteps. change (slen (String "$" EmptyString)) with 1 in Hsteps.
  change (String "$" EmptyString ++ segments_text (map key_segment (key :: keys)))%string
    with (path_text (map key_segment (key :: keys))) in Hsteps.
  rewrite Hsteps in Hparse
    by (pose proof (path_text_length (map key_segment (key :: keys))); lia).
  fold path in Hparse. cbn [app] in Hparse.
  unfold BSONExistsFunction, BSONTypeFunction, BSONExtractStringFunction,
    BSONExtractFunction. cbv zeta. rewrite Hparse.
  cbn [map] in *. unfold TraversePath. rewrite Hpath. cbn [fst negb].
  rewrite Htype, Hvalue, Hvlen, Hname.
  split; [reflexivity|]. split; [eauto|]. split.
  - unfold string_of_value.
    destruct (Byte.eqb (bson_tag target) STRING) eqn:Hs; cbn [negb].
    + destruct (string_tag target Hsized Hs) as [str ->].
      cbn [bson_value] in *.
      assert (len str + 1 <= INT32_MAX) as Hfit
        by (unfold WriteBSONString in Hlen; norm_len_in Hlen;
            pose proof (len_nonneg str); lia).
      destruct (WriteBSONString_read_back str tail Hfit) as [Hread Hstr].
      rewrite Hread in *. pose proof (len_nonneg str).
      assert ((len str + 1 <? 1) = false) as -> by (apply Z.ltb_ge; lia).
      now rewrite Hstr.
    + destruct target; try reflexivity. discriminate Hs.
  - unfold document_of_value, is_container.
    destruct (Byte.eqb (bson_tag target) DOCUMENT || Byte.eqb (bson_tag target) ARRAY);
      [|reflexivity].
    now rewrite string_t_app.
Qed.

Lemma scalar_functions_on_encoded_tree_witness :
  let blob := bson_document user_john in
  BSONExistsFunction blob "$.user.name" no_element = RowValue true
  /\ (exists name,
        TypeToString STRING = Some name
        /\ BSONTypeFunction blob "$.user.name" no_element = RowValue name)
  /\ BSONExtractStringFunction blob "$.user.name" no_element = RowValue (bytes "John")
  /\ BSONExtractFunction blob "$.user.name" no_element = RowNull.
Proof.
  apply (scalar_functions_on_encoded_tree 41 user_john (bytes "user") [bytes "name"]
           (JStr (bytes "John")) (bson_document user_john) no_element).
  - reflexivity.
  - reflexivity.
  - reflexivity.
Defined.

(** * The guards of the encoder *)

Lemma elements_eight_bytes (J : yyjson_val -> Z -> Z -> outcome (Z * list byte))
    (cap : Z) (key : list byte) (val : yyjson_val) (remaining : Z) :
  eight_bytes val = true ->
  len key + 3 <= remaining ->
  elements J cap [(key, val)] [] remaining
  = (body <- store cap [] (bson_tag val :: key ++ [x00]) ;;
     body <- store cap body (bson_value val) ;;
     Done (body, to_idx (remaining - (len key + 10)))).
Proof.
  intros Hval Hrem. cbn [elements]. cbv zeta.
  assert ((remaining <? len key + 3) = false) as -> by (apply Z.ltb_ge; lia).
  destruct val; try discriminate Hval; reflexivity.
Qed.

(** X24. The guard of an element does not cover the value: the encoder
    tests [remaining] against the key and 3 bytes, then stores the key and
    a value that may be longer.  For an object of one field whose value is
    an unsigned integer or a real, and a [max_size] from 7 to 13 bytes more
    than the key, the test passes and the 8 bytes of the number go past
    [max_size]: with an allocation of [max_size] bytes the write leaves the
    buffer, and with a larger allocation the function returns a document
    of more than [max_size] bytes, the unsigned [remaining] having wrapped
    around. *)
Theorem JSONToBSONDocument_overruns_max_size :
  forall key val cap max_size,
    eight_bytes val = true ->
    len key + 7 <= max_size <= len key + 13 ->
    len key + 15 <= INT32_MAX ->
    JSONToBSONDocument (JObj [(key, val)]) max_size max_size = Undefined
    /\ (len key + 15 <= cap ->
        JSONToBSONDocument (JObj [(key, val)]) cap max_size
        = Done (len key + 15, bson_document (JObj [(key, val)]))).
Proof.
  intros key val cap max_size Hval Hsize Hmax.
  pose proof (len_nonneg key) as Hk.
  assert (len (bson_value val) = 8) as Hv
    by (destruct val; try discriminate Hval; reflexivity).
  assert (forall c, JSONToBSONDocument (JObj [(key, val)]) c max_size
                    = terminate c
                        (body <- store c [] (bson_tag val :: key ++ [x00]) ;;
                         body <- store c body (bson_value val) ;;
                         Done (body, to_idx (max_size - 4 - (len key + 10))))) as Hrun.
  { intros c. rewrite JSONToBSONDocument_eq. cbn [yyjson_obj_iter].
    assert ((max_size <? 5) = false) as -> by (apply Z.ltb_ge; lia).
    rewrite to_idx_id by (unfold UINT64_MAX, INT32_MAX in *; lia).
    rewrite elements_eight_bytes by (try assumption; lia). reflexivity. }
  split.
  - rewrite Hrun.
    rewrite store_fits by (norm_len; lia). cbn [bind app].
    unfold store.
    assert ((4 + len (bson_tag val :: key ++ [x00]) + len (bson_value val) <=? max_size)
            = false) as -> by (apply Z.leb_gt; norm_len; lia).
    reflexivity.
  - intros Hcap. rewrite Hrun.
    rewrite store_fits by (norm_len; lia). cbn [bind app].
    rewrite store_fits by (norm_len; lia). cbn [bind].
    assert (1 <= to_idx (max_size - 4 - (len key + 10))) as Hwrap.
    { unfold to_idx.
      replace (max_size - 4 - (len key + 10))
        with ((max_size - (len key + 14)) + 1 * 18446744073709551616
              - 18446744073709551616) by lia.
      replace ((max_size - (len key + 14)) + 1 * 18446744073709551616
               - 18446744073709551616)
        with ((max_size - (len key + 14) + 18446744073709551616)
              + (-1) * 18446744073709551616) by lia.
      rewrite Z.mod_add by lia. rewrite Z.mod_small by lia. lia. }
    rewrite terminate_fits; try assumption.
    + unfold bson_document. cbn [yyjson_obj_iter].
      assert (bson_elements [(key, val)] = (bson_tag val :: key ++ [x00]) ++ bson_value val)
        as -> by (rewrite bson_elements_cons; change (bson_elements []) with (@nil byte);
                  now rewrite app_nil_r).
      rewrite len_frame. f_equal. f_equal. norm_len. lia.
    + rewrite len_frame. norm_len. lia.
    + rewrite len_frame. norm_len. lia.
Qed.

Lemma JSONToBSONDocument_overruns_max_size_witness :
  JSONToBSONDocument (JObj [(bytes "n", JUint 7)]) 8 8 = Undefined
  /\ (len (bytes "n") + 15 <= 1024 ->
      JSONToBSONDocument (JObj [(bytes "n", JUint 7)]) 1024 8
      = Done (len (bytes "n") + 15, bson_document (JObj [(bytes "n", JUint 7)]))).
Proof.
  apply (JSONToBSONDocument_overruns_max_size (bytes "n") (JUint 7) 1024 8).
  - reflexivity.
  - vm_compute. split; discriminate.
  - vm_compute. discriminate.
Defined.

(** * What the encoder writes, read back *)

(** X25. The scalars the encoder's helpers write are the ones the reader's
    helpers read back, whatever follows them in the buffer: an [int32_t]
    through [WriteBSONInt32] and [ReadInt32], an [int64_t] through
    [WriteBSONInt64] and [ReadInt64], the 64 bits of a double through
    [WriteBSONDouble] and [ReadDouble], a boolean through [WriteBSONBool];
    and a string of less than [INT32_MAX] bytes through [WriteBSONString]:
    its length prefix reads as the length plus 1, its bytes follow the
    prefix and a NUL follows the bytes. *)
Theorem written_scalars_read_back :
  forall rest,
    (forall value, INT32_MIN <= value <= INT32_MAX ->
        ReadInt32 (WriteBSONInt32 value ++ rest) = value)
    /\ (forall value, to_int64 value = value ->
          ReadInt64 (WriteBSONInt64 value ++ rest) = value)
    /\ (forall bits, 0 <= bits <= UINT64_MAX ->
          ReadDouble (WriteBSONDouble bits ++ rest) = bits)
    /\ (forall value,
          byte_at (WriteBSONBool value ++ rest) 0 = if value then x01 else x00)
    /\ (forall str, len str < INT32_MAX ->
          let written := WriteBSONString str (len str) ++ rest in
          ReadInt32 written = len str + 1
          /\ string_t (ptr_add written 4) (ReadInt32 written - 1) = str
          /\ byte_at written (4 + len str) = x00).
Proof.
  intros rest. split; [|split; [|split; [|split]]].
  - intros value Hv. unfold WriteBSONInt32.
    rewrite ReadInt32_le_bytes. now apply to_int32_id.
  - intros value Hv. unfold WriteBSONInt64. now rewrite ReadInt64_le_bytes.
  - intros bits Hb. unfold WriteBSONDouble.
    rewrite ReadDouble_le_bytes. now apply to_idx_id.
  - intros [|]; reflexivity.
  - intros str Hs. cbv zeta. pose proof (len_nonneg str) as Hn.
    unfold WriteBSONString. rewrite <- !app_assoc.
    rewrite ReadInt32_le_bytes.
    rewrite !(to_int32_id (len str + 1)) by (unfold INT32_MIN, INT32_MAX in *; lia).
    split; [reflexivity|]. split.
    + replace 4 with (len (le_bytes 4 (len str + 1))) at 1 by apply len_le_bytes.
      rewrite ptr_add_app. replace (len str + 1 - 1) with (len str) by lia.
      apply string_t_app.
    + rewrite app_assoc.
      replace (4 + len str) with (len (le_bytes 4 (len str + 1) ++ str))
        by (norm_len; lia).
      apply byte_at_here.
Qed.

Lemma written_scalars_read_back_witness :
  ReadInt32 (WriteBSONInt32 (-5) ++ [xff]) = -5.
Proof.
  destruct (written_scalars_read_back [xff]) as (H & _).
  apply H. vm_compute. split; discriminate.
Defined.

(** * The terminator and the locator *)

(** C10 (amended). [FindElement] has no test of the terminator: what it
    reads of a buffer in which it finds an element are the bytes up to the
    end of that element.  When it returns [true] on [data] with an element
    laid out at [p], it returns [true], with the element laid out at the
    same offset, on every buffer that has the bytes of [data] below the end
    of the element; so when the element ends before the offset
    [doc_len - 1], the byte at that offset is not looked at.
    [ValidateDocument] wants that byte to be [0x00]; with any other byte
    [b] in the place of the terminator of an encoded document, the document
    is not valid, and the lookup of a key of a field, the first of that key
    and behind walkable fields, still returns [true] with the field's
    element. *)
Theorem locator_ignores_terminator :
  (forall data size key key_len result elem,
      FindElement data size key key_len result = (true, elem) ->
      exists p,
        4 <= p
        /\ elem = element_in data p elem
        /\ element_end p elem <= ReadInt32 data
        /\ (forall data' result',
               agree 0 (element_end p elem) data data' ->
               FindElement data' size key key_len result'
               = (true, element_in data' p elem))
        /\ (element_end p elem <= ReadInt32 data - 1 ->
            forall data' result',
              (forall i, i <> ReadInt32 data - 1 -> byte_at data' i = byte_at data i) ->
              FindElement data' size key key_len result'
              = (true, element_in data' p elem)))
  /\ (forall data size,
         ValidateDocument data size = true ->
         byte_at data (ReadInt32 data - 1) = x00)
  /\ (forall before key val after b result,
        b <> x00 ->
        walkable before = true ->
        ~ In key (map fst before) ->
        nul_free key = true ->
        sized val = true ->
        let body := bson_elements (before ++ (key, val) :: after) in
        let doc_len := 4 + len body + 1 in
        let data := le_bytes 4 doc_len ++ body ++ [b] in
        doc_len <= INT32_MAX ->
        byte_at data (doc_len - 1) = b
        /\ ValidateDocument data doc_len = false
        /\ exists elem,
             FindElement data doc_len key (len key) result = (true, elem)
             /\ BSONElement.type elem = bson_tag val
             /\ string_t (BSONElement.value elem) (BSONElement.value_len elem)
                = bson_value val).
Proof.
  split; [|split].
  - intros data size key key_len result elem H.
    apply FindElement_footprint in H.
    destruct H as (p & Hp & Hk & Eelem & Hvl & Hend & Hsize & Hother).
    exists p. split; [exact Hp|]. split; [exact Eelem|]. split; [exact Hend|].
    split; [exact Hother|].
    intros Hbefore data' result' Hsame. apply Hother.
    intros i Hi. symmetry. apply Hsame. lia.
  - exact ValidateDocument_terminator.
  - intros before key val after b result Hb Hw Hnotin Hnul Hsized body doc_len data Hmax.
    pose proof (len_nonneg body) as Hbody.
    split; [|split].
    + subst data. rewrite app_assoc.
      replace (doc_len - 1) with (len (le_bytes 4 doc_len ++ body))
        by (subst doc_len; norm_len; lia).
      apply byte_at_here.
    + apply ValidateDocument_bad_terminator; assumption.
    + subst data doc_len body.
      rewrite FindElement_encoded by assumption.
      eexists. split; [reflexivity|]. cbn [BSONElement.type BSONElement.value
                                            BSONElement.value_len].
      split; [reflexivity|]. apply string_t_app.
Qed.

Lemma locator_ignores_terminator_witness :
  byte_at (john_document_ending x01) 19 = x01
  /\ ValidateDocument (john_document_ending x01) 20 = false
  /\ fst (FindElement (john_document_ending x01) 20 (bytes "name") 4 no_element)
     = true.
Proof.
  assert (x01 <> x00) as Hb by discriminate.
  assert (~ In (bytes "name") (map fst (@nil (list byte * yyjson_val)))) as Hnotin
    by (simpl; tauto).
  assert (4 + len (bson_elements ([] ++ [(bytes "name", JStr (bytes "John"))])) + 1
          <= INT32_MAX) as Hmax by (vm_compute; discriminate).
  destruct (proj2 (proj2 locator_ignores_terminator) [] (bytes "name")
              (JStr (bytes "John")) [] x01 no_element Hb eq_refl Hnotin eq_refl
              eq_refl Hmax)
    as (Hlast & Hvalid & elem & Hfind & _).
  split; [exact Hlast|]. split; [exact Hvalid|].
  change (len (bytes "name")) with 4 in Hfind.
  exact (f_equal fst Hfind).
Defined.

(** C10, as stated, fails: [FindElement] does look at the byte at
    [doc_len - 1] when the value of an element runs up to it.  The two
    buffers [regex_document 0x00] and [regex_document 0x01] have a declared
    length of 10 and the same bytes at the offsets 0 to 8; the value of
    their field [k], a regular expression, ends with the byte at the offset
    9, and the lookup of [k] returns [true] on the first and [false] on the
    second. *)
Lemma locator_reads_last_byte_of_regex :
  ReadInt32 (regex_document x00) = 10
  /\ ReadInt32 (regex_document x01) = 10
  /\ agree 0 9 (regex_document x00) (regex_document x01)
  /\ fst (FindElement (regex_document x00) 10 (bytes "k") 1 no_element) = true
  /\ fst (FindElement (regex_document x01) 10 (bytes "k") 1 no_element) = false.
Proof.
  split; [reflexivity|]. split; [reflexivity|]. split; [|split; reflexivity].
  intros i Hi.
  assert (i = 0 \/ i = 1 \/ i = 2 \/ i = 3 \/ i = 4 \/ i = 5 \/ i = 6 \/ i = 7
          \/ i = 8) as Hcases by lia.
  repeat (destruct Hcases as [->|Hcases]; [reflexivity|]).
  subst i. reflexivity.
Qed.

(** * The round trip *)

Lemma faithful_obj (fields : list (list byte * yyjson_val)) :
  faithful (JObj fields)
  <-> NoDup (map fst fields)
      /\ Forall (fun field => nul_free (fst field) = true /\ faithful (snd field))
           fields.
Proof.
  cbn [faithful].
  enough ((fix all (l : list (list byte * yyjson_val)) : Prop :=
             match l with
             | [] => True
             | (key, v) :: l' => nul_free key = true /\ faithful v /\ all l'
             end) fields
          <-> Forall (fun field => nul_free (fst field) = true /\ faithful (snd field))
                fields) as E by (rewrite E; reflexivity).
  induction fields as [|[key v] fields IH].
  - split; [constructor|trivial].
  - rewrite IH. split.
    + intros (Hk & Hv & Hrest). constructor; [split; assumption|exact Hrest].
    + intros H. inversion H as [|f l [Hk Hv] Hrest]; subst. tauto.
Qed.

Lemma node_matches_obj (fields : list (list byte * yyjson_val)) (elem : BSONElement) :
  node_matches (JObj fields) elem
  <-> BSONElement.type elem = DOCUMENT
      /\ Forall (fun field =>
                   forall result,
                     exists member,
                       FindElement (BSONElement.value elem) (BSONElement.value_len elem)
                         (fst field) (len (fst field)) result = (true, member)
                       /\ node_matches (snd field) member) fields.
Proof.
  cbn [node_matches]. cbv zeta.
  enough ((fix members (l : list (list byte * yyjson_val)) : Prop :=
             match l with
             | [] => True
             | (key, v) :: l' =>
                 (forall result,
                     exists member,
                       FindElement (BSONElement.value elem) (BSONElement.value_len elem)
                         key (len key) result = (true, member)
                       /\ node_matches v member)
                 /\ members l'
             end) fields
          <-> Forall (fun field =>
                        forall result,
                          exists member,
                            FindElement (BSONElement.value elem)
                              (BSONElement.value_len elem)
                              (fst field) (len (fst field)) result = (true, member)
                            /\ node_matches (snd field) member) fields) as E
    by (rewrite E; reflexivity).
  induction fields as [|[key v] fields IH].
  - split; [constructor|trivial].
  - rewrite IH. split.
    + intros [Hhere Hrest]. constructor; [exact Hhere|exact Hrest].
    + intros H. inversion H as [|f l Hhere Hrest]; subst. split; assumption.
Qed.

Lemma faithful_sized (val : yyjson_val) : faithful val -> sized val = true.
Proof. destruct val; cbn [faithful sized]; tauto. Qed.

Lemma faithful_walkable (fields : list (list byte * yyjson_val)) :
  Forall (fun field => nul_free (fst field) = true /\ faithful (snd field)) fields ->
  walkable fields = true.
Proof.
  induction 1 as [|[key v] fields [Hk Hv] _ IH]; [reflexivity|].
  apply walkable_cons. cbn [fst snd] in *.
  split; [exact Hk|]. split; [apply faithful_sized; exact Hv|exact IH].
Qed.

Lemma to_int64_id (z : Z) : INT64_MIN <= z <= INT64_MAX -> to_int64 z = z.
Proof.
  unfold INT64_MIN, INT64_MAX, to_int64. intros H.
  rewrite Z.mod_small; lia.
Qed.

(** What the encoder writes for a faithful node is found again: the element
    the locator makes of the bytes matches the node. *)
Lemma node_matches_encoded (val : yyjson_val) :
  faithful val ->
  forall key key_len rest,
    len (bson_value val) <= INT32_MAX ->
    node_matches val
      (BSONElement.mk (bson_tag val) key key_len (bson_value val ++ rest)
         (len (bson_value val))).
Proof.
  induction val as [val Hleaf|fields IH] using yyjson_val_fields_ind;
    intros Hf key key_len rest Hmax.
  - destruct val as [raw| |b|num|num|bits|str|elems|fields];
      try discriminate Hleaf; cbn [faithful] in Hf; try contradiction;
      cbn [node_matches]; cbv zeta;
      cbn [BSONElement.type BSONElement.value BSONElement.value_len].
    + split; [reflexivity|]. destruct b; reflexivity.
    + assert (in_int32 num = false) as E.
      { unfold in_int32. apply andb_false_iff. right. apply Z.leb_gt. lia. }
      rewrite E. cbn [bson_tag bson_value]. split; [reflexivity|].
      unfold WriteBSONInt64. rewrite ReadInt64_le_bytes, to_int64_idem.
      apply to_int64_id. unfold INT64_MIN, INT32_MAX in *. lia.
    + cbn [bson_tag bson_value]. destruct (in_int32 num) eqn:E.
      * split; [reflexivity|]. unfold WriteBSONInt32. rewrite ReadInt32_le_bytes.
        apply in_int32_spec in E. rewrite !to_int32_id by (rewrite ?to_int32_id; lia).
        reflexivity.
      * split; [reflexivity|]. unfold WriteBSONInt64. rewrite ReadInt64_le_bytes.
        apply to_int64_id. exact Hf.
    + cbn [bson_tag bson_value]. split; [reflexivity|].
      unfold WriteBSONDouble. rewrite ReadDouble_le_bytes. apply to_idx_id. exact Hf.
    + cbn [bson_tag bson_value] in *. split; [reflexivity|].
      apply WriteBSONString_read_back.
      unfold WriteBSONString in Hmax. norm_len_in Hmax.
      pose proof (len_nonneg str). lia.
    + subst elems. split; [reflexivity|exact I].
  - apply faithful_obj in Hf. destruct Hf as [Hnodup Hall].
    apply node_matches_obj.
    cbn [BSONElement.type BSONElement.value BSONElement.value_len bson_tag].
    split; [reflexivity|].
    rewrite bson_value_obj in *.
    apply Forall_forall. intros [k v] Hin result. cbn [fst snd].
    destruct (in_split _ _ Hin) as (before & after & Efields).
    rewrite Efields in *.
    rewrite map_app in Hnodup. cbn [map fst] in Hnodup.
    pose proof (NoDup_remove_2 _ _ _ Hnodup) as Hnotin.
    apply Forall_app in Hall. destruct Hall as [Hbefore Hfield].
    inversion Hfield as [|f l [Hk Hv] _]; subst. cbn [fst snd] in *.
    apply Forall_app in IH. destruct IH as [_ IHfield].
    inversion IHfield as [|f l IHv _]; subst. cbn [snd] in IHv.
    rewrite (FindElement_framed before k v after rest _ result);
      try assumption; try lia.
    + eexists. split; [reflexivity|]. apply IHv; [exact Hv|].
      exact (Z.le_trans _ _ _ (len_bson_value_field before k v after) Hmax).
    + apply faithful_walkable. exact Hbefore.
    + intros C. apply Hnotin. apply in_or_app. left. exact C.
    + apply faithful_sized. exact Hv.
    + apply Z.le_refl.
Qed.

(** The cast of the tree of a text: the margin is enough whenever the
    document fits the [int32] of its length. *)
Lemma CastJSONToBSON_document (json_size : Z) (root : yyjson_val) :
  yyjson_is_obj root || yyjson_is_arr root = true ->
  supported root = true ->
  json_text_min root <= json_size ->
  json_size * 2 + 1024 <= UINT64_MAX ->
  len (bson_document root) <= INT32_MAX ->
  CastJSONToBSON json_size (Some root) = CastBlob (bson_document root).
Proof.
  intros Hroot Hsup Hmin Hfit Hmax. unfold CastJSONToBSON.
  assert (negb (yyjson_is_obj root) && negb (yyjson_is_arr root) = false) as ->
    by (rewrite <- negb_orb, Hroot; reflexivity).
  pose proof (bson_document_bound root) as Hbound.
  pose proof (len_nonneg (bson_document root)) as Hlen.
  rewrite to_idx_id by lia.
  rewrite JSONToBSONDocument_fits; try assumption; try lia.
  now rewrite string_t_all.
Qed.

(** C2 (amended). The round trip, for what the encoder and the read path
    carry through by design.  (1) The cast of a supported tree whose root
    is an object or an array, whose text has [json_size] bytes and whose
    document is not longer than [INT32_MAX] bytes, hands back the document.
    (2) The buffer of a root array is valid.  (3) The buffer of a root
    object is valid if no key of a top-level field holds a NUL byte and no
    top-level value is null; and navigating it by the key of a top-level
    field -- the first field of that key, behind fields without NUL in
    their keys and without null values, its own key without NUL -- yields
    an element that matches the node of the field, tag and decoded value,
    at every depth, when the node is a faithful one. *)
Theorem roundtrip_of_faithful_fields :
  (forall json_size root,
      yyjson_is_obj root || yyjson_is_arr root = true ->
      supported root = true ->
      json_text_min root <= json_size ->
      json_size * 2 + 1024 <= UINT64_MAX ->
      len (bson_document root) <= INT32_MAX ->
      CastJSONToBSON json_size (Some root) = CastBlob (bson_document root))
  /\ (forall json_size elems blob,
         CastJSONToBSON json_size (Some (JArr elems)) = CastBlob blob ->
         ValidateDocument blob (len blob) = true)
  /\ (forall json_size fields blob,
         CastJSONToBSON json_size (Some (JObj fields)) = CastBlob blob ->
         (walkable fields = true -> ValidateDocument blob (len blob) = true)
         /\ (forall before key val after result,
                fields = before ++ (key, val) :: after ->
                walkable before = true ->
                ~ In key (map fst before) ->
                nul_free key = true ->
                faithful val ->
                exists elem,
                  TraversePath blob (len blob)
                    [KeySegment (string_of_list_byte key)] result = (true, elem)
                  /\ node_matches val elem)).
Proof.
  split; [exact CastJSONToBSON_document|]. split.
  - intros json_size elems blob Hcast.
    apply CastJSONToBSON_blob in Hcast.
    destruct Hcast as (root & Hroot & _ & -> & _).
    injection Hroot as <-. reflexivity.
  - intros json_size fields blob Hcast.
    apply CastJSONToBSON_blob in Hcast.
    destruct Hcast as (root & Hroot & _ & -> & Hmax).
    injection Hroot as <-.
    unfold bson_document in *. cbn [yyjson_obj_iter] in *.
    split.
    + intros Hw. now apply ValidateDocument_encoded.
    + intros before key val after result -> Hw Hnotin Hnul Hfaithful.
      unfold TraversePath. cbn [TraversePath_from].
      rewrite list_byte_of_string_of_list_byte, length_string_of_list_byte.
      fold (len key).
      rewrite len_frame in *. unfold frame.
      rewrite FindElement_encoded
        by (try assumption; apply faithful_sized; exact Hfaithful).
      cbn [negb]. eexists. split; [reflexivity|].
      apply node_matches_encoded; [exact Hfaithful|].
      rewrite bson_elements_app, bson_elements_cons in Hmax.
      norm_len_in Hmax.
      pose proof (len_nonneg (bson_elements before)).
      pose proof (len_nonneg (bson_elements after)).
      pose proof (len_nonneg key). lia.
Qed.

Lemma roundtrip_of_faithful_fields_witness :
  CastJSONToBSON 41 (Some user_john) = CastBlob (bson_document user_john)
  /\ ValidateDocument (bson_document user_john) (len (bson_document user_john)) = true
  /\ exists elem,
       TraversePath (bson_document user_john) (len (bson_document user_john))
         [KeySegment "user"] no_element = (true, elem)
       /\ node_matches
            (JObj [(bytes "name", JStr (bytes "John")); (bytes "tags", JArr [])])
            elem.
Proof.
  assert (CastJSONToBSON 41 (Some user_john) = CastBlob (bson_document user_john))
    as Hcast.
  { apply (proj1 roundtrip_of_faithful_fields 41 user_john).
    - reflexivity.
    - reflexivity.
    - vm_compute. discriminate.
    - vm_compute. discriminate.
    - vm_compute. discriminate. }
  split; [exact Hcast|].
  destruct (proj2 (proj2 roundtrip_of_faithful_fields) 41
              [(bytes "user",
                JObj [(bytes "name", JStr (bytes "John")); (bytes "tags", JArr [])])]
              (bson_document user_john) Hcast) as [Hvalid Hfind].
  split; [apply Hvalid; reflexivity|].
  apply (Hfind [] (bytes "user")
           (JObj [(bytes "name", JStr (bytes "John")); (bytes "tags", JArr [])])
           [] no_element).
  - reflexivity.
  - reflexivity.
  - simpl. tauto.
  - reflexivity.
  - cbn [faithful map fst]. split.
    + constructor; [simpl; intros [C|[]]; discriminate C|].
      constructor; [simpl; tauto|constructor].
    + repeat split.
Defined.

(** C2, as stated, fails.  By design: the locator returns the first field
    of a key, so in [{"a": true, "a": "x"}] navigating by the key of the
    second field, a string, yields the boolean of the first; and a key ends
    at its first NUL, so the buffer of [{"a\u0000b": true}] is not valid
    and its field is not found.  By the defects of C1, C3 and C4: the
    buffer of [{"a": null}] is not valid; the array of [{"a": [1]}] is
    found without its item, and navigating the buffer of the root array
    [[1, 2]] by its first index finds nothing; the unsigned 5 of
    [{"n": 5}] comes back with the tag [int64] where its range asks for
    [int32], and the unsigned [2^64 - 1] comes back as [-1]. *)
Lemma roundtrip_counterexamples :
  (CastJSONToBSON 18 (Some twice_a) = CastBlob twice_a_document
   /\ ValidateDocument twice_a_document 18 = true
   /\ fst (TraversePath twice_a_document 18 [KeySegment "a"] no_element) = true
   /\ ~ node_matches (JStr (bytes "x"))
          (snd (TraversePath twice_a_document 18 [KeySegment "a"] no_element)))
  /\ (CastJSONToBSON 17 (Some nul_key) = CastBlob nul_key_document
      /\ ValidateDocument nul_key_document 11 = false
      /\ fst (TraversePath nul_key_document 11
                [KeySegment (string_of_list_byte [x61; x00; x62])] no_element)
         = false)
  /\ (CastJSONToBSON 10 (Some null_field) = CastBlob null_field_document
      /\ ValidateDocument null_field_document 8 = false
      /\ fst (TraversePath null_field_document 8 [KeySegment "a"] no_element)
         = false)
  /\ (CastJSONToBSON 9 (Some array_field) = CastBlob array_field_document
      /\ fst (TraversePath array_field_document 13 [KeySegment "a"] no_element)
         = true
      /\ ~ node_matches (JArr [JUint 1])
             (snd (TraversePath array_field_document 13 [KeySegment "a"]
                     no_element)))
  /\ (CastJSONToBSON 5 (Some (JArr [JUint 1; JUint 2])) = CastBlob empty_document
      /\ fst (TraversePath empty_document 5 [IndexSegment 0] no_element) = false)
  /\ (CastJSONToBSON 7 (Some small_unsigned)
      = CastBlob (bson_document small_unsigned)
      /\ ~ node_matches (JUint 5)
             (snd (TraversePath (bson_document small_unsigned) 16
                     [KeySegment "n"] no_element)))
  /\ (CastJSONToBSON 26 (Some largest_unsigned)
      = CastBlob (bson_document largest_unsigned)
      /\ ~ node_matches (JUint 18446744073709551615)
             (snd (TraversePath (bson_document largest_unsigned) 16
                     [KeySegment "n"] no_element))).
Proof.
  repeat split; try reflexivity.
  - intros H. destruct H as [H _]. vm_compute in H. discriminate H.
  - intros H. destruct H as [_ [H _]].
    destruct (H no_element) as (item & Hfind & _).
    vm_compute in Hfind. discriminate Hfind.
  - intros H. vm_compute in H. destruct H as [H _]. discriminate H.
  - intros H. vm_compute in H. destruct H as [_ H]. discriminate H.
Qed.

(** * The failure causes of the encoder *)





